(** * Blinkenlights web controller

    A shallow embedding of [WebApp/script.js]: the serial line protocol of the
    16x16 LED matrix, the frame encoder, the line splitter of the inbound
    stream, the gamma and colour-correction controls and the digit clock.

    The source holds two variants of the script.  The first one (module
    [Gif]) plays GIF animations and the digit clock; the second one (module
    [Img]) samples static images through a canvas.  What both variants share
    word for word (the session handles, [writeToStream], [disconnect]) is
    modelled once, in the section [Serial].

    Conventions.
    - A JavaScript Number that holds an integer is a [Z]; a Number produced by
      floating-point arithmetic is a binary64 [float], on which [+], [*] and
      [/] are the IEEE operations of the kernel.
    - Strings are [string]; the characters that occur are ASCII.
    - [undefined] is [None].
    - The module-level variables of the script are the fields of [Session];
      code that reads or assigns them lives in the monad [M], which threads
      the session and a completion (normal value or thrown exception). *)

From Stdlib Require Import ZArith List String Ascii Bool Lia.
From Stdlib Require Import PrimFloat FloatOps SpecFloat FloatAxioms.
From Stdlib Require Import DecimalString.
From Stdlib Require Uint63.
Import ListNotations.

Local Open Scope string_scope.
Local Open Scope list_scope.
Local Open Scope Z_scope.

(** ** JavaScript primitives *)

Module Js.

(** The result of [Math.round]: an integer, or one of the non-finite Numbers. *)
Inductive Num : Type :=
| Int (z : Z)
| NaN
| Infinity (negative : bool).

Inductive exn : Type :=
| TypeError.

(** A completion: the value of an expression, or the exception it threw. *)
Inductive completion (A : Type) : Type :=
| Normal (a : A)
| Throw (e : exn).

Arguments Normal {A} a.
Arguments Throw {A} e.

Definition hexDigit (d : Z) : ascii :=
  match d with
  | 0 => "0" | 1 => "1" | 2 => "2" | 3 => "3" | 4 => "4" | 5 => "5"
  | 6 => "6" | 7 => "7" | 8 => "8" | 9 => "9" | 10 => "a" | 11 => "b"
  | 12 => "c" | 13 => "d" | 14 => "e" | _ => "f"
  end%char.

(** The base-16 digits of a non-negative integer, most significant first. *)
Fixpoint digits16 (fuel : nat) (n : Z) : string :=
  match fuel with
  | O => ""
  | S k =>
      if n <? 16 then String (hexDigit n) ""
      else (digits16 k (n / 16) ++ String (hexDigit (n mod 16)) "")%string
  end.

(** [number.toString(16)] on an integral Number. *)
Definition toString16 (z : Z) : string :=
  if z <? 0 then String "-"%char (digits16 (S (Z.to_nat (Z.log2 (- z)))) (- z))
  else digits16 (S (Z.to_nat (Z.log2 z))) z.

Definition Num_toString16 (x : Num) : string :=
  match x with
  | Int z => toString16 z
  | NaN => "NaN"
  | Infinity false => "Infinity"
  | Infinity true => "-Infinity"
  end.

(** Number to String in base 10, as string concatenation applies it to an
    integral Number (below 10^21 in size, where JavaScript still writes all
    the digits). *)
Definition Number_toString (z : Z) : string :=
  NilEmpty.string_of_int (Z.to_int z).

Definition upcase (c : ascii) : ascii :=
  let n := nat_of_ascii c in
  if ((97 <=? n) && (n <=? 122))%nat then ascii_of_nat (n - 32) else c.

Fixpoint toUpperCase (s : string) : string :=
  match s with
  | EmptyString => EmptyString
  | String c r => String (upcase c) (toUpperCase r)
  end.

(** The first [n] characters of [cur] followed by [pad] repeated for ever. *)
Fixpoint filler (n : nat) (cur pad : string) : string :=
  match n with
  | O => ""
  | S k =>
      match cur with
      | String c r => String c (filler k r pad)
      | EmptyString =>
          match pad with
          | String c r => String c (filler k r pad)
          | EmptyString => ""
          end
      end
  end.

(** [s.padStart(targetLength, padString)], both arguments already coerced. *)
Definition padStart (targetLength : nat) (padString : string) (s : string)
  : string :=
  if (targetLength <=? String.length s)%nat then s
  else (filler (targetLength - String.length s) "" padString ++ s)%string.

(** An argument as written at a call site, before coercion. *)
Inductive arg : Type :=
| AStr (s : string)
| ANum (z : Z).

Definition digitValue (c : ascii) : option Z :=
  let n := nat_of_ascii c in
  if ((48 <=? n) && (n <=? 57))%nat then Some (Z.of_nat (n - 48)) else None.

Fixpoint parseDecimal (acc : Z) (s : string) : option Z :=
  match s with
  | EmptyString => Some acc
  | String c r =>
      match digitValue c with
      | Some d => parseDecimal (10 * acc + d) r
      | None => None
      end
  end.

(** [ToLength]: a string of decimal digits is read as a number, any other
    string is [NaN] and counts as 0, a negative number counts as 0. *)
Definition ToLength (a : arg) : nat :=
  match a with
  | AStr s => match parseDecimal 0 s with Some n => Z.to_nat n | None => O end
  | ANum z => Z.to_nat z
  end.

Definition ToString (a : arg) : string :=
  match a with
  | AStr s => s
  | ANum z => Number_toString z
  end.

(** [padStart] as a method call: [targetLength] goes through [ToLength] and
    [padString] through [ToString]. *)
Definition padStart_call (s : string) (targetLength padString : arg) : string :=
  padStart (ToLength targetLength) (ToString padString) s.

(** [ToInt32] on an integral Number: wrap-around to a signed 32-bit value. *)
Definition wrap32 (z : Z) : Z := (z + 2 ^ 31) mod 2 ^ 32 - 2 ^ 31.

(** [ToInt32] of the operand of a bit operation: [undefined], [NaN] and the
    infinities count as 0. *)
Definition ToInt32 (v : option Num) : Z :=
  match v with
  | Some (Int z) => wrap32 z
  | _ => 0
  end.

(** [a << k]. *)
Definition shl (a : option Num) (k : Z) : Z :=
  wrap32 (Z.shiftl (ToInt32 a) (Z.land k 31)).

(** [a | b] on operands that are 32-bit values already. *)
Definition bor (a b : Z) : Z := Z.lor a b.

(** [array[i]]: [undefined] when [i] is [undefined] or not an index of the
    array. *)
Definition index {A : Type} (l : list A) (i : option Z) : option A :=
  match i with
  | Some z => if z <? 0 then None else nth_error l (Z.to_nat z)
  | None => None
  end.

(** [array.join('')]. *)
Definition join (l : list string) : string :=
  fold_right String.append "" l.

(** [s] without its first [n] characters. *)
Fixpoint drop (n : nat) (s : string) : string :=
  match n, s with
  | O, _ => s
  | S _, EmptyString => EmptyString
  | S k, String _ r => drop k r
  end.

(** The leftmost occurrence of [sep] in [s]: the text before it and the text
    after it. *)
Fixpoint cut (sep s : string) : option (string * string) :=
  if String.prefix sep s then Some ("", drop (String.length sep) s)
  else
    match s with
    | EmptyString => None
    | String c r =>
        match cut sep r with
        | Some (a, b) => Some (String c a, b)
        | None => None
        end
    end.

Fixpoint split_fuel (fuel : nat) (sep s : string) : list string :=
  match fuel with
  | O => [s]
  | S k =>
      match cut sep s with
      | Some (a, b) => a :: split_fuel k sep b
      | None => [s]
      end
  end.

Fixpoint chars (s : string) : list string :=
  match s with
  | EmptyString => []
  | String c r => String c "" :: chars r
  end.

(** [s.split(sep)] for a string separator: the pieces between the
    occurrences of [sep], found from left to right without overlap; an empty
    separator splits into characters. *)
Definition split (s sep : string) : list string :=
  match sep with
  | EmptyString => chars s
  | _ => split_fuel (String.length s) sep s
  end.

(** [array.pop()]: the last element, and the array without it. *)
Definition pop {A : Type} (l : list A) : option A * list A :=
  match l with
  | [] => (None, [])
  | a :: r => (Some (last r a), removelast l)
  end.

(** [array[i] = v] on an array with holes [hole]: an index past the end
    extends the array, a negative index is an ordinary property and leaves
    the elements alone. *)
Definition assign {A : Type} (hole : A) (l : list A) (i : Z) (v : A) : list A :=
  if i <? 0 then l
  else
    let n := Z.to_nat i in
    if (n <? List.length l)%nat then firstn n l ++ v :: skipn (S n) l
    else l ++ repeat hole (n - List.length l) ++ [v].

(** The loop counter values of [for (var i = 0; i < n; i++)]. *)
Definition upto (n : Z) : list Z := map Z.of_nat (seq 0 (Z.to_nat n)).

(** Sequencing of completions. *)
Definition andThen {A B : Type} (c : completion A) (k : A -> completion B)
  : completion B :=
  match c with
  | Normal a => k a
  | Throw e => Throw e
  end.

(** [Array.from(iterable, f)] for a function that may throw. *)
Fixpoint mapC {A B : Type} (f : A -> completion B) (l : list A)
  : completion (list B) :=
  match l with
  | [] => Normal []
  | a :: r =>
      andThen (f a) (fun b => andThen (mapC f r) (fun bs => Normal (b :: bs)))
  end.

(** A loop whose body may throw, threading the variables it assigns. *)
Fixpoint foldC {A St : Type} (f : St -> A -> completion St) (l : list A)
  (s : St) : completion St :=
  match l with
  | [] => Normal s
  | a :: r => andThen (f s a) (foldC f r)
  end.

(** [Math.round] on a binary64 value: the nearest integer, a tie going up. *)
Definition Math_round (x : float) : Num :=
  match Prim2SF x with
  | S754_zero _ => Int 0
  | S754_infinity s => Infinity s
  | S754_nan => NaN
  | S754_finite s m e =>
      let v := if s then Z.neg m else Z.pos m in
      if 0 <=? e then Int (v * 2 ^ e)
      else Int ((v + 2 ^ (- e - 1)) / 2 ^ (- e))
  end.

(** [Array.from(Array(n), f)] for a closure [f] that ignores its arguments
    and updates captured variables of type [St]. *)
Fixpoint Array_from {St A : Type} (n : nat) (f : St -> A * St) (s : St)
  : list A * St :=
  match n with
  | O => ([], s)
  | S k =>
      let '(a, s1) := f s in
      let '(l, s2) := Array_from k f s1 in
      (a :: l, s2)
  end.

End Js.

Import Js.

(** ** The serial session, shared by both variants *)

(** What the script does to the outside world, in order. *)
Inductive event : Type :=
| PortOpened                 (* port.open({ baudRate: 115200 }) *)
| Written (chunk : string)   (* writer.write(chunk) on the output stream *)
| ReaderCancelled            (* reader.cancel() *)
| InputDoneCaught            (* inputDone.catch(() => {}): rejection swallowed *)
| WriterClosed               (* outputStream.getWriter().close() *)
| OutputDoneAwaited          (* await outputDone *)
| PortClosed.                (* port.close() *)

Section Serial.

(** The type of the image element kept in [currentImage]. *)
Variable Img : Type.

(** The module-level variables; a handle is [None] while it is [undefined]
    or [null].  [gammaTable] is assigned by [initGamma] when the page loads,
    before any handler can run.  [trace] is the outside world. *)
Record Session : Type := mkSession {
  port : option unit;
  reader : option unit;
  inputDone : option unit;
  outputDone : option unit;
  inputStream : option unit;
  outputStream : option unit;
  gammaTable : list Num;
  currentImage : option Img;
  trace : list event
}.

Definition M (A : Type) : Type := Session -> completion A * Session.

Definition ret {A : Type} (a : A) : M A := fun s => (Normal a, s).

Definition throw {A : Type} (e : exn) : M A := fun s => (Throw e, s).

Definition bind {A B : Type} (m : M A) (k : A -> M B) : M B :=
  fun s =>
    match m s with
    | (Normal a, s1) => k a s1
    | (Throw e, s1) => (Throw e, s1)
    end.

Definition get {A : Type} (field : Session -> A) : M A :=
  fun s => (Normal (field s), s).

(** A completion computed without touching the session. *)
Definition lift {A : Type} (c : completion A) : M A := fun s => (c, s).

(** The session after the events [evs] have happened. *)
Definition logged (s : Session) (evs : list event) : Session :=
  mkSession (port s) (reader s) (inputDone s) (outputDone s)
    (inputStream s) (outputStream s) (gammaTable s) (currentImage s)
    (trace s ++ evs).

Definition emit (evs : list event) : M unit :=
  fun s => (Normal tt, logged s evs).

Definition set_reader (v : option unit) : M unit :=
  fun s =>
    (Normal tt,
     mkSession (port s) v (inputDone s) (outputDone s) (inputStream s)
       (outputStream s) (gammaTable s) (currentImage s) (trace s)).

Definition set_inputDone (v : option unit) : M unit :=
  fun s =>
    (Normal tt,
     mkSession (port s) (reader s) v (outputDone s) (inputStream s)
       (outputStream s) (gammaTable s) (currentImage s) (trace s)).

Definition set_inputStream (v : option unit) : M unit :=
  fun s =>
    (Normal tt,
     mkSession (port s) (reader s) (inputDone s) (outputDone s) v
       (outputStream s) (gammaTable s) (currentImage s) (trace s)).

Definition set_outputStream (v : option unit) : M unit :=
  fun s =>
    (Normal tt,
     mkSession (port s) (reader s) (inputDone s) (outputDone s)
       (inputStream s) v (gammaTable s) (currentImage s) (trace s)).

Definition set_outputDone (v : option unit) : M unit :=
  fun s =>
    (Normal tt,
     mkSession (port s) (reader s) (inputDone s) v (inputStream s)
       (outputStream s) (gammaTable s) (currentImage s) (trace s)).

Definition set_port (v : option unit) : M unit :=
  fun s =>
    (Normal tt,
     mkSession v (reader s) (inputDone s) (outputDone s) (inputStream s)
       (outputStream s) (gammaTable s) (currentImage s) (trace s)).

Definition set_gammaTable (v : list Num) : M unit :=
  fun s =>
    (Normal tt,
     mkSession (port s) (reader s) (inputDone s) (outputDone s)
       (inputStream s) (outputStream s) v (currentImage s) (trace s)).

Notation "x <- m ;; k" := (bind m (fun x => k))
  (at level 61, m at next level, right associativity).
Notation "m ;; k" := (bind m (fun _ => k))
  (at level 61, right associativity).

(** [list.forEach(f)]. *)
Fixpoint forEach {A : Type} (l : list A) (f : A -> M unit) : M unit :=
  match l with
  | [] => ret tt
  | a :: r => f a ;; forEach r f
  end.

(** A method call on a handle: a [TypeError] when the handle is not set. *)
Definition deref (field : Session -> option unit) : M unit :=
  h <- get field ;;
  match h with
  | Some _ => ret tt
  | None => throw TypeError
  end.

(** [writeToStream(...lines)]: each line goes out with a newline appended. *)
Definition writeToStream (lines : list string) : M unit :=
  deref outputStream ;;
  forEach lines (fun line => emit [Written (line ++ String "010"%char "")%string]).

(** [disconnect()]. *)
Definition disconnect : M unit :=
  writeToStream ["RST"] ;;
  r <- get reader ;;
  match r with
  | Some _ =>
      emit [ReaderCancelled] ;;
      deref inputDone ;;
      emit [InputDoneCaught] ;;
      set_reader None ;;
      set_inputDone None
  | None => ret tt
  end ;;
  o <- get outputStream ;;
  match o with
  | Some _ =>
      emit [WriterClosed] ;;
      emit [OutputDoneAwaited] ;;
      set_outputStream None ;;
      set_outputDone None
  | None => ret tt
  end ;;
  deref port ;;
  emit [PortClosed] ;;
  set_port None.

(** The lines a trace sent to the device, newline included. *)
Fixpoint written (t : list event) : list string :=
  match t with
  | [] => []
  | Written c :: r => c :: written r
  | _ :: r => written r
  end.

End Serial.

Arguments mkSession {Img}.
Arguments port {Img}.
Arguments reader {Img}.
Arguments inputDone {Img}.
Arguments outputDone {Img}.
Arguments inputStream {Img}.
Arguments outputStream {Img}.
Arguments gammaTable {Img}.
Arguments currentImage {Img}.
Arguments trace {Img}.
Arguments ret {Img A}.
Arguments throw {Img A}.
Arguments bind {Img A B}.
Arguments get {Img A}.
Arguments lift {Img A}.
Arguments logged {Img}.
Arguments emit {Img}.
Arguments set_reader {Img}.
Arguments set_inputDone {Img}.
Arguments set_inputStream {Img}.
Arguments set_outputStream {Img}.
Arguments set_outputDone {Img}.
Arguments set_port {Img}.
Arguments set_gammaTable {Img}.
Arguments forEach {Img A}.
Arguments deref {Img}.
Arguments writeToStream {Img}.
Arguments disconnect {Img}.

Declare Scope js_scope.
Delimit Scope js_scope with js.
Notation "x <- m ;; k" := (bind m (fun x => k))
  (at level 61, m at next level, right associativity) : js_scope.
Notation "m ;; k" := (bind m (fun _ => k))
  (at level 61, right associativity) : js_scope.
Local Open Scope js_scope.

(** ** Code that the two variants share up to a constant *)

(** [LineBreakTransformer]: the text held until a line is complete. *)
Record LineBreakTransformer : Type := mkTransformer {
  container : string
}.

Definition LineBreakTransformer_new : LineBreakTransformer := mkTransformer "".

(** A splitter for the delimiter [sep]; [controller] is the queue of lines
    handed on.  [split] never returns an empty array for a non-empty
    separator, so [pop] always finds a last element. *)
Definition transform_with (sep : string) (this : LineBreakTransformer)
  (chunk : string) (controller : list string)
  : LineBreakTransformer * list string :=
  let joined := (container this ++ chunk)%string in
  let '(lastLine, lines) := pop (split joined sep) in
  (mkTransformer (match lastLine with Some l => l | None => "undefined" end),
   controller ++ lines).

Definition flush (this : LineBreakTransformer) (controller : list string)
  : list string :=
  controller ++ [container this].

(** What a [TransformStream] built on the transformer hands on when it is
    fed [chunks] one by one: [transform] for each chunk, in order. *)
Fixpoint feed (sep : string) (chunks : list string)
  (this : LineBreakTransformer) (controller : list string)
  : LineBreakTransformer * list string :=
  match chunks with
  | [] => (this, controller)
  | chunk :: rest =>
      let '(this1, controller1) := transform_with sep this chunk controller in
      feed sep rest this1 controller1
  end.

(** The whole life of the stream: a new transformer, the chunks, then
    [flush] when the stream closes. *)
Definition pipeThrough (sep : string) (chunks : list string) : list string :=
  let '(this, controller) := feed sep chunks LineBreakTransformer_new [] in
  flush this controller.

(** The table [Array.from(Array(256), () => Math.round(255*((i++/255.0)**e)))]
    for the exponent [e]; [pow] is the [**] of the host. *)
Definition gammaTableFor (pow : float -> float -> float) (e : float) : list Num :=
  fst (Array_from 256
         (fun i : float => (Math_round (255 * pow (i / 255) e)%float, (i + 1)%float))
         0%float).

(** ** First variant: GIF animations and the digit clock *)

Module Gif.

Definition COLS : Z := 16.
Definition ROWS : Z := COLS.

Definition MIN_GAMMA : float := 0.5.
Definition MAX_GAMMA : float := 3.0.
Definition DEFAULT_GAMMA : float := 2.0.

(** [paddedHex(number, width)]. *)
Definition paddedHex (number width : Z) : string :=
  toUpperCase (padStart_call (toString16 number) (ANum width) (AStr "0")).

(** A colour channel as read from a byte array; [None] past its end. *)
Definition channel : Type := option Z.

(** An element of a row of the pixel array: never assigned, filled with the
    number 0, or a three-element array. *)
Inductive cell : Type :=
| Hole
| Zero
| Rgb (r g b : channel).

Definition grid : Type := list (list cell).

(** The arrow function of [Frame]: its parameter [[r, g, b]] destructures an
    array, and throws on anything that is not iterable. *)
Definition encodePixel (table : list Num) (px : cell) : completion string :=
  match px with
  | Rgb r g b =>
      Normal (paddedHex
                (bor (bor (shl (index table r) 16) (shl (index table g) 8))
                   (ToInt32 (index table b)))
                6)
  | Hole | Zero => Throw TypeError
  end.

Definition encodeRow (table : list Num) (row : list cell) : completion string :=
  andThen (mapC (encodePixel table) row) (fun groups => Normal (join groups)).

Record Frame : Type := mkFrame {
  frame_duration : Z;
  frame_rows : list string
}.

(** [new Frame(ms, pixels)] under the gamma table [table]. *)
Definition Frame_new (table : list Num) (ms : Z) (pixels : grid)
  : completion Frame :=
  andThen (mapC (encodeRow table) pixels) (fun rows => Normal (mkFrame ms rows)).

Record Animation : Type := mkAnimation {
  anim_duration : Z;
  anim_frames : list Frame
}.

(** [new Animation(ms)]. *)
Definition Animation_new (ms : Z) : Animation := mkAnimation ms [].

Definition addFrame (a : Animation) (f : Frame) : Animation :=
  mkAnimation (anim_duration a) (anim_frames a ++ [f]).

(** The patch of one GIF frame, as [decompressFrames(gif, true)] returns it:
    RGBA bytes, row by row. *)
Record Dims : Type := mkDims {
  top : Z;
  left : Z;
  width : Z;
  height : Z
}.

Record GifFrame : Type := mkGifFrame {
  dims : Dims;
  patch : list Z;
  delay : option Z
}.

(** A parsed GIF: the logical screen descriptor, and the result of
    [decompressFrames]. *)
Record ParsedGif : Type := mkParsedGif {
  lsd_width : Z;
  lsd_height : Z;
  frames : option (list GifFrame)
}.

(** An image element: what the request for its source answers, parsed. *)
Record img : Type := mkImg {
  response : option ParsedGif
}.

Definition Session : Type := Session img.
Definition M (A : Type) : Type := M img A.

(** [new Frame(ms, pixels)] reads the gamma table of the session. *)
Definition newFrame (ms : Z) (pixels : grid) : M Frame :=
  table <- get gammaTable ;;
  lift (Frame_new table ms pixels).

(** [sendAnimation(anim)]. *)
Definition sendAnimation (anim : Animation) : M unit :=
  writeToStream [("ANM " ++ Number_toString (anim_duration anim))%string] ;;
  forEach (anim_frames anim) (fun frame =>
    writeToStream [("FRM " ++ Number_toString (frame_duration frame))%string] ;;
    forEach (frame_rows frame) (fun row =>
      writeToStream [("RGB " ++ row)%string])) ;;
  writeToStream ["DON"; "NXT"].

(** [Array(ROWS).fill().map(() => Array(COLS))]. *)
Definition newPixels : grid :=
  repeat (repeat Hole (Z.to_nat COLS)) (Z.to_nat ROWS).

(** [pixels.forEach(row => row.fill(0))]. *)
Definition clearPixels (pixels : grid) : grid :=
  map (map (fun _ => Zero)) pixels.

(** [pixels[i][j] = v]. *)
Definition setPixel (pixels : grid) (i j : Z) (v : cell) : completion grid :=
  match index pixels (Some i) with
  | Some row => Normal (assign [] pixels i (assign Hole row j v))
  | None => Throw TypeError
  end.

(** The two nested loops that copy the patch of a GIF frame. *)
Definition copyPatch (gifFrame : GifFrame) (pixels : grid) : completion grid :=
  let bitmap := patch gifFrame in
  let row_offset := top (dims gifFrame) in
  let col_offset := left (dims gifFrame) in
  foldC (fun px r =>
    foldC (fun px c =>
      let offset := (r * width (dims gifFrame) + c) * 4 in
      setPixel px (r + row_offset) (c + col_offset)
        (Rgb (index bitmap (Some offset)) (index bitmap (Some (offset + 1)))
           (index bitmap (Some (offset + 2)))))
      (upto (width (dims gifFrame))) px)
    (upto (height (dims gifFrame))) pixels.

(** The pixel array handed to [new Frame] for one GIF frame, from the array
    the previous frame left. *)
Definition drawGifFrame (gifFrame : GifFrame) (pixels : grid) : completion grid :=
  copyPatch gifFrame (clearPixels pixels).

(** The body of [frames.forEach]; [pixels] and [animation] are the captured
    variables. *)
Fixpoint gifFrames (fs : list GifFrame) (pixels : grid) (animation : Animation)
  : M Animation :=
  match fs with
  | [] => ret animation
  | gifFrame :: rest =>
      px <- lift (drawGifFrame gifFrame pixels) ;;
      f <- newFrame (match delay gifFrame with Some d => d | None => 1000 end) px ;;
      gifFrames rest px (addFrame animation f)
  end.

(** [sendGifAnimation(img)], from the moment the request has loaded. *)
Definition sendGifAnimation (i : img) : M unit :=
  match response i with
  | None => ret tt
  | Some gif =>
      if negb (lsd_width gif =? ROWS) || negb (lsd_height gif =? COLS)
      then ret tt
      else
        match frames gif with
        | None => ret tt
        | Some fs =>
            animation <- gifFrames fs newPixels (Animation_new 600000) ;;
            sendAnimation animation
        end
  end.

Definition newline : string := String "010"%char "".

Definition transform := transform_with newline.

Definition gammaValueFromSlider (v : float) : float :=
  (MIN_GAMMA + v * (MAX_GAMMA - MIN_GAMMA) / 100)%float.

Definition sliderValueFromGamma (g : float) : float :=
  ((g - MIN_GAMMA) * 100 / (MAX_GAMMA - MIN_GAMMA))%float.

(** [updateGamma()], with the value of the slider. *)
Definition updateGamma (pow : float -> float -> float) (slider : float) : M unit :=
  let gamma := gammaValueFromSlider slider in
  set_gammaTable (gammaTableFor pow gamma) ;;
  ci <- get currentImage ;;
  match ci with
  | Some i => sendGifAnimation i
  | None => ret tt
  end.

Definition DIGIT_ROWS : Z := 5.
Definition CLOCK_VERTICAL_OFFSET : Z := 5.

Definition Digits : list (list (list Z)) :=
  [ [[1;1;1]; [1;0;1]; [1;0;1]; [1;0;1]; [1;1;1]];
    [[0;1;0]; [1;1;0]; [0;1;0]; [0;1;0]; [1;1;1]];
    [[1;1;0]; [0;0;1]; [0;1;0]; [1;0;0]; [1;1;1]];
    [[1;1;1]; [0;0;1]; [0;1;1]; [0;0;1]; [1;1;1]];
    [[1;0;1]; [1;0;1]; [1;1;1]; [0;0;1]; [0;0;1]];
    [[1;1;1]; [1;0;0]; [1;1;0]; [0;0;1]; [1;1;0]];
    [[1;1;1]; [1;0;0]; [1;1;1]; [1;0;1]; [1;1;1]];
    [[1;1;1]; [0;0;1]; [0;1;0]; [0;1;0]; [0;1;0]];
    [[1;1;1]; [1;0;1]; [1;1;1]; [1;0;1]; [1;1;1]];
    [[1;1;1]; [1;0;1]; [1;1;1]; [0;0;1]; [1;1;1]] ].

Section Clock.

(** The colours are handed through untouched, whatever they are. *)
Variable A : Type.

Definition fillRowIterator (color : A) : list A :=
  map (fun _ => color) (upto COLS).

(** [bitmapRowIterator(row, fg, bg)]; reading [row.length] throws when the
    row is [undefined]. *)
Definition bitmapRowIterator (row : option (list Z)) (fg bg : A)
  : completion (list A) :=
  match row with
  | Some bits => Normal (map (fun b => if b =? 0 then bg else fg) bits)
  | None => Throw TypeError
  end.

(** [Digits[d][row]]; indexing [undefined] throws. *)
Definition glyphRow (d row : Z) : completion (option (list Z)) :=
  match index Digits (Some d) with
  | Some glyph => Normal (index glyph (Some row))
  | None => Throw TypeError
  end.

Definition digitRowIterator (row h10 h1 m10 m1 : Z) (fg bg colon : A)
  : completion (list A) :=
  andThen (andThen (glyphRow h10 row) (fun g => bitmapRowIterator g fg bg)) (fun d1 =>
  andThen (andThen (glyphRow h1 row) (fun g => bitmapRowIterator g fg bg)) (fun d2 =>
  let center := if Z.rem row 2 =? 0 then bg else colon in
  andThen (andThen (glyphRow m10 row) (fun g => bitmapRowIterator g fg bg)) (fun d3 =>
  andThen (andThen (glyphRow m1 row) (fun g => bitmapRowIterator g fg bg)) (fun d4 =>
  Normal (d1 ++ [bg] ++ d2 ++ [center; center] ++ d3 ++ [bg] ++ d4))))).

Definition digitalClockIterator (h10 h1 m10 m1 : Z) (fg bg colon : A)
  : completion (list (list A)) :=
  andThen
    (mapC (fun r => digitRowIterator r h10 h1 m10 m1 fg bg colon)
       (upto DIGIT_ROWS))
    (fun digitRows =>
       Normal (map (fun _ => fillRowIterator bg) (upto CLOCK_VERTICAL_OFFSET)
               ++ digitRows
               ++ map (fun _ => fillRowIterator bg)
                    (upto (ROWS - (CLOCK_VERTICAL_OFFSET + DIGIT_ROWS))))).

End Clock.

Arguments fillRowIterator {A}.
Arguments bitmapRowIterator {A}.
Arguments digitRowIterator {A}.
Arguments digitalClockIterator {A}.

(** [drawClockMinute(fg, bg, colon)] at the time [hours]:[minutes]. *)
Definition drawClockMinute (hours minutes : Z) (fg bg colon : cell) : M unit :=
  let animation := Animation_new 60000 in
  on <- lift (digitalClockIterator (hours / 10) (Z.rem hours 10)
                (minutes / 10) (Z.rem minutes 10) fg bg colon) ;;
  f1 <- newFrame 500 on ;;
  let animation := addFrame animation f1 in
  off <- lift (digitalClockIterator (hours / 10) (Z.rem hours 10)
                 (minutes / 10) (Z.rem minutes 10) fg bg bg) ;;
  f2 <- newFrame 500 off ;;
  let animation := addFrame animation f2 in
  sendAnimation animation.

(** What the browser answers to [connect]: how many ports were granted
    before, whether the user picks one when asked, whether it opens. *)
Record Browser : Type := mkBrowser {
  grantedPorts : nat;
  requestPort : bool;
  openPort : bool
}.

(** [connect()].  The [try] block returns on a failure, after [port] may
    have been assigned; [readLoop] only logs what the device sends. *)
Definition connect (b : Browser) : M unit :=
  if (if (grantedPorts b =? 1)%nat then true else requestPort b) then
    set_port (Some tt) ;;
    if openPort b then
      emit [PortOpened] ;;
      set_outputDone (Some tt) ;;
      set_outputStream (Some tt) ;;
      writeToStream [""; "RST"; "VER"; "PWR"] ;;
      set_inputDone (Some tt) ;;
      set_inputStream (Some tt) ;;
      set_reader (Some tt)
    else ret tt
  else ret tt.

(** [clickConnect()]; the label of the button is not modelled. *)
Definition clickConnect (b : Browser) : M unit :=
  p <- get port ;;
  match p with
  | Some _ => disconnect
  | None =>
      connect b ;;
      ci <- get currentImage ;;
      match ci with
      | Some i => sendGifAnimation i
      | None => ret tt
      end
  end.

End Gif.

(** ** Second variant: static images through a canvas *)

Module Img.

Definition COLS : Z := 16.
Definition ROWS : Z := COLS.

(** An image element of the page: its own size, and the RGBA bytes that
    [getImageData(0, 0, COLS, ROWS)] returns once the image has been drawn
    at the origin of the 16x16 canvas. *)
Record img : Type := mkImg {
  naturalWidth : Z;
  naturalHeight : Z;
  imageData : list Z
}.

Definition Session : Type := Session img.
Definition M (A : Type) : Type := M img A.

(** The expression pushed on [pix] for the pixel at [offset]. *)
Definition pixelHex (table : list Num) (bitmap : list Z) (offset : Z) : string :=
  padStart_call
    (toString16
       (bor (bor (shl (index table (index bitmap (Some offset))) 16)
               (shl (index table (index bitmap (Some (offset + 1)))) 8))
          (ToInt32 (index table (index bitmap (Some (offset + 2)))))))
    (ANum 6) (AStr "0").

(** [sendImage(img)]. *)
Definition sendImage (i : img) : M unit :=
  let bitmap := imageData i in
  writeToStream ["ANM 600000"; "FRM 1000"] ;;
  forEach (upto ROWS) (fun r =>
    table <- get gammaTable ;;
    let pix := map (fun c => pixelHex table bitmap ((r * COLS + c) * 4)) (upto COLS) in
    writeToStream [("RGB " ++ toUpperCase (join pix))%string]) ;;
  writeToStream ["DON"; "NXT"].

(** The body of [ledCBs.forEach] in [sendGrid]; [i] and [px] are the
    captured variables, [cbs] the [checked] states still to visit. *)
Fixpoint sendGrid_loop (cbs : list bool) (i : Z) (px : list string) : M unit :=
  match cbs with
  | [] => ret tt
  | checked :: rest =>
      let px := px ++ [if checked then "FFFFFF" else "000000"] in
      let i := i + 1 in
      if Z.rem i COLS =? 0 then
        writeToStream [("RGB " ++ join px)%string] ;;
        sendGrid_loop rest i []
      else sendGrid_loop rest i px
  end.

(** [sendGrid()], with the [checked] states of the checkboxes [ledCBs]. *)
Definition sendGrid (ledCBs : list bool) : M unit :=
  writeToStream ["ANM 600000"; "FRM 1000"] ;;
  sendGrid_loop ledCBs 0 [] ;;
  writeToStream ["DON"; "NXT"].

Definition carriageReturnNewline : string :=
  String "013"%char (String "010"%char "").

(** The [transform] of this variant splits on a carriage return and a
    newline; the class is otherwise the one of the first variant. *)
Definition transform := transform_with carriageReturnNewline.

(** [updateGamma()], with the value of the slider. *)
Definition updateGamma (pow : float -> float -> float) (slider : float) : M unit :=
  let invGamma := (100 / slider)%float in
  set_gammaTable (gammaTableFor pow invGamma) ;;
  ci <- get currentImage ;;
  match ci with
  | Some i => sendImage i
  | None => ret tt
  end.

(** What [updateSliderDisplay] shows for the gamma slider. *)
Definition gammaDisplay (slider : float) : float := (slider / 100)%float.

(** One channel of the colour correction; the constant is 2.55. *)
Definition channelHex (slider : float) : string :=
  padStart_call
    (Num_toString16 (Math_round (0x1.4666666666666p+1 * slider)%float))
    (AStr "0") (ANum 2).

(** [updateColorCorrection()], with the values of the three sliders. *)
Definition updateColorCorrection (red green blue : float) : M unit :=
  writeToStream
    [("CLC " ++ toUpperCase (channelHex red ++ channelHex green ++ channelHex blue))%string].

End Img.

(** ** Vocabulary of the statements *)

Module Spec.

(** The events of writing [lines], each ended by a newline. *)
Definition sentLines (lines : list string) : list event :=
  map (fun line => Written (line ++ String "010"%char "")%string) lines.

(** The lines of one frame: [FRM], then one [RGB] line per row. *)
Definition frameLines (f : Gif.Frame) : list string :=
  ("FRM " ++ Number_toString (Gif.frame_duration f))%string
  :: map (fun row => ("RGB " ++ row)%string) (Gif.frame_rows f).

(** The lines of an animation: [ANM], the frames in order, [DON], [NXT]. *)
Definition animationLines (a : Gif.Animation) : list string :=
  [("ANM " ++ Number_toString (Gif.anim_duration a))%string]
  ++ flat_map frameLines (Gif.anim_frames a)
  ++ ["DON"; "NXT"].

(** The session that [disconnect] leaves: every handle it knows is cleared
    ([inputStream] is not assigned), and six events were added. *)
Definition disconnected (s : Gif.Session) : Gif.Session :=
  mkSession None None None None (inputStream s) None (gammaTable s)
    (currentImage s)
    (trace s
     ++ [Written ("RST" ++ Gif.newline)%string; ReaderCancelled; InputDoneCaught;
         WriterClosed; OutputDoneAwaited; PortClosed]).

(** [m] does not assign [gammaTable]. *)
Definition keepsTable {Img A : Type} (m : M Img A) : Prop :=
  forall s : Session Img, gammaTable (snd (m s)) = gammaTable s.

(** The Number that holds the natural number [n]. *)
Definition floatOfNat (n : nat) : float :=
  PrimFloat.of_uint63 (Uint63.of_Z (Z.of_nat n)).

(** The values that a counter takes when it starts at [c] and is
    incremented [n] times. *)
Fixpoint counters (n : nat) (c : float) : list float :=
  match n with
  | O => []
  | S k => c :: counters k (c + 1)%float
  end.

(** [s] contains [sep]. *)
Definition contains (sep s : string) : Prop :=
  exists a b : string, s = (a ++ sep ++ b)%string.

(** The element in row [r] and column [c] of an array of rows. *)
Definition at_ {A : Type} (g : list (list A)) (r c : nat) : option A :=
  match nth_error g r with
  | Some row => nth_error row c
  | None => None
  end.

(** An array of 16 rows of 16 elements. *)
Definition is16x16 {A : Type} (g : list (list A)) : Prop :=
  List.length g = 16%nat /\ Forall (fun row => List.length row = 16%nat) g.

(** The cells of the colon that light up: the two columns in the middle, in
    the glyph rows 1 and 3, which are the rows 6 and 8 of the grid. *)
Definition colonCell (r c : nat) : Prop :=
  (r = 6%nat \/ r = 8%nat) /\ (c = 7%nat \/ c = 8%nat).

(** [pixels[i][j]]. *)
Definition cellAt (g : Gif.grid) (i j : Z) : option Gif.cell :=
  match index g (Some i) with
  | Some row => index row (Some j)
  | None => None
  end.

(** The cell (i, j) lies in the rectangle of the patch. *)
Definition inPatch (d : Gif.Dims) (i j : Z) : Prop :=
  Gif.top d <= i < Gif.top d + Gif.height d
  /\ Gif.left d <= j < Gif.left d + Gif.width d.

(** The rectangle of the patch lies in the 16x16 grid. *)
Definition fits (d : Gif.Dims) : Prop :=
  0 <= Gif.top d /\ Gif.top d + Gif.height d <= 16
  /\ 0 <= Gif.left d /\ Gif.left d + Gif.width d <= 16.

(** The pixel of the patch that lands on the cell (i, j). *)
Definition patchPixel (f : Gif.GifFrame) (i j : Z) : Gif.cell :=
  let offset :=
    ((i - Gif.top (Gif.dims f)) * Gif.width (Gif.dims f)
     + (j - Gif.left (Gif.dims f))) * 4 in
  Gif.Rgb (index (Gif.patch f) (Some offset))
    (index (Gif.patch f) (Some (offset + 1)))
    (index (Gif.patch f) (Some (offset + 2))).

(** A grid of RGB triples as the pixel array that holds it. *)
Definition rgbGrid (px : list (list (Z * Z * Z))) : Gif.grid :=
  map (map (fun '(r, g, b) => Gif.Rgb (Some r) (Some g) (Some b))) px.

Definition isByte (z : Z) : Prop := 0 <= z <= 255.

Definition isPixel (p : Z * Z * Z) : Prop :=
  let '(r, g, b) := p in isByte r /\ isByte g /\ isByte b.

(** The value of an uppercase hexadecimal digit. *)
Definition upperHexDigit (c : ascii) : option Z :=
  let n := nat_of_ascii c in
  if ((48 <=? n) && (n <=? 57))%nat then Some (Z.of_nat (n - 48))
  else if ((65 <=? n) && (n <=? 70))%nat then Some (Z.of_nat (n - 55))
  else None.

(** The number that a string of uppercase hexadecimal digits writes, read
    after the digits [acc]; [None] when another character occurs. *)
Fixpoint hexValue (acc : Z) (s : string) : option Z :=
  match s with
  | EmptyString => Some acc
  | String c r =>
      match upperHexDigit c with
      | Some d => hexValue (16 * acc + d) r
      | None => None
      end
  end.

Fixpoint allUpperHex (s : string) : bool :=
  match s with
  | EmptyString => true
  | String c r =>
      match upperHexDigit c with
      | Some _ => allUpperHex r
      | None => false
      end
  end.

(** Two bytes read from arrays are the same, [undefined] included. *)
Definition sameByte (a b : option Z) : bool :=
  match a, b with
  | Some x, Some y => x =? y
  | None, None => true
  | _, _ => false
  end.

(** The colour bytes of the 256 pixels agree in two byte arrays. *)
Definition sameColours (b1 b2 : list Z) : bool :=
  forallb (fun k =>
             forallb (fun d =>
                        sameByte (index b1 (Some (k * 4 + d)))
                          (index b2 (Some (k * 4 + d))))
               (upto 3))
    (upto 256).

(** The patch covers the whole 16x16 screen. *)
Definition covers (d : Gif.Dims) : Prop :=
  Gif.top d = 0 /\ Gif.left d = 0 /\ Gif.width d = 16 /\ Gif.height d = 16.

(** Some cell of the 16x16 screen lies outside the patch. *)
Definition leavesGap (d : Gif.Dims) : Prop :=
  exists i j : Z, 0 <= i < 16 /\ 0 <= j < 16 /\ ~ inPatch d i j.

(** The 16x16 grid that holds the pixels of the patch and nothing else. *)
Definition patchGrid (f : Gif.GifFrame) : Gif.grid :=
  map (fun i => map (fun j => patchPixel f i j) (upto 16)) (upto 16).

(** The duration of the frame made from a GIF frame. *)
Definition frameDelay (f : Gif.GifFrame) : Z :=
  match Gif.delay f with
  | Some d => d
  | None => 1000
  end.

(** The patch has a pixel in a row that the screen does not have. *)
Definition leavesScreen (d : Gif.Dims) : Prop :=
  0 < Gif.width d
  /\ exists r : Z, 0 <= r < Gif.height d /\ ~ 0 <= r + Gif.top d < 16.

(** The browser hands a port to [connect]. *)
Definition handsPort (b : Gif.Browser) : Prop :=
  Gif.grantedPorts b = 1%nat \/ Gif.requestPort b = true.

(** The session with the port handle set and nothing else changed. *)
Definition withPort (s : Gif.Session) : Gif.Session :=
  mkSession (Some tt) (reader s) (inputDone s) (outputDone s) (inputStream s)
    (outputStream s) (gammaTable s) (currentImage s) (trace s).

(** The session that a successful [connect] leaves. *)
Definition opened (s : Gif.Session) : Gif.Session :=
  mkSession (Some tt) (Some tt) (Some tt) (Some tt) (Some tt) (Some tt)
    (gammaTable s) (currentImage s)
    (trace s
     ++ [PortOpened; Written Gif.newline; Written ("RST" ++ Gif.newline)%string;
         Written ("VER" ++ Gif.newline)%string;
         Written ("PWR" ++ Gif.newline)%string]).

(** The slider positions 0 to 100, as Numbers. *)
Definition positions : list float := map floatOfNat (seq 0 101).

(** The gamma stays in the configured range at every slider position,
    and grows with the position. *)
Definition gammaInRange : bool :=
  forallb (fun v => (Gif.MIN_GAMMA <=? Gif.gammaValueFromSlider v)%float
                    && (Gif.gammaValueFromSlider v <=? Gif.MAX_GAMMA)%float)
    positions.

Definition gammaGrows : bool :=
  forallb (fun n =>
             forallb (fun m =>
                        negb (n <? m)%nat
                        || (Gif.gammaValueFromSlider (floatOfNat n)
                            <? Gif.gammaValueFromSlider (floatOfNat m))%float)
               (seq 0 101))
    (seq 0 101).

(** One channel of the colour correction has one digit below the slider
    position 7 and two from there on, in hexadecimal digits throughout. *)
Definition channelDigits : bool :=
  forallb (fun n =>
             (String.length (Img.channelHex (floatOfNat n))
              =? (if n <? 7 then 1 else 2))%nat
             && allUpperHex (toUpperCase (Img.channelHex (floatOfNat n))))
    (seq 0 101).

(** Every glyph has five rows of three bits. *)
Definition glyphsComplete : bool :=
  forallb (fun d =>
             forallb (fun row =>
                        match Gif.glyphRow d row with
                        | Normal (Some [_; _; _]) => true
                        | _ => false
                        end)
               (upto 5))
    (upto 10).

(** The colour of a bit of a glyph. *)
Definition paint {A : Type} (fg bg : A) (b : Z) : A :=
  if b =? 0 then bg else fg.

(** A decimal digit. *)
Definition isDigit (d : Z) : Prop := 0 <= d <= 9.

(** Seven cells in the foreground or background colour: what a row of the
    clock holds on either side of the colon. *)
Definition side {A : Type} (fg bg : A) (l : list A) : Prop :=
  List.length l = 7%nat /\ Forall (fun x => x = fg \/ x = bg) l.

(** A cell that the encoder can destructure. *)
Definition isTriple (c : Gif.cell) : bool :=
  match c with
  | Gif.Rgb _ _ _ => true
  | Gif.Hole | Gif.Zero => false
  end.

(** The 16x16 pixels that an RGBA byte array holds, row by row. *)
Definition bitmapGrid (bitmap : list Z) : Gif.grid :=
  map (fun r =>
         map (fun c =>
                let offset := (r * 16 + c) * 4 in
                Gif.Rgb (index bitmap (Some offset))
                  (index bitmap (Some (offset + 1)))
                  (index bitmap (Some (offset + 2))))
           (upto 16))
    (upto 16).

(** The first [n] groups of 16 elements of a list. *)
Fixpoint groups16 {A : Type} (n : nat) (l : list A) : list (list A) :=
  match n with
  | O => []
  | S k => firstn 16 l :: groups16 k (skipn 16 l)
  end.

(** The [RGB] line of 16 checkboxes. *)
Definition checkboxLine (group : list bool) : string :=
  ("RGB "
   ++ join (map (fun checked : bool => if checked then "FFFFFF" else "000000")
              group))%string.





End Spec.

(** ** The exact value of a binary64 number *)

Module Binary64.








End Binary64.

(** ** Sample inputs *)

Module Examples.

(** The gamma table that maps every byte to itself. *)
Definition identityTable : list Num := map Int (upto 256).

(** The session when the page has loaded. *)
Definition loaded : Gif.Session :=
  mkSession None None None None None None identityTable None [].

(** A browser with one granted port that opens. *)
Definition browser : Gif.Browser := Gif.mkBrowser 1 false true.

(** The session once [connect] has run. *)
Definition connected : Gif.Session := snd (Gif.connect browser loaded).

(** A session of the second variant with the port open. *)
Definition connectedImg : Img.Session :=
  mkSession (Some tt) (Some tt) (Some tt) (Some tt) (Some tt) (Some tt)
    identityTable None [].

(** An image of 8 by 8 pixels; read back from the canvas it is black. *)
Definition smallImage : Img.img := Img.mkImg 8 8 (repeat 0 1024).

(** The [**] of a host at the two exponents that the examples use: the
    square as the IEEE product, the square root as the IEEE square root. *)
Definition pow_sample (x y : float) : float :=
  if (y =? 2)%float then (x * x)%float
  else if (y =? 0.5)%float then PrimFloat.sqrt x
  else 1%float.

(** A black image of 16 by 16 pixels that is opaque, where [smallImage]
    reads back transparent. *)
Definition opaqueImage : Img.img :=
  Img.mkImg 16 16 (flat_map (fun _ => [0; 0; 0; 255]) (seq 0 256)).

(** A GIF of two frames that both paint the whole screen; the second has
    no delay of its own. *)
Definition fullGif : Gif.ParsedGif :=
  Gif.mkParsedGif 16 16
    (Some [Gif.mkGifFrame (Gif.mkDims 0 0 16 16) (repeat 255 1024) (Some 100);
           Gif.mkGifFrame (Gif.mkDims 0 0 16 16) (repeat 0 1024) None]).

(** A GIF whose only frame starts one row above the bottom of the screen
    and is two rows high. *)
Definition tallGif : Gif.ParsedGif :=
  Gif.mkParsedGif 16 16
    (Some [Gif.mkGifFrame (Gif.mkDims 15 0 16 2) (repeat 255 128) (Some 100)]).

(** A GIF of two frames: a patch that paints the whole screen white, then
    a patch of one red pixel in the top left corner. *)
Definition whiteFrame : Gif.GifFrame :=
  Gif.mkGifFrame (Gif.mkDims 0 0 16 16) (repeat 255 1024) (Some 100).

Definition redDot : Gif.GifFrame :=
  Gif.mkGifFrame (Gif.mkDims 0 0 1 1) [255; 0; 0; 255] (Some 100).

Definition twoFrames : Gif.img :=
  Gif.mkImg (Some (Gif.mkParsedGif 16 16 (Some [whiteFrame; redDot]))).

Definition white : Gif.cell := Gif.Rgb (Some 255) (Some 255) (Some 255).
Definition black : Gif.cell := Gif.Rgb (Some 0) (Some 0) (Some 0).
Definition blue : Gif.cell := Gif.Rgb (Some 0) (Some 0) (Some 255).

(** A GIF that declares a screen of 32 by 16 pixels. *)
Definition wideGif : Gif.ParsedGif := Gif.mkParsedGif 32 16 (Some [whiteFrame]).

(** An animation of one white frame, encoded. *)
Definition whiteAnimation : Gif.Animation :=
  Gif.mkAnimation 600000
    [Gif.mkFrame 1000 (repeat (join (repeat "FFFFFF" 16)) 16)].

(** The gamma table that maps every byte to itself, as integers. *)
Definition identityBytes : list Z := upto 256.

(** A grid filled with the pixel (255, 128, 0). *)
Definition orangeGrid : list (list (Z * Z * Z)) :=
  repeat (repeat (255, 128, 0) 16) 16.

(** Three lines that the device answers, and the chunks in which their
    text arrives. *)
Definition reply : list string := ["OK"; "v1.0"; ""].

Definition replyChunks : list string :=
  ["O"; ("K" ++ Gif.newline ++ "v1")%string; (".0" ++ Gif.newline)%string].


End Examples.

(** * Properties *)

(** ** Strings *)

Section StringFacts.

Lemma append_nil_r (s : string) : (s ++ "")%string = s.
Proof. induction s as [|c s IH]; simpl; [reflexivity | now rewrite IH]. Qed.

Lemma append_assoc (a b c : string) :
  ((a ++ b) ++ c)%string = (a ++ (b ++ c))%string.
Proof. induction a as [|x a IH]; simpl; [reflexivity | now rewrite IH]. Qed.

Lemma length_append (a b : string) :
  String.length (a ++ b) = (String.length a + String.length b)%nat.
Proof. induction a as [|x a IH]; simpl; [reflexivity | now rewrite IH]. Qed.

Lemma toUpperCase_append (a b : string) :
  toUpperCase (a ++ b) = (toUpperCase a ++ toUpperCase b)%string.
Proof. induction a as [|x a IH]; simpl; [reflexivity | now rewrite IH]. Qed.

Lemma length_toUpperCase (a : string) :
  String.length (toUpperCase a) = String.length a.
Proof. induction a as [|x a IH]; simpl; [reflexivity | now rewrite IH]. Qed.

End StringFacts.

(** ** The session monad *)

Section MonadFacts.

Context {Img : Type}.

Implicit Types s : Session Img.

Lemma logged_nil s : logged s [] = s.
Proof. destruct s; unfold logged; simpl; now rewrite app_nil_r. Qed.

Lemma logged_logged s (a b : list event) :
  logged (logged s a) b = logged s (a ++ b).
Proof. unfold logged; simpl; now rewrite app_assoc. Qed.

Lemma bind_normal {A B : Type} (m : M Img A) (k : A -> M Img B) s a s1 :
  m s = (Normal a, s1) -> bind m k s = k a s1.
Proof. intros H; unfold bind; now rewrite H. Qed.

Lemma bind_throw {A B : Type} (m : M Img A) (k : A -> M Img B) s e s1 :
  m s = (Throw e, s1) -> bind m k s = (Throw e, s1).
Proof. intros H; unfold bind; now rewrite H. Qed.

Lemma forEach_emit (lines : list string) s :
  forEach lines
    (fun line => emit [Written (line ++ String "010"%char "")%string]) s
  = (Normal tt, logged s (Spec.sentLines lines)).
Proof.
  revert s; induction lines as [|l lines IH]; intros s; simpl.
  - now rewrite logged_nil.
  - unfold bind at 1; simpl. rewrite IH, logged_logged. reflexivity.
Qed.

Lemma writeToStream_open (lines : list string) s :
  outputStream s <> None ->
  writeToStream lines s = (Normal tt, logged s (Spec.sentLines lines)).
Proof.
  intros H. unfold writeToStream, deref, bind, get.
  destruct (outputStream s) eqn:E; [|congruence].
  simpl. apply forEach_emit.
Qed.

Lemma writeToStream_closed (lines : list string) s :
  outputStream s = None -> writeToStream lines s = (Throw TypeError, s).
Proof.
  intros H. unfold writeToStream, deref, bind, get. now rewrite H.
Qed.

Lemma sentLines_app (a b : list string) :
  Spec.sentLines (a ++ b) = Spec.sentLines a ++ Spec.sentLines b.
Proof. apply map_app. Qed.

Lemma written_app (a b : list event) : written (a ++ b) = written a ++ written b.
Proof.
  induction a as [|e a IH]; simpl; [reflexivity|].
  destruct e; simpl; now rewrite ?IH.
Qed.

Lemma written_sentLines (lines : list string) :
  written (Spec.sentLines lines)
  = map (fun line => (line ++ String "010"%char "")%string) lines.
Proof. induction lines as [|l lines IH]; simpl; [reflexivity | now rewrite IH]. Qed.

End MonadFacts.

(** ** Sending an animation *)

Section SendAnimation.

Import Gif.

Implicit Types s : Gif.Session.

Lemma forEach_rows (rows : list string) s :
  outputStream s <> None ->
  forEach rows (fun row => writeToStream [("RGB " ++ row)%string]) s
  = (Normal tt,
     logged s (Spec.sentLines (map (fun row => ("RGB " ++ row)%string) rows))).
Proof.
  revert s; induction rows as [|r rows IH]; intros s Hs; simpl.
  - now rewrite logged_nil.
  - erewrite bind_normal by (apply writeToStream_open; exact Hs).
    rewrite IH by exact Hs. now rewrite logged_logged.
Qed.

Lemma forEach_frames (fs : list Frame) s :
  outputStream s <> None ->
  forEach fs (fun frame =>
    writeToStream [("FRM " ++ Number_toString (frame_duration frame))%string] ;;
    forEach (frame_rows frame) (fun row =>
      writeToStream [("RGB " ++ row)%string])) s
  = (Normal tt, logged s (Spec.sentLines (flat_map Spec.frameLines fs))).
Proof.
  revert s; induction fs as [|f fs IH]; intros s Hs; simpl.
  - now rewrite logged_nil.
  - erewrite bind_normal.
    2:{ erewrite bind_normal by (apply writeToStream_open; exact Hs).
        apply forEach_rows. exact Hs. }
    rewrite IH by exact Hs.
    rewrite !logged_logged, sentLines_app. reflexivity.
Qed.

Lemma sendAnimation_open (anim : Animation) s :
  outputStream s <> None ->
  sendAnimation anim s
  = (Normal tt, logged s (Spec.sentLines (Spec.animationLines anim))).
Proof.
  intros Hs. unfold sendAnimation.
  erewrite bind_normal by (apply writeToStream_open; exact Hs).
  erewrite bind_normal by (apply forEach_frames; exact Hs).
  rewrite writeToStream_open by exact Hs.
  rewrite !logged_logged. unfold Spec.animationLines.
  rewrite !sentLines_app. reflexivity.
Qed.

(** The scenario of one all-white frame of 1000 ms in an animation held for
    600000 ms: the twenty lines on the wire. *)
Example white_animation_on_the_wire :
  let white := repeat (repeat Examples.white 16) 16 in
  let send :=
    f <- newFrame 1000 white ;;
    sendAnimation (addFrame (Animation_new 600000) f) in
  written (trace (snd (send Examples.loaded))) = []
  /\ written (trace (snd (send
        (mkSession (Some tt) None None None None (Some tt)
           Examples.identityTable None []))))
     = map (fun l => (l ++ newline)%string)
         (["ANM 600000"; "FRM 1000"]
          ++ repeat ("RGB " ++ join (repeat "FFFFFF" 16))%string 16
          ++ ["DON"; "NXT"]).
Proof. split; vm_compute; reflexivity. Qed.

Lemma length_frameLines (fs : list Frame) :
  Forall (fun f => List.length (frame_rows f) = 16%nat) fs ->
  List.length (flat_map Spec.frameLines fs) = (List.length fs * (1 + 16))%nat.
Proof.
  induction 1 as [|f fs Hf _ IH]; simpl; [reflexivity|].
  rewrite length_app, length_map, Hf, IH. reflexivity.
Qed.

(** C1.  Sending an animation of F >= 1 frames of 16 rows each, with the
    output stream open, writes exactly 1 + F*(1+16) + 2 newline-terminated
    lines and nothing else: [ANM <duration>], then for each frame in
    insertion order [FRM <duration>] and its 16 [RGB <row>] lines from top to
    bottom, then [DON], then [NXT]. *)
Theorem sendAnimation_writes_the_animation_in_order (anim : Animation) s :
  outputStream s <> None ->
  (1 <= List.length (anim_frames anim))%nat ->
  Forall (fun f => List.length (frame_rows f) = 16%nat) (anim_frames anim) ->
  sendAnimation anim s
  = (Normal tt, logged s (Spec.sentLines (Spec.animationLines anim)))
  /\ trace (logged s (Spec.sentLines (Spec.animationLines anim)))
     = trace s
       ++ map (fun line => Written (line ++ String "010"%char "")%string)
            ([("ANM " ++ Number_toString (anim_duration anim))%string]
             ++ flat_map
                  (fun f =>
                     ("FRM " ++ Number_toString (frame_duration f))%string
                     :: map (fun row => ("RGB " ++ row)%string) (frame_rows f))
                  (anim_frames anim)
             ++ ["DON"; "NXT"])
  /\ List.length (Spec.animationLines anim)
     = (1 + List.length (anim_frames anim) * (1 + 16) + 2)%nat.
Proof.
  intros Hs _ Hrows. split; [|split].
  - apply sendAnimation_open; exact Hs.
  - reflexivity.
  - unfold Spec.animationLines.
    rewrite !length_app, length_frameLines by exact Hrows. simpl. lia.
Qed.

End SendAnimation.

(** ** Hexadecimal output *)

Section HexFacts.

Lemma hexValue_append (acc : Z) (a b : string) :
  Spec.hexValue acc (a ++ b)
  = match Spec.hexValue acc a with
    | Some x => Spec.hexValue x b
    | None => None
    end.
Proof.
  revert acc; induction a as [|c a IH]; intros acc; simpl; [reflexivity|].
  destruct (Spec.upperHexDigit c); [apply IH | reflexivity].
Qed.

Lemma allUpperHex_append (a b : string) :
  Spec.allUpperHex (a ++ b) = Spec.allUpperHex a && Spec.allUpperHex b.
Proof.
  induction a as [|c a IH]; simpl; [reflexivity|].
  destruct (Spec.upperHexDigit c); [apply IH | reflexivity].
Qed.

Lemma hexValue_allUpperHex (s : string) (acc v : Z) :
  Spec.hexValue acc s = Some v -> Spec.allUpperHex s = true.
Proof.
  revert acc; induction s as [|c s IH]; intros acc; simpl; [reflexivity|].
  destruct (Spec.upperHexDigit c); [apply IH | discriminate].
Qed.

Lemma upcase_hexDigit (d : Z) :
  0 <= d < 16 -> Spec.upperHexDigit (upcase (hexDigit d)) = Some d.
Proof.
  intros H.
  assert (E : d = 0 \/ d = 1 \/ d = 2 \/ d = 3 \/ d = 4 \/ d = 5 \/ d = 6
              \/ d = 7 \/ d = 8 \/ d = 9 \/ d = 10 \/ d = 11 \/ d = 12
              \/ d = 13 \/ d = 14 \/ d = 15) by lia.
  repeat (destruct E as [->|E]; [reflexivity|]). subst d. reflexivity.
Qed.

Lemma digits16_value (fuel : nat) (n : Z) :
  0 <= n < 16 ^ Z.of_nat fuel ->
  Spec.hexValue 0 (toUpperCase (digits16 fuel n)) = Some n.
Proof.
  revert n; induction fuel as [|k IH]; intros n Hn.
  - change (16 ^ Z.of_nat 0) with 1 in Hn. simpl. f_equal. lia.
  - cbn [digits16]. destruct (n <? 16) eqn:E.
    + apply Z.ltb_lt in E. cbn [toUpperCase Spec.hexValue].
      rewrite upcase_hexDigit by lia. cbn [Spec.hexValue]. f_equal; lia.
    + apply Z.ltb_ge in E.
      rewrite toUpperCase_append, hexValue_append.
      rewrite IH.
      * cbn [toUpperCase Spec.hexValue].
        rewrite upcase_hexDigit by (apply Z.mod_pos_bound; lia).
        cbn [Spec.hexValue]. f_equal. pose proof (Z.div_mod n 16). lia.
      * split; [apply Z.div_pos; lia|].
        apply Z.div_lt_upper_bound; [lia|].
        rewrite Nat2Z.inj_succ, Z.pow_succ_r in Hn by lia. lia.
Qed.

Lemma digits16_length (fuel : nat) (n : Z) (k : nat) :
  0 <= n < 16 ^ Z.of_nat k -> (1 <= k)%nat ->
  (String.length (digits16 fuel n) <= k)%nat.
Proof.
  revert n k; induction fuel as [|f IH]; intros n k Hn Hk; simpl; [lia|].
  destruct (n <? 16) eqn:E; simpl; [lia|].
  apply Z.ltb_ge in E.
  destruct k as [|k]; [lia|].
  rewrite length_append. simpl.
  assert (Hdiv : 0 <= n / 16 < 16 ^ Z.of_nat k).
  { split; [apply Z.div_pos; lia|].
    apply Z.div_lt_upper_bound; [lia|].
    rewrite Nat2Z.inj_succ, Z.pow_succ_r in Hn by lia. lia. }
  assert (1 <= k)%nat.
  { destruct k; [|lia]. simpl in Hdiv.
    assert (1 <= n / 16) by (apply Z.div_le_lower_bound; lia). lia. }
  specialize (IH (n / 16) k Hdiv H). lia.
Qed.

Lemma enough_fuel (n : Z) :
  0 <= n -> n < 16 ^ Z.of_nat (S (Z.to_nat (Z.log2 n))).
Proof.
  intros Hn.
  rewrite Nat2Z.inj_succ, Z2Nat.id by apply Z.log2_nonneg.
  destruct (Z.eq_dec n 0) as [->|Hne]; [reflexivity|].
  pose proof (Z.log2_spec n ltac:(lia)) as [_ Hlt].
  eapply Z.lt_le_trans; [exact Hlt|].
  apply Z.pow_le_mono_l. lia.
Qed.

Lemma filler_zeros (n : nat) (s : string) :
  Spec.hexValue 0 (filler n "" "0" ++ s) = Spec.hexValue 0 s.
Proof. induction n as [|n IH]; simpl; [reflexivity | exact IH]. Qed.

Lemma length_filler_zeros (n : nat) : String.length (filler n "" "0") = n.
Proof. induction n as [|n IH]; simpl; [reflexivity | now rewrite IH]. Qed.

Lemma toUpperCase_filler_zeros (n : nat) :
  toUpperCase (filler n "" "0") = filler n "" "0".
Proof. induction n as [|n IH]; simpl; [reflexivity | now rewrite IH]. Qed.

(** [paddedHex] writes a number below [16^width] on exactly [width]
    uppercase hexadecimal digits. *)
Lemma paddedHex_spec (v : Z) (width : nat) :
  0 <= v < 16 ^ Z.of_nat width -> (1 <= width)%nat ->
  String.length (Gif.paddedHex v (Z.of_nat width)) = width
  /\ Spec.hexValue 0 (Gif.paddedHex v (Z.of_nat width)) = Some v.
Proof.
  intros Hv Hw.
  unfold Gif.paddedHex, padStart_call, ToLength, ToString, padStart, toString16.
  rewrite Nat2Z.id.
  replace (v <? 0) with false by (symmetry; apply Z.ltb_ge; lia).
  set (d := digits16 _ v).
  assert (Hlen : (String.length d <= width)%nat)
    by (apply digits16_length; assumption).
  assert (Hval : Spec.hexValue 0 (toUpperCase d) = Some v).
  { apply digits16_value. split; [lia | apply enough_fuel; lia]. }
  destruct (width <=? String.length d)%nat eqn:E.
  - apply Nat.leb_le in E. rewrite length_toUpperCase. split; [lia | exact Hval].
  - apply Nat.leb_gt in E.
    rewrite toUpperCase_append, toUpperCase_filler_zeros.
    rewrite length_append, length_filler_zeros, length_toUpperCase, filler_zeros.
    split; [lia | exact Hval].
Qed.

End HexFacts.

(** ** Encoding a frame *)

Section FrameFacts.

Import Gif.

Lemma wrap32_small (z : Z) : - 2 ^ 31 <= z < 2 ^ 31 -> wrap32 z = z.
Proof. intros H. unfold wrap32. rewrite Z.mod_small; lia. Qed.

Lemma lor_below (a b n : Z) :
  0 <= n -> 0 <= a < 2 ^ n -> 0 <= b < 2 ^ n -> 0 <= Z.lor a b < 2 ^ n.
Proof.
  intros Hn Ha Hb. split; [apply Z.lor_nonneg; lia|].
  destruct (Z.eq_dec a 0) as [->|Ha0]; [rewrite Z.lor_0_l; lia|].
  destruct (Z.eq_dec b 0) as [->|Hb0]; [rewrite Z.lor_0_r; lia|].
  assert (Hpos : 0 < Z.lor a b).
  { assert (0 <= Z.lor a b) by (apply Z.lor_nonneg; lia).
    assert (Z.lor a b <> 0) by (rewrite Z.lor_eq_0_iff; lia). lia. }
  apply Z.log2_lt_pow2; [exact Hpos|].
  rewrite Z.log2_lor by lia.
  apply Z.max_lub_lt; apply Z.log2_lt_pow2; lia.
Qed.

Lemma index_table (gt : list Z) (r : Z) :
  0 <= r < Z.of_nat (List.length gt) ->
  index (map Int gt) (Some r) = Some (Int (nth (Z.to_nat r) gt 0)).
Proof.
  intros H. unfold index.
  replace (r <? 0) with false by (symmetry; apply Z.ltb_ge; lia).
  rewrite nth_error_map.
  rewrite (nth_error_nth' gt 0) by lia. reflexivity.
Qed.

Lemma nth_byte (gt : list Z) (n : nat) :
  Forall Spec.isByte gt -> (n < List.length gt)%nat -> Spec.isByte (nth n gt 0).
Proof.
  intros Hall Hn. rewrite Forall_forall in Hall. apply Hall, nth_In, Hn.
Qed.

(** The three operands of the encoder, on bytes: no wrap-around happens. *)
Lemma packed_bytes (x y z : Z) :
  Spec.isByte x -> Spec.isByte y -> Spec.isByte z ->
  bor (bor (shl (Some (Int x)) 16) (shl (Some (Int y)) 8)) (ToInt32 (Some (Int z)))
  = Z.lor (Z.lor (Z.shiftl x 16) (Z.shiftl y 8)) z
  /\ 0 <= Z.lor (Z.lor (Z.shiftl x 16) (Z.shiftl y 8)) z < 16 ^ 6.
Proof.
  unfold Spec.isByte. intros Hx Hy Hz.
  assert (Hsx : Z.shiftl x 16 = x * 65536) by (rewrite Z.shiftl_mul_pow2; lia).
  assert (Hsy : Z.shiftl y 8 = y * 256) by (rewrite Z.shiftl_mul_pow2; lia).
  unfold bor, shl, ToInt32.
  change (Z.land 16 31) with 16. change (Z.land 8 31) with 8.
  rewrite !(wrap32_small x), !(wrap32_small y), !(wrap32_small z) by lia.
  rewrite (wrap32_small (Z.shiftl x 16)), (wrap32_small (Z.shiftl y 8)) by lia.
  split; [reflexivity|].
  change (16 ^ 6) with (2 ^ 24).
  apply lor_below; [lia | | lia].
  apply lor_below; lia.
Qed.

Lemma mapC_normal {A B : Type} (f : A -> completion B) (g : A -> B) (l : list A) :
  Forall (fun a => f a = Normal (g a)) l -> mapC f l = Normal (map g l).
Proof.
  induction 1 as [|a l Ha _ IH]; simpl; [reflexivity|].
  rewrite Ha. simpl. rewrite IH. reflexivity.
Qed.

Lemma length_join (groups : list string) (n : nat) :
  Forall (fun g => String.length g = n) groups ->
  String.length (join groups) = (n * List.length groups)%nat.
Proof.
  induction 1 as [|g gs Hg _ IH]; simpl; [lia|].
  rewrite length_append, Hg, IH. lia.
Qed.

Lemma allUpperHex_join (groups : list string) :
  Forall (fun g => Spec.allUpperHex g = true) groups ->
  Spec.allUpperHex (join groups) = true.
Proof.
  induction 1 as [|g gs Hg _ IH]; simpl; [reflexivity|].
  now rewrite allUpperHex_append, Hg, IH.
Qed.

Lemma substring_append_skip (a b : string) (m k : nat) :
  substring (String.length a + m) k (a ++ b) = substring m k b.
Proof. induction a as [|c a IH]; simpl; [reflexivity | exact IH]. Qed.

Lemma substring_append_take (a b : string) :
  substring 0 (String.length a) (a ++ b) = a.
Proof.
  induction a as [|c a IH]; simpl.
  - destruct b; reflexivity.
  - now rewrite IH.
Qed.

(** The group of the pixel in column [c] sits at offset [n * c]. *)
Lemma substring_join (groups : list string) (n c : nat) (g : string) :
  Forall (fun g => String.length g = n) groups ->
  nth_error groups c = Some g ->
  substring (n * c) n (join groups) = g.
Proof.
  intros Hall. revert c. induction Hall as [|x gs Hx _ IH]; intros c Hc.
  - destruct c; discriminate.
  - destruct c as [|c]; simpl in Hc.
    + injection Hc as ->. rewrite Nat.mul_0_r. simpl join.
      rewrite <- Hx at 1. apply substring_append_take.
    + simpl join. replace (n * S c)%nat with (String.length x + n * c)%nat by lia.
      rewrite substring_append_skip. apply IH, Hc.
Qed.

Lemma mapC_map {A B C : Type} (f : B -> completion C) (h : A -> B)
  (g : A -> C) (l : list A) :
  Forall (fun a => f (h a) = Normal (g a)) l ->
  mapC f (map h l) = Normal (map g l).
Proof.
  induction 1 as [|a l Ha _ IH]; simpl; [reflexivity|].
  rewrite Ha. simpl. rewrite IH. reflexivity.
Qed.

Section Table.

Variable gt : list Z.
Hypothesis gt_length : List.length gt = 256%nat.
Hypothesis gt_bytes : Forall Spec.isByte gt.

(** The number that the group of a pixel writes. *)
Let packed (p : Z * Z * Z) : Z :=
  let '(r, g, b) := p in
  Z.lor (Z.lor (Z.shiftl (nth (Z.to_nat r) gt 0) 16)
           (Z.shiftl (nth (Z.to_nat g) gt 0) 8))
    (nth (Z.to_nat b) gt 0).

Let toCell (p : Z * Z * Z) : cell :=
  let '(r, g, b) := p in Rgb (Some r) (Some g) (Some b).

Lemma encodePixel_bytes (p : Z * Z * Z) :
  Spec.isPixel p ->
  encodePixel (map Int gt) (toCell p) = Normal (paddedHex (packed p) 6)
  /\ 0 <= packed p < 16 ^ 6.
Proof.
  destruct p as [[r g] b]. unfold Spec.isPixel, Spec.isByte. intros (Hr & Hg & Hb).
  unfold toCell, packed, encodePixel.
  rewrite !index_table by (rewrite gt_length; lia).
  destruct (packed_bytes (nth (Z.to_nat r) gt 0) (nth (Z.to_nat g) gt 0)
              (nth (Z.to_nat b) gt 0)) as [E B];
    try (apply nth_byte; [exact gt_bytes | rewrite gt_length; lia]).
  rewrite E. split; [reflexivity | exact B].
Qed.

Lemma encodeRow_bytes (row : list (Z * Z * Z)) :
  Forall Spec.isPixel row ->
  encodeRow (map Int gt) (map toCell row)
  = Normal (join (map (fun p => paddedHex (packed p) 6) row)).
Proof.
  intros H. unfold encodeRow.
  rewrite (mapC_map _ toCell (fun p => paddedHex (packed p) 6)); [reflexivity|].
  eapply Forall_impl; [|exact H]. intros p Hp. apply encodePixel_bytes, Hp.
Qed.

(** C2.  For a 16x16 grid of RGB triples with every channel in [0,255] and a
    gamma table of 256 entries in [0,255], the frame is built without error
    and has exactly 16 row strings; each row is exactly 96 characters of
    uppercase hexadecimal, and the 6 characters of the pixel (R,G,B) in
    column [c] are the 6-digit zero-padded uppercase hexadecimal writing of
    gammaTable[R]<<16 | gammaTable[G]<<8 | gammaTable[B]. *)
Theorem Frame_rows_are_the_padded_hex_of_the_pixels
  (ms : Z) (px : list (list (Z * Z * Z))) :
  List.length px = 16%nat ->
  Forall (fun row => List.length row = 16%nat /\ Forall Spec.isPixel row) px ->
  exists rows : list string,
    Frame_new (map Int gt) ms (Spec.rgbGrid px) = Normal (mkFrame ms rows)
    /\ List.length rows = 16%nat
    /\ forall (i : nat) (row : list (Z * Z * Z)) (line : string),
         nth_error px i = Some row ->
         nth_error rows i = Some line ->
         String.length line = 96%nat
         /\ Spec.allUpperHex line = true
         /\ forall (c : nat) (r g b : Z),
              nth_error row c = Some (r, g, b) ->
              String.length (substring (6 * c) 6 line) = 6%nat
              /\ Spec.hexValue 0 (substring (6 * c) 6 line)
                 = Some (Z.lor
                           (Z.lor (Z.shiftl (nth (Z.to_nat r) gt 0) 16)
                              (Z.shiftl (nth (Z.to_nat g) gt 0) 8))
                           (nth (Z.to_nat b) gt 0)).
Proof.
  intros Hlen Hrows.
  set (enc := fun row : list (Z * Z * Z) =>
                join (map (fun p => paddedHex (packed p) 6) row)).
  exists (map enc px). split; [|split].
  - unfold Frame_new, Spec.rgbGrid.
    rewrite (mapC_map _ (map toCell) enc); [reflexivity|].
    eapply Forall_impl; [|exact Hrows]. intros row [_ Hrow].
    apply encodeRow_bytes, Hrow.
  - now rewrite length_map.
  - intros i row line Hi Hline.
    rewrite nth_error_map, Hi in Hline. injection Hline as <-.
    rewrite Forall_forall in Hrows.
    destruct (Hrows row (nth_error_In _ _ Hi)) as [Hcols Hpix].
    assert (Hgroups : Forall (fun g => String.length g = 6%nat
                                       /\ Spec.allUpperHex g = true)
                        (map (fun p => paddedHex (packed p) 6) row)).
    { rewrite Forall_map. eapply Forall_impl; [|exact Hpix]. intros p Hp.
      destruct (encodePixel_bytes p Hp) as [_ B].
      destruct (paddedHex_spec (packed p) 6 B ltac:(lia)) as [L V].
      split; [exact L | exact (hexValue_allUpperHex _ _ _ V)]. }
    assert (Hsix : Forall (fun g => String.length g = 6%nat)
                     (map (fun p => paddedHex (packed p) 6) row))
      by (eapply Forall_impl; [|exact Hgroups]; intros g [L _]; exact L).
    split; [|split].
    + unfold enc. rewrite (length_join _ 6 Hsix), length_map, Hcols. reflexivity.
    + unfold enc. apply allUpperHex_join.
      eapply Forall_impl; [|exact Hgroups]. intros g [_ U]; exact U.
    + intros c r g b Hc. unfold enc.
      rewrite (substring_join _ 6 c (paddedHex (packed (r, g, b)) 6) Hsix)
        by (rewrite nth_error_map, Hc; reflexivity).
      rewrite Forall_forall in Hpix.
      destruct (encodePixel_bytes (r, g, b) (Hpix _ (nth_error_In _ _ Hc)))
        as [_ B].
      exact (paddedHex_spec (packed (r, g, b)) 6 B ltac:(lia)).
Qed.

End Table.

End FrameFacts.

(** ** Splitting the inbound stream into lines *)

Section LineFacts.

Lemma prefix_append (sep rest : string) : String.prefix sep (sep ++ rest) = true.
Proof.
  induction sep as [|c sep IH]; simpl; [destruct rest; reflexivity|].
  destruct (ascii_dec c c); [exact IH | congruence].
Qed.

Lemma prefix_inv (sep s : string) :
  String.prefix sep s = true -> s = (sep ++ drop (String.length sep) s)%string.
Proof.
  revert s; induction sep as [|c sep IH]; intros s H; simpl; [reflexivity|].
  destruct s as [|x s]; simpl in H; [discriminate|].
  destruct (ascii_dec c x) as [->|]; [|discriminate].
  simpl. f_equal. apply IH, H.
Qed.

Lemma prefix_extend (sep s t : string) :
  String.prefix sep s = true -> String.prefix sep (s ++ t) = true.
Proof.
  revert s; induction sep as [|c sep IH]; intros s H; simpl.
  - destruct (s ++ t)%string; reflexivity.
  - destruct s as [|x s]; simpl in H; [discriminate|]. simpl.
    destruct (ascii_dec c x); [apply IH, H | discriminate].
Qed.

Lemma drop_append (sep rest : string) : drop (String.length sep) (sep ++ rest) = rest.
Proof. induction sep as [|c sep IH]; simpl; [reflexivity | exact IH]. Qed.

Lemma cut_eq (sep s : string) :
  cut sep s
  = if String.prefix sep s then Some ("", drop (String.length sep) s)
    else
      match s with
      | EmptyString => None
      | String c r =>
          match cut sep r with
          | Some (a, b) => Some (String c a, b)
          | None => None
          end
      end.
Proof. destruct s; reflexivity. Qed.

Lemma cut_inv (sep s a b : string) :
  cut sep s = Some (a, b) -> s = (a ++ sep ++ b)%string.
Proof.
  revert a b; induction s as [|c s IH]; intros a b H; rewrite cut_eq in H.
  - destruct (String.prefix sep "") eqn:E; [|discriminate].
    injection H as <- <-. apply prefix_inv, E.
  - destruct (String.prefix sep (String c s)) eqn:E.
    + injection H as <- <-. apply prefix_inv, E.
    + destruct (cut sep s) as [[a' b']|] eqn:C; [|discriminate].
      injection H as <- <-. simpl. f_equal. apply IH. reflexivity.
Qed.

Lemma cut_none (sep s : string) : ~ Spec.contains sep s -> cut sep s = None.
Proof.
  intros H. destruct (cut sep s) as [[a b]|] eqn:C; [|reflexivity].
  exfalso. apply H. exists a, b. apply cut_inv, C.
Qed.

Lemma cut_shorter (sep s a b : string) :
  sep <> "" -> cut sep s = Some (a, b) ->
  (String.length b < String.length s)%nat.
Proof.
  intros Hsep H. apply cut_inv in H. subst s.
  rewrite !length_append. destruct sep; [congruence | simpl; lia].
Qed.

Lemma prefix_restrict (sep u t : string) :
  String.prefix sep (u ++ t) = true ->
  (String.length sep <= String.length u)%nat ->
  String.prefix sep u = true.
Proof.
  revert u; induction sep as [|x sep IH]; intros u H L.
  - destruct u; reflexivity.
  - destruct u as [|y u]; simpl in L; [lia|]. simpl in H |- *.
    destruct (ascii_dec x y); [apply IH; [exact H | lia] | discriminate].
Qed.

Lemma cut_extend (sep s t a b : string) :
  cut sep s = Some (a, b) -> cut sep (s ++ t) = Some (a, (b ++ t)%string).
Proof.
  revert a b; induction s as [|c s IH]; intros a b H; rewrite cut_eq in H.
  - destruct (String.prefix sep "") eqn:E; [|discriminate].
    injection H as <- <-.
    assert (sep = "") as -> by (destruct sep; [reflexivity | discriminate]).
    simpl. destruct t; reflexivity.
  - rewrite cut_eq.
    destruct (String.prefix sep (String c s)) eqn:E.
    + injection H as <- <-.
      rewrite (prefix_extend sep (String c s) t E). f_equal. f_equal.
      rewrite (prefix_inv _ _ E) at 1. rewrite append_assoc, drop_append.
      reflexivity.
    + destruct (cut sep s) as [[a' b']|] eqn:C; [|discriminate].
      injection H as <- <-.
      destruct (String.prefix sep (String c s ++ t)) eqn:E'.
      * exfalso.
        assert (L : (String.length sep <= String.length (String c s))%nat).
        { rewrite (cut_inv _ _ _ _ C). simpl. rewrite !length_append. lia. }
        rewrite (prefix_restrict _ _ _ E' L) in E. discriminate.
      * cbn [append]. rewrite (IH a' b' eq_refl). reflexivity.
Qed.

Section Splitting.

Variable sep : string.
Hypothesis sep_nonempty : sep <> "".

Lemma cut_empty : cut sep "" = None.
Proof. destruct sep; [congruence | reflexivity]. Qed.

Lemma split_fuel_enough (n m : nat) (s : string) :
  (String.length s <= n)%nat -> (String.length s <= m)%nat ->
  split_fuel n sep s = split_fuel m sep s.
Proof.
  revert m s; induction n as [|n IH]; intros m s Hn Hm.
  - destruct s; [|simpl in Hn; lia].
    destruct m; cbn [split_fuel]; [reflexivity | now rewrite cut_empty].
  - destruct m as [|m].
    + destruct s; [|simpl in Hm; lia]. cbn [split_fuel]. now rewrite cut_empty.
    + cbn [split_fuel]. destruct (cut sep s) as [[a b]|] eqn:C; [|reflexivity].
      pose proof (cut_shorter _ _ _ _ sep_nonempty C).
      f_equal. apply IH; lia.
Qed.

Lemma split_fuel_split (s : string) :
  split s sep = split_fuel (String.length s) sep s.
Proof. unfold split. destruct sep; [congruence | reflexivity]. Qed.

(** [split] unfolds along the leftmost occurrence of the separator. *)
Lemma split_eq (s : string) :
  split s sep
  = match cut sep s with
    | Some (a, b) => a :: split b sep
    | None => [s]
    end.
Proof.
  rewrite split_fuel_split.
  rewrite (split_fuel_enough _ (S (String.length s))) by lia.
  cbn [split_fuel].
  destruct (cut sep s) as [[a b]|] eqn:C; [|reflexivity].
  pose proof (cut_shorter _ _ _ _ sep_nonempty C).
  rewrite split_fuel_split. f_equal. apply split_fuel_enough; lia.
Qed.

Lemma split_nonempty (s : string) : split s sep <> [].
Proof. rewrite split_eq. destruct (cut sep s) as [[a b]|]; discriminate. Qed.

Lemma last_cons {A : Type} (r : list A) (a d : A) : last (a :: r) d = last r a.
Proof.
  revert a d; induction r as [|b r IH]; intros a d; [reflexivity|].
  change (last (a :: b :: r) d) with (last (b :: r) d).
  now rewrite (IH b d), (IH b a).
Qed.

Lemma pop_split (s : string) :
  pop (split s sep) = (Some (last (split s sep) ""), removelast (split s sep)).
Proof.
  pose proof (split_nonempty s) as H.
  destruct (split s sep) as [|a r]; [congruence|].
  unfold pop. now rewrite last_cons.
Qed.

(** Text that arrives later only changes the last piece. *)
Lemma split_append (s t : string) :
  split (s ++ t) sep
  = removelast (split s sep) ++ split (last (split s sep) "" ++ t) sep.
Proof.
  remember (String.length s) as n eqn:Hn.
  assert (Hle : (String.length s <= n)%nat) by lia. clear Hn.
  revert s Hle; induction n as [|n IH]; intros s Hle;
    rewrite (split_eq s); destruct (cut sep s) as [[a b]|] eqn:C;
    try reflexivity.
  - pose proof (cut_shorter _ _ _ _ sep_nonempty C). lia.
  - pose proof (cut_shorter _ _ _ _ sep_nonempty C).
    rewrite (split_eq (s ++ t)), (cut_extend _ _ t _ _ C).
    rewrite IH by lia.
    pose proof (split_nonempty b) as Hb.
    destruct (split b sep) as [|x r]; [congruence|]. reflexivity.
Qed.

(** The last piece holds no separator. *)
Lemma cut_last (s : string) : cut sep (last (split s sep) "") = None.
Proof.
  remember (String.length s) as n eqn:Hn.
  assert (Hle : (String.length s <= n)%nat) by lia. clear Hn.
  revert s Hle; induction n as [|n IH]; intros s Hle;
    rewrite (split_eq s); destruct (cut sep s) as [[a b]|] eqn:C;
    try exact C.
  - pose proof (cut_shorter _ _ _ _ sep_nonempty C). lia.
  - pose proof (cut_shorter _ _ _ _ sep_nonempty C).
    pose proof (split_nonempty b) as Hb.
    specialize (IH b ltac:(lia)).
    destruct (split b sep) as [|x r]; [congruence|]. exact IH.
Qed.

Lemma feed_flush (chunks : list string) (this : LineBreakTransformer)
  (controller : list string) :
  cut sep (container this) = None ->
  flush (fst (feed sep chunks this controller))
    (snd (feed sep chunks this controller))
  = controller ++ split (container this ++ join chunks) sep.
Proof.
  revert this controller; induction chunks as [|chunk rest IH];
    intros this controller Hc.
  - simpl. unfold flush. rewrite append_nil_r, split_eq, Hc. reflexivity.
  - cbn [feed join fold_right]. unfold transform_with.
    rewrite pop_split. rewrite IH by (apply cut_last). cbn [container].
    rewrite <- app_assoc. f_equal.
    rewrite <- append_assoc. symmetry. apply split_append.
Qed.

(** Chunk boundaries do not matter: the lines handed on are the pieces of
    the whole text. *)
Lemma pipeThrough_split (chunks : list string) :
  pipeThrough sep chunks = split (join chunks) sep.
Proof.
  unfold pipeThrough.
  pose proof (feed_flush chunks LineBreakTransformer_new [] cut_empty) as H.
  destruct (feed sep chunks LineBreakTransformer_new []) as [this controller].
  exact H.
Qed.

(** A separator that cannot start inside a line and end in the separator
    that follows the line. *)
Hypothesis sep_clean :
  forall (c : ascii) (l rest : string),
    ~ Spec.contains sep (String c l) ->
    String.prefix sep (String c l ++ sep ++ rest) = false.

Lemma cut_line (l rest : string) :
  ~ Spec.contains sep l -> cut sep (l ++ sep ++ rest) = Some (l, rest).
Proof.
  induction l as [|c l IH]; intros H; rewrite cut_eq.
  - simpl append. rewrite prefix_append, drop_append. reflexivity.
  - rewrite (sep_clean c l rest H). cbn [append]. rewrite IH; [reflexivity|].
    intros (a & b & E). apply H. exists (String c a), b. simpl. now rewrite E.
Qed.

Lemma split_concat (lines : list string) :
  lines <> [] ->
  Forall (fun l => ~ Spec.contains sep l) lines ->
  split (String.concat sep lines) sep = lines.
Proof.
  intros Hne Hall. induction Hall as [|l ls Hl Hls IH]; [congruence|].
  destruct ls as [|l' ls].
  - simpl. rewrite split_eq, (cut_none _ _ Hl). reflexivity.
  - cbn [String.concat]. rewrite split_eq, (cut_line _ _ Hl).
    f_equal. apply IH. discriminate.
Qed.

Lemma pipeThrough_lines (lines chunks : list string) :
  lines <> [] ->
  Forall (fun l => ~ Spec.contains sep l) lines ->
  join chunks = String.concat sep lines ->
  pipeThrough sep chunks = lines.
Proof.
  intros Hne Hall Hjoin.
  rewrite pipeThrough_split, Hjoin. apply split_concat; assumption.
Qed.

End Splitting.

Lemma prefix_cons (x y : ascii) (sep s : string) :
  String.prefix (String x sep) (String y s)
  = if ascii_dec x y then String.prefix sep s else false.
Proof. reflexivity. Qed.

Lemma newline_clean (c : ascii) (l rest : string) :
  ~ Spec.contains Gif.newline (String c l) ->
  String.prefix Gif.newline (String c l ++ Gif.newline ++ rest) = false.
Proof.
  intros H. unfold Gif.newline in *. cbn [append]. rewrite prefix_cons.
  destruct (ascii_dec "010" c) as [<-|]; [|reflexivity].
  exfalso. apply H. exists "", l. reflexivity.
Qed.

Lemma carriageReturnNewline_clean (c : ascii) (l rest : string) :
  ~ Spec.contains Img.carriageReturnNewline (String c l) ->
  String.prefix Img.carriageReturnNewline
    (String c l ++ Img.carriageReturnNewline ++ rest) = false.
Proof.
  intros H. unfold Img.carriageReturnNewline in *. cbn [append].
  rewrite prefix_cons.
  destruct (ascii_dec "013" c) as [<-|]; [|reflexivity].
  destruct l as [|d l]; cbn [append]; rewrite prefix_cons.
  - destruct (ascii_dec "010" "013"); [discriminate | reflexivity].
  - destruct (ascii_dec "010" d) as [<-|]; [|reflexivity].
    exfalso. apply H. exists "", l. reflexivity.
Qed.

Lemma contains_cut (sep s : string) : Spec.contains sep s -> cut sep s <> None.
Proof.
  intros (a & b & ->). induction a as [|c a IH]; rewrite cut_eq.
  - cbn [append]. rewrite prefix_append. discriminate.
  - destruct (String.prefix sep (String c a ++ sep ++ b)); [discriminate|].
    cbn [append]. destruct (cut sep (a ++ sep ++ b)) as [[x y]|];
      [discriminate | exact IH].
Qed.

(** C3, amended.  For each of the two delimiters (newline in the first
    variant, carriage return and newline in the second) and every non-empty
    list of lines none of which contains the delimiter: when the text of
    the lines joined by the delimiter reaches the transformer cut into
    chunks at arbitrary places and the stream is then flushed, exactly the
    original lines come out, in their order. *)
Theorem pipeThrough_returns_the_lines (sep : string) (lines chunks : list string) :
  sep = Gif.newline \/ sep = Img.carriageReturnNewline ->
  lines <> [] ->
  Forall (fun l => ~ Spec.contains sep l) lines ->
  join chunks = String.concat sep lines ->
  pipeThrough sep chunks = lines.
Proof.
  intros [-> | ->] Hne Hall Hjoin.
  - apply pipeThrough_lines; try assumption; [discriminate|].
    exact newline_clean.
  - apply pipeThrough_lines; try assumption; [discriminate|].
    exact carriageReturnNewline_clean.
Qed.

(** C3 as stated fails for the empty list of lines: its text is the empty
    text, and the flush then hands on one empty line. *)
Lemma pipeThrough_no_lines_is_one_line :
  ~ (forall lines chunks : list string,
       Forall (fun l => ~ Spec.contains Gif.newline l) lines ->
       join chunks = String.concat Gif.newline lines ->
       pipeThrough Gif.newline chunks = lines).
Proof.
  intros H. specialize (H [] [] (Forall_nil _) eq_refl). discriminate H.
Qed.

End LineFacts.

(** ** Disconnecting *)

Section DisconnectFacts.

Import Gif.

Lemma disconnect_active (s : Gif.Session) :
  port s <> None -> reader s <> None -> inputDone s <> None ->
  outputStream s <> None ->
  disconnect s = (Normal tt, Spec.disconnected s).
Proof.
  intros Hp Hr Hi Ho. destruct s as [p r i od ins o g c t].
  cbn [port reader inputDone outputStream] in *.
  destruct p as [[]|]; [|congruence]. destruct r as [[]|]; [|congruence].
  destruct i as [[]|]; [|congruence]. destruct o as [[]|]; [|congruence].
  cbv [Spec.disconnected disconnect writeToStream deref bind get emit
    logged forEach ret set_reader set_inputDone set_outputStream
    set_outputDone set_port port reader inputDone outputDone inputStream
    outputStream gammaTable currentImage trace newline].
  rewrite <- ?app_assoc. reflexivity.
Qed.

Lemma disconnect_idle (s : Gif.Session) :
  outputStream s = None -> disconnect s = (Throw TypeError, s).
Proof.
  intros H. unfold disconnect. apply bind_throw, writeToStream_closed, H.
Qed.

(** C7.  [disconnect] twice in a row raises.  After a connection the first
    call completes and clears the reader, the pipes, the output stream and
    the port; the second call, made when no connection is active, throws a
    [TypeError] at its first statement, the write of [RST], and leaves the
    session as it is.  The button reaches such a call as well: after a port
    that failed to open the port handle is set and the output stream is not,
    and two clicks in a row both run [disconnect] and both throw. *)
Theorem second_disconnect_throws :
  disconnect Examples.connected = (Normal tt, Spec.disconnected Examples.connected)
  /\ disconnect (Spec.disconnected Examples.connected)
     = (Throw TypeError, Spec.disconnected Examples.connected)
  /\ (let s := snd (clickConnect (mkBrowser 1 false false) Examples.loaded) in
      port s <> None /\ outputStream s = None
      /\ clickConnect Examples.browser s = (Throw TypeError, s)
      /\ clickConnect Examples.browser (snd (clickConnect Examples.browser s))
         = (Throw TypeError, s)).
Proof.
  split; [vm_compute; reflexivity|]. split; [vm_compute; reflexivity|].
  cbv zeta. split; [vm_compute; discriminate|].
  repeat split; vm_compute; reflexivity.
Qed.

End DisconnectFacts.

(** ** The digit clock *)

Section ClockFacts.

Import Gif.

Variable A : Type.
Variables fg bg colon : A.

(** The grid of 14:05 with the colon, computed. *)
Lemma clock_1405_on :
  digitalClockIterator 1 4 0 5 fg bg colon
  = Normal
      [ [bg;bg;bg;bg;bg;bg;bg;bg;bg;bg;bg;bg;bg;bg;bg;bg];
        [bg;bg;bg;bg;bg;bg;bg;bg;bg;bg;bg;bg;bg;bg;bg;bg];
        [bg;bg;bg;bg;bg;bg;bg;bg;bg;bg;bg;bg;bg;bg;bg;bg];
        [bg;bg;bg;bg;bg;bg;bg;bg;bg;bg;bg;bg;bg;bg;bg;bg];
        [bg;bg;bg;bg;bg;bg;bg;bg;bg;bg;bg;bg;bg;bg;bg;bg];
        [bg;fg;bg;bg;fg;bg;fg;bg;bg;fg;fg;fg;bg;fg;fg;fg];
        [fg;fg;bg;bg;fg;bg;fg;colon;colon;fg;bg;fg;bg;fg;bg;bg];
        [bg;fg;bg;bg;fg;fg;fg;bg;bg;fg;bg;fg;bg;fg;fg;bg];
        [bg;fg;bg;bg;bg;bg;fg;colon;colon;fg;bg;fg;bg;bg;bg;fg];
        [fg;fg;fg;bg;bg;bg;fg;bg;bg;fg;fg;fg;bg;fg;fg;bg];
        [bg;bg;bg;bg;bg;bg;bg;bg;bg;bg;bg;bg;bg;bg;bg;bg];
        [bg;bg;bg;bg;bg;bg;bg;bg;bg;bg;bg;bg;bg;bg;bg;bg];
        [bg;bg;bg;bg;bg;bg;bg;bg;bg;bg;bg;bg;bg;bg;bg;bg];
        [bg;bg;bg;bg;bg;bg;bg;bg;bg;bg;bg;bg;bg;bg;bg;bg];
        [bg;bg;bg;bg;bg;bg;bg;bg;bg;bg;bg;bg;bg;bg;bg;bg];
        [bg;bg;bg;bg;bg;bg;bg;bg;bg;bg;bg;bg;bg;bg;bg;bg] ].
Proof. reflexivity. Qed.

Ltac clock_cell :=
  eexists; eexists; split; [reflexivity|]; split; [reflexivity|];
  unfold Spec.colonCell; split;
  [ intros [? ?];
    first [ now (split; [reflexivity | split; [reflexivity | assumption]])
          | exfalso; lia ]
  | let Hn := fresh in
    intros Hn; first [ reflexivity | exfalso; apply Hn; lia ] ].

(** C10.  For the digits 1, 4, 0, 5 and a colon colour other than the
    background colour, the rasterizer yields two 16x16 grids, one drawn with
    the colon and one drawn with the background colour in its place.  They
    hold the same colour in every cell except the two colon columns
    (columns 7 and 8) of the odd glyph rows (rows 6 and 8 of the grid), where
    the first grid holds the colon colour and the second the background
    colour. *)
Theorem clock_1405_grids_differ_in_the_colon_only :
  colon <> bg ->
  exists on off : list (list A),
    digitalClockIterator 1 4 0 5 fg bg colon = Normal on
    /\ digitalClockIterator 1 4 0 5 fg bg bg = Normal off
    /\ Spec.is16x16 on /\ Spec.is16x16 off
    /\ forall r c : nat, (r < 16)%nat -> (c < 16)%nat ->
         exists x y : A,
           Spec.at_ on r c = Some x /\ Spec.at_ off r c = Some y
           /\ (Spec.colonCell r c -> x = colon /\ y = bg /\ x <> y)
           /\ (~ Spec.colonCell r c -> x = y).
Proof.
  intros Hcolon. eexists. eexists.
  split; [apply clock_1405_on|]. split; [reflexivity|].
  split; [split; [reflexivity | repeat constructor]|].
  split; [split; [reflexivity | repeat constructor]|].
  intros r c Hr Hc.
  do 16 (destruct r as [|r]; [do 16 (destruct c as [|c]; [clock_cell|]); lia|]).
  lia.
Qed.

End ClockFacts.

(** At 14:05 [drawClockMinute] hands the digits 1, 4, 0, 5 to the
    rasterizer and sends the two grids as one animation of two frames:
    1 + 2 * 17 + 2 lines. *)
Example drawClockMinute_14_05 :
  (14 / 10, Z.rem 14 10, 5 / 10, Z.rem 5 10) = (1, 4, 0, 5)
  /\ List.length
       (written
          (trace
             (snd (Gif.drawClockMinute 14 5 Examples.white Examples.black
                     Examples.blue
                     (mkSession (Some tt) None None None None (Some tt)
                        Examples.identityTable None [])))))
     = 37%nat.
Proof. split; vm_compute; reflexivity. Qed.

(** ** Drawing the frames of a GIF *)

Section GifFacts.

Import Gif.

Lemma index_assign {A : Type} (hole : A) (l : list A) (i : Z) (v : A) :
  0 <= i < Z.of_nat (List.length l) ->
  List.length (assign hole l i v) = List.length l
  /\ forall j : Z,
       index (assign hole l i v) (Some j)
       = if j =? i then Some v else index l (Some j).
Proof.
  intros Hi. unfold assign.
  replace (i <? 0) with false by (symmetry; apply Z.ltb_ge; lia).
  replace (Z.to_nat i <? List.length l)%nat with true
    by (symmetry; apply Nat.ltb_lt; lia).
  split.
  - rewrite length_app, length_firstn. cbn [List.length]. rewrite length_skipn. lia.
  - intros j. unfold index. destruct (j <? 0) eqn:Ej.
    + apply Z.ltb_lt in Ej.
      replace (j =? i) with false by (symmetry; apply Z.eqb_neq; lia).
      reflexivity.
    + apply Z.ltb_ge in Ej.
      assert (Hf : List.length (firstn (Z.to_nat i) l) = Z.to_nat i)
        by (rewrite length_firstn; lia).
      destruct (j =? i) eqn:Eji.
      * apply Z.eqb_eq in Eji. subst j.
        rewrite nth_error_app2 by lia. rewrite Hf, Nat.sub_diag. reflexivity.
      * apply Z.eqb_neq in Eji.
        destruct (Z_lt_le_dec j i) as [Hlt|Hge].
        -- rewrite nth_error_app1 by lia. rewrite nth_error_firstn.
           replace (Z.to_nat j <? Z.to_nat i)%nat with true
             by (symmetry; apply Nat.ltb_lt; lia).
           reflexivity.
        -- rewrite nth_error_app2 by lia. rewrite Hf.
           replace (Z.to_nat j - Z.to_nat i)%nat
             with (S (Z.to_nat j - S (Z.to_nat i))) by lia.
           cbn [nth_error]. rewrite nth_error_skipn. f_equal. lia.
Qed.

Lemma Forall_nth_error_iff {A : Type} (P : A -> Prop) (l : list A) :
  Forall P l <-> forall (n : nat) (x : A), nth_error l n = Some x -> P x.
Proof.
  rewrite Forall_forall. split.
  - intros H n x Hn. apply H. eapply nth_error_In, Hn.
  - intros H x Hx. destruct (In_nth_error _ _ Hx) as [n Hn]. eapply H, Hn.
Qed.

Lemma index_nat {A : Type} (l : list A) (n : nat) :
  index l (Some (Z.of_nat n)) = nth_error l n.
Proof.
  unfold index.
  replace (Z.of_nat n <? 0) with false by (symmetry; apply Z.ltb_ge; lia).
  now rewrite Nat2Z.id.
Qed.

Lemma index_in_range {A : Type} (l : list A) (i : Z) :
  0 <= i < Z.of_nat (List.length l) -> exists x : A, index l (Some i) = Some x.
Proof.
  intros H. unfold index.
  replace (i <? 0) with false by (symmetry; apply Z.ltb_ge; lia).
  destruct (nth_error l (Z.to_nat i)) as [x|] eqn:E; [now exists x|].
  apply nth_error_None in E. lia.
Qed.

Lemma is16x16_row (g : grid) (i : Z) (row : list cell) :
  Spec.is16x16 g -> index g (Some i) = Some row -> List.length row = 16%nat.
Proof.
  intros [_ H] Hi. unfold index in Hi.
  destruct (i <? 0); [discriminate|].
  rewrite Forall_nth_error_iff in H. eapply H, Hi.
Qed.

Lemma setPixel_16 (g : grid) (i j : Z) (v : cell) :
  Spec.is16x16 g -> 0 <= i < 16 -> 0 <= j < 16 ->
  exists g' : grid,
    setPixel g i j v = Normal g'
    /\ Spec.is16x16 g'
    /\ forall i' j' : Z,
         Spec.cellAt g' i' j'
         = if (i' =? i) && (j' =? j) then Some v else Spec.cellAt g i' j'.
Proof.
  intros Hg Hi Hj. pose proof Hg as [Hlen Hrows].
  destruct (index_in_range g i ltac:(lia)) as [row Hrow].
  pose proof (is16x16_row g i row Hg Hrow) as Hrl.
  destruct (index_assign Hole row j v ltac:(lia)) as [Lr Ir].
  destruct (index_assign [] g i (assign Hole row j v) ltac:(lia)) as [Lg Ig].
  exists (assign [] g i (assign Hole row j v)).
  split; [unfold setPixel; now rewrite Hrow|]. split.
  - split; [lia|]. apply Forall_nth_error_iff. intros n x Hn.
    rewrite <- index_nat, Ig in Hn.
    destruct (Z.of_nat n =? i); [injection Hn as <-; lia|].
    rewrite index_nat in Hn. rewrite Forall_nth_error_iff in Hrows.
    eapply Hrows, Hn.
  - intros i' j'. unfold Spec.cellAt. rewrite Ig.
    destruct (i' =? i) eqn:Ei; cbn [andb]; [|reflexivity].
    apply Z.eqb_eq in Ei. subst i'. rewrite Ir, Hrow. reflexivity.
Qed.

(** The loop over the columns of one row of the patch. *)
Lemma copy_columns (V : Z -> cell) (i co : Z) (cs : list Z) (g : grid) :
  Spec.is16x16 g -> 0 <= i < 16 ->
  Forall (fun c => 0 <= c + co < 16) cs ->
  exists g' : grid,
    foldC (fun px c => setPixel px i (c + co) (V c)) cs g = Normal g'
    /\ Spec.is16x16 g'
    /\ forall i' j' : Z,
         Spec.cellAt g' i' j'
         = if (i' =? i) && existsb (fun c => c + co =? j') cs
           then Some (V (j' - co)) else Spec.cellAt g i' j'.
Proof.
  intros Hg Hi Hcs. revert g Hg.
  induction Hcs as [|c cs Hc _ IH]; intros g Hg.
  - exists g. split; [reflexivity|]. split; [exact Hg|].
    intros i' j'. cbn [existsb]. now rewrite andb_false_r.
  - destruct (setPixel_16 g i (c + co) (V c) Hg Hi Hc) as (g1 & E1 & Hg1 & C1).
    destruct (IH g1 Hg1) as (g' & E' & Hg' & C').
    exists g'. split; [cbn [foldC]; rewrite E1; exact E'|]. split; [exact Hg'|].
    intros i' j'. rewrite C', C1. cbn [existsb].
    destruct (i' =? i); cbn [andb]; [|reflexivity].
    destruct (existsb (fun c0 => c0 + co =? j') cs);
      [now rewrite orb_true_r|]. rewrite orb_false_r.
    rewrite (Z.eqb_sym j'). destruct (c + co =? j') eqn:E; [|reflexivity].
    apply Z.eqb_eq in E. f_equal. f_equal. lia.
Qed.

(** The two nested loops. *)
Lemma copy_rows (V : Z -> Z -> cell) (ro co : Z) (rs cs : list Z) (g : grid) :
  Spec.is16x16 g ->
  Forall (fun r => 0 <= r + ro < 16) rs ->
  Forall (fun c => 0 <= c + co < 16) cs ->
  exists g' : grid,
    foldC (fun px r =>
             foldC (fun px c => setPixel px (r + ro) (c + co) (V r c)) cs px)
      rs g = Normal g'
    /\ Spec.is16x16 g'
    /\ forall i' j' : Z,
         Spec.cellAt g' i' j'
         = if existsb (fun r => r + ro =? i') rs
              && existsb (fun c => c + co =? j') cs
           then Some (V (i' - ro) (j' - co)) else Spec.cellAt g i' j'.
Proof.
  intros Hg Hrs Hcs. revert g Hg.
  induction Hrs as [|r rs Hr _ IH]; intros g Hg.
  - exists g. split; [reflexivity|]. split; [exact Hg|]. reflexivity.
  - destruct (copy_columns (V r) (r + ro) co cs g Hg Hr Hcs)
      as (g1 & E1 & Hg1 & C1).
    destruct (IH g1 Hg1) as (g' & E' & Hg' & C').
    exists g'. split; [cbn [foldC]; rewrite E1; exact E'|]. split; [exact Hg'|].
    intros i' j'. rewrite C', C1. cbn [existsb].
    destruct (existsb (fun c => c + co =? j') cs);
      [|now rewrite !andb_false_r].
    rewrite !andb_true_r.
    destruct (existsb (fun r0 => r0 + ro =? i') rs);
      [now rewrite orb_true_r|]. rewrite orb_false_r.
    rewrite (Z.eqb_sym i'). destruct (r + ro =? i') eqn:E; [|reflexivity].
    apply Z.eqb_eq in E. f_equal. f_equal. lia.
Qed.

Lemma existsb_upto (co j w : Z) :
  existsb (fun c => c + co =? j) (upto w) = true <-> co <= j < co + w.
Proof.
  rewrite existsb_exists. unfold upto. split.
  - intros (c & Hin & Hc). apply in_map_iff in Hin as (n & <- & Hn).
    apply in_seq in Hn. apply Z.eqb_eq in Hc. lia.
  - intros H. exists (j - co). split; [|apply Z.eqb_eq; lia].
    apply in_map_iff. exists (Z.to_nat (j - co)). split; [lia|].
    apply in_seq. lia.
Qed.

Lemma upto_in_range (co w : Z) :
  0 <= co -> co + w <= 16 -> Forall (fun c => 0 <= c + co < 16) (upto w).
Proof.
  intros H0 H1. apply Forall_forall. intros c Hin. unfold upto in Hin.
  apply in_map_iff in Hin as (n & <- & Hn). apply in_seq in Hn. lia.
Qed.

Lemma clearPixels_16 (g : grid) :
  Spec.is16x16 g ->
  Spec.is16x16 (clearPixels g)
  /\ forall i j : Z, 0 <= i < 16 -> 0 <= j < 16 ->
       Spec.cellAt (clearPixels g) i j = Some Zero.
Proof.
  intros Hg. pose proof Hg as [Hlen Hrows]. unfold clearPixels. split.
  - split; [now rewrite length_map|]. rewrite Forall_map.
    eapply Forall_impl; [|exact Hrows]. intros row Hr. now rewrite length_map.
  - intros i j Hi Hj. unfold Spec.cellAt.
    destruct (index_in_range g i ltac:(lia)) as [row Hrow].
    pose proof (is16x16_row g i row Hg Hrow) as Hrl.
    destruct (index_in_range row j ltac:(lia)) as [x Hx].
    unfold index in *.
    replace (i <? 0) with false in * by (symmetry; apply Z.ltb_ge; lia).
    replace (j <? 0) with false in * by (symmetry; apply Z.ltb_ge; lia).
    rewrite nth_error_map, Hrow. cbn [option_map].
    rewrite nth_error_map, Hx. reflexivity.
Qed.

(** C9, amended.  For a GIF frame whose patch lies within the 16x16 screen,
    the grid handed to the frame encoder is the shared grid with every cell
    set to 0 and the patch then copied at its top/left offset: a cell inside
    the patch holds the pixel of the patch, and a cell outside the patch
    holds 0, whatever the previous frames left in it. *)
Theorem drawGifFrame_clears_then_copies (f : GifFrame) (prev : grid) :
  Spec.is16x16 prev -> Spec.fits (dims f) ->
  exists next : grid,
    drawGifFrame f prev = Normal next
    /\ Spec.is16x16 next
    /\ forall i j : Z, 0 <= i < 16 -> 0 <= j < 16 ->
         (Spec.inPatch (dims f) i j ->
          Spec.cellAt next i j = Some (Spec.patchPixel f i j))
         /\ (~ Spec.inPatch (dims f) i j -> Spec.cellAt next i j = Some Zero).
Proof.
  intros Hprev (Ht & Hh & Hl & Hw).
  destruct (clearPixels_16 prev Hprev) as [Hc Hzero].
  destruct (copy_rows
              (fun r c =>
                 Rgb (index (patch f) (Some ((r * width (dims f) + c) * 4)))
                   (index (patch f) (Some ((r * width (dims f) + c) * 4 + 1)))
                   (index (patch f) (Some ((r * width (dims f) + c) * 4 + 2))))
              (top (dims f)) (left (dims f))
              (upto (height (dims f))) (upto (width (dims f)))
              (clearPixels prev) Hc
              (upto_in_range _ _ Ht Hh) (upto_in_range _ _ Hl Hw))
    as (next & E & Hn & C).
  exists next. split; [exact E|]. split; [exact Hn|].
  intros i j Hi Hj. rewrite C, (Hzero i j Hi Hj). unfold Spec.inPatch.
  destruct (existsb (fun r => r + top (dims f) =? i) (upto (height (dims f))))
    eqn:Er;
    destruct (existsb (fun c => c + left (dims f) =? j) (upto (width (dims f))))
      eqn:Ec; cbn [andb].
  - apply existsb_upto in Er, Ec. split; [reflexivity | intros H; exfalso; lia].
  - split; [|reflexivity]. intros [_ H]. apply existsb_upto in H. congruence.
  - split; [|reflexivity]. intros [H _]. apply existsb_upto in H. congruence.
  - split; [|reflexivity]. intros [H _]. apply existsb_upto in H. congruence.
Qed.

(** C9 as stated fails: after a frame that paints the screen white, the
    frame of one red pixel leaves 0 in the cell next to the pixel, not the
    white that the previous frame put there. *)
Lemma drawGifFrame_forgets_the_previous_frame :
  exists g1 g2 : grid,
    drawGifFrame Examples.whiteFrame newPixels = Normal g1
    /\ drawGifFrame Examples.redDot g1 = Normal g2
    /\ ~ Spec.inPatch (dims Examples.redDot) 0 1
    /\ Spec.cellAt g1 0 1 = Some Examples.white
    /\ Spec.cellAt g2 0 1 = Some Zero
    /\ Spec.cellAt g2 0 1 <> Spec.cellAt g1 0 1.
Proof.
  eexists. eexists.
  split; [vm_compute; reflexivity|]. split; [vm_compute; reflexivity|].
  split; [unfold Spec.inPatch; simpl; lia|].
  split; [vm_compute; reflexivity|]. split; [vm_compute; reflexivity|].
  vm_compute. discriminate.
Qed.

(** The encoder then meets the number 0 where it destructures an array:
    for this GIF nothing at all is sent. *)
Lemma sendGifAnimation_partial_patch_throws :
  sendGifAnimation Examples.twoFrames Examples.connected
  = (Throw TypeError, Examples.connected).
Proof. vm_compute. reflexivity. Qed.

End GifFacts.

(** ** What leaves the gamma table alone *)

Section TableFacts.

Context {Img : Type}.

Lemma keepsTable_ret {A : Type} (a : A) : Spec.keepsTable (@ret Img A a).
Proof. intros s. reflexivity. Qed.

Lemma keepsTable_throw {A : Type} (e : exn) : Spec.keepsTable (@throw Img A e).
Proof. intros s. reflexivity. Qed.

Lemma keepsTable_lift {A : Type} (c : completion A) :
  Spec.keepsTable (@lift Img A c).
Proof. intros s. reflexivity. Qed.

Lemma keepsTable_get {A : Type} (field : Session Img -> A) : Spec.keepsTable (get field).
Proof. intros s. reflexivity. Qed.

Lemma keepsTable_emit (evs : list event) : Spec.keepsTable (@emit Img evs).
Proof. intros s. reflexivity. Qed.

Lemma keepsTable_bind {A B : Type} (m : M Img A) (k : A -> M Img B) :
  Spec.keepsTable m -> (forall a, Spec.keepsTable (k a)) -> Spec.keepsTable (bind m k).
Proof.
  intros Hm Hk s. unfold bind. specialize (Hm s).
  destruct (m s) as [[a|e] s1]; simpl in *; [|exact Hm].
  now rewrite Hk.
Qed.

Lemma keepsTable_forEach {A : Type} (l : list A) (f : A -> M Img unit) :
  (forall a, Spec.keepsTable (f a)) -> Spec.keepsTable (forEach l f).
Proof.
  intros Hf. induction l as [|a l IH]; simpl.
  - apply keepsTable_ret.
  - apply keepsTable_bind; [apply Hf | intros _; exact IH].
Qed.

Lemma keepsTable_writeToStream (lines : list string) :
  Spec.keepsTable (@writeToStream Img lines).
Proof.
  unfold writeToStream, deref.
  apply keepsTable_bind.
  - apply keepsTable_bind; [apply keepsTable_get|].
    intros [u|]; [apply keepsTable_ret | apply keepsTable_throw].
  - intros _. apply keepsTable_forEach. intros a. apply keepsTable_emit.
Qed.

End TableFacts.

Section GammaFacts.

Lemma keepsTable_sendAnimation (a : Gif.Animation) : Spec.keepsTable (Gif.sendAnimation a).
Proof.
  unfold Gif.sendAnimation.
  apply keepsTable_bind; [apply keepsTable_writeToStream | intros _].
  apply keepsTable_bind; [|intros _; apply keepsTable_writeToStream].
  apply keepsTable_forEach. intros f.
  apply keepsTable_bind; [apply keepsTable_writeToStream | intros _].
  apply keepsTable_forEach. intros row. apply keepsTable_writeToStream.
Qed.

Lemma keepsTable_gifFrames (fs : list Gif.GifFrame) (px : Gif.grid)
  (a : Gif.Animation) :
  Spec.keepsTable (Gif.gifFrames fs px a).
Proof.
  revert px a; induction fs as [|f fs IH]; intros px a; simpl.
  - apply keepsTable_ret.
  - apply keepsTable_bind; [apply keepsTable_lift | intros g].
    apply keepsTable_bind; [|intros fr; apply IH].
    unfold Gif.newFrame.
    apply keepsTable_bind; [apply keepsTable_get | intros t].
    apply keepsTable_lift.
Qed.

Lemma keepsTable_sendGifAnimation (i : Gif.img) : Spec.keepsTable (Gif.sendGifAnimation i).
Proof.
  unfold Gif.sendGifAnimation.
  destruct (Gif.response i) as [gif|]; [|apply keepsTable_ret].
  destruct (negb (Gif.lsd_width gif =? Gif.ROWS)
            || negb (Gif.lsd_height gif =? Gif.COLS));
    [apply keepsTable_ret|].
  destruct (Gif.frames gif) as [fs|]; [|apply keepsTable_ret].
  apply keepsTable_bind; [apply keepsTable_gifFrames | intros a].
  apply keepsTable_sendAnimation.
Qed.

Lemma keepsTable_sendImage (i : Img.img) : Spec.keepsTable (Img.sendImage i).
Proof.
  unfold Img.sendImage.
  apply keepsTable_bind; [apply keepsTable_writeToStream | intros _].
  apply keepsTable_bind; [|intros _; apply keepsTable_writeToStream].
  apply keepsTable_forEach. intros r.
  apply keepsTable_bind; [apply keepsTable_get | intros t].
  apply keepsTable_writeToStream.
Qed.

(** The closure of the table builder is called once per index, with the
    counter at the index. *)
Lemma Array_from_counter {A : Type} (f : float -> A) (n : nat) (c : float) :
  fst (Array_from n (fun i : float => (f i, (i + 1)%float)) c)
  = map f (Spec.counters n c).
Proof.
  revert c; induction n as [|n IH]; intros c; simpl; [reflexivity|].
  specialize (IH (c + 1)%float).
  destruct (Array_from n (fun i : float => (f i, (i + 1)%float)) (c + 1)%float).
  simpl in *. now rewrite IH.
Qed.

Lemma counters_256 : Spec.counters 256 0 = map Spec.floatOfNat (seq 0 256).
Proof. vm_compute. reflexivity. Qed.

Lemma gammaTableFor_entry (pow : float -> float -> float) (e : float) (i : nat) :
  (i < 256)%nat ->
  nth_error (gammaTableFor pow e) i
  = Some (Math_round (255 * pow (Spec.floatOfNat i / 255) e)%float).
Proof.
  intros Hi. unfold gammaTableFor.
  rewrite (Array_from_counter
             (fun x : float => Math_round (255 * pow (x / 255) e)%float)).
  rewrite counters_256, !nth_error_map.
  rewrite (nth_error_nth' _ O) by (rewrite length_seq; exact Hi).
  rewrite seq_nth by exact Hi. reflexivity.
Qed.

Lemma gammaTableFor_length (pow : float -> float -> float) (e : float) :
  List.length (gammaTableFor pow e) = 256%nat.
Proof.
  unfold gammaTableFor.
  rewrite (Array_from_counter
             (fun x : float => Math_round (255 * pow (x / 255) e)%float)).
  rewrite counters_256, !length_map. apply length_seq.
Qed.

Lemma updateGamma_gif_table (pow : float -> float -> float) (v : float)
  (s : Gif.Session) :
  gammaTable (snd (Gif.updateGamma pow v s))
  = gammaTableFor pow (Gif.gammaValueFromSlider v).
Proof.
  unfold Gif.updateGamma, bind at 1, set_gammaTable.
  match goal with
  | |- gammaTable (snd (?m ?s1)) = _ =>
      assert (K : Spec.keepsTable m); [|exact (K s1)]
  end.
  apply keepsTable_bind; [apply keepsTable_get | intros [i|]];
    [apply keepsTable_sendGifAnimation | apply keepsTable_ret].
Qed.

Lemma updateGamma_img_table (pow : float -> float -> float) (v : float)
  (s : Img.Session) :
  gammaTable (snd (Img.updateGamma pow v s)) = gammaTableFor pow (100 / v)%float.
Proof.
  unfold Img.updateGamma, bind at 1, set_gammaTable.
  match goal with
  | |- gammaTable (snd (?m ?s1)) = _ =>
      assert (K : Spec.keepsTable m); [|exact (K s1)]
  end.
  apply keepsTable_bind; [apply keepsTable_get | intros [i|]];
    [apply keepsTable_sendImage | apply keepsTable_ret].
Qed.

(** The first entry is 0 as soon as the host raises 0 to 0, which
    ECMAScript prescribes for every positive exponent. *)
Lemma gammaTableFor_first (pow : float -> float -> float) (e : float) :
  pow 0%float e = 0%float -> nth_error (gammaTableFor pow e) 0 = Some (Int 0).
Proof.
  intros H. rewrite gammaTableFor_entry by lia.
  change (Spec.floatOfNat 0 / 255)%float with 0%float. rewrite H. reflexivity.
Qed.

(** The scenario of gamma 2.0 (slider at 60) and the pixel (255, 128, 0):
    the table sends 255 to 255, 128 to 64 and 0 to 0. *)
Example gamma_2_orange_pixel :
  Gif.encodePixel
    (gammaTable (snd (Gif.updateGamma Examples.pow_sample 60 Examples.loaded)))
    (Gif.Rgb (Some 255) (Some 128) (Some 0))
  = Normal "FF4000".
Proof. vm_compute. reflexivity. Qed.

(** C5, amended.  In each variant the gamma table has the entry
    round(255 * (i/255)^e) at every index i below 256, for the exponent e of
    that variant: the first variant raises to the gamma that it displays,
    MIN_GAMMA + slider*(MAX_GAMMA-MIN_GAMMA)/100; the second variant displays
    slider/100 and raises to 100/slider. *)
Theorem gamma_tables_follow_the_exponent_of_their_variant
  (pow : float -> float -> float) (i : nat)
  (v1 : float) (s1 : Gif.Session) (v2 : float) (s2 : Img.Session) :
  (i < 256)%nat ->
  nth_error (gammaTable (snd (Gif.updateGamma pow v1 s1))) i
  = Some (Math_round
            (255 * pow (Spec.floatOfNat i / 255)
                     (Gif.MIN_GAMMA + v1 * (Gif.MAX_GAMMA - Gif.MIN_GAMMA) / 100))%float)
  /\ nth_error (gammaTable (snd (Img.updateGamma pow v2 s2))) i
     = Some (Math_round (255 * pow (Spec.floatOfNat i / 255) (100 / v2))%float).
Proof.
  intros Hi. rewrite updateGamma_gif_table, updateGamma_img_table.
  split; apply gammaTableFor_entry; exact Hi.
Qed.

(** C5 as stated fails: at the displayed gamma 0.5 the first variant raises
    to 0.5 and the second to 2, and the tables differ. *)
Lemma gamma_tables_differ_at_the_same_display :
  ~ (forall (pow : float -> float -> float) (v1 v2 : float),
       Gif.gammaValueFromSlider v1 = Img.gammaDisplay v2 ->
       gammaTable (snd (Gif.updateGamma pow v1 Examples.loaded))
       = gammaTable (snd (Img.updateGamma pow v2 Examples.connectedImg))).
Proof.
  intros H. specialize (H Examples.pow_sample 0%float 50%float eq_refl).
  rewrite updateGamma_gif_table, updateGamma_img_table in H.
  apply (f_equal (fun t => nth_error t 64)) in H.
  vm_compute in H. discriminate H.
Qed.

End GammaFacts.

(** ** The order of the gamma table

    [255 * x] and [Math.round] keep the order of binary64 numbers, so the
    table rises wherever the host's [**] does.  The order is read on the
    exact values, [Binary64.scaled]. *)

Section GammaOrder.

Import Binary64.










































End GammaOrder.

(** ** Rejecting a source of the wrong size *)

Section SizeFacts.

(** C6, amended.  A GIF whose logical screen descriptor is not 16x16 is
    rejected before any traffic: [sendGifAnimation] returns without an
    error, writes no line and leaves the session as it was. *)
Theorem sendGifAnimation_rejects_other_sizes
  (i : Gif.img) (gif : Gif.ParsedGif) (s : Gif.Session) :
  Gif.response i = Some gif ->
  Gif.lsd_width gif <> 16 \/ Gif.lsd_height gif <> 16 ->
  Gif.sendGifAnimation i s = (Normal tt, s).
Proof.
  intros Hr Hsize. unfold Gif.sendGifAnimation. rewrite Hr.
  unfold Gif.ROWS, Gif.COLS.
  destruct Hsize as [H|H]; apply Z.eqb_neq in H; rewrite H;
    [|rewrite orb_true_r]; reflexivity.
Qed.

(** C6 as stated fails for a static image: [sendImage] never looks at the
    size of the image, and an image of 8 by 8 pixels is sent as a complete
    animation of 20 lines. *)
Lemma sendImage_sends_other_sizes :
  Img.naturalWidth Examples.smallImage <> 16
  /\ fst (Img.sendImage Examples.smallImage Examples.connectedImg) = Normal tt
  /\ List.length
       (written (trace (snd (Img.sendImage Examples.smallImage
                               Examples.connectedImg))))
     = 20%nat.
Proof. split; [discriminate|]. split; vm_compute; reflexivity. Qed.

End SizeFacts.

(** ** The colour-correction command *)

Section ColorCorrectionFacts.

(** C8 fails on the code: with the three sliders at 0 the argument of [CLC]
    has three characters, not six.  [padStart] receives its arguments in the
    wrong order, so it never pads. *)
Lemma updateColorCorrection_does_not_pad :
  written (trace (snd (Img.updateColorCorrection 0 0 0 Examples.connectedImg)))
  = [("CLC 000" ++ Gif.newline)%string].
Proof. vm_compute. reflexivity. Qed.

(** Binary64 at work: 2.55 * 50 falls just below 127.5 and rounds to 127. *)
Example channelHex_half_scale : Img.channelHex 50 = "7f".
Proof. vm_compute. reflexivity. Qed.

(** With the sliders at 100 every channel needs two digits, and the command
    is the one that the table of commands describes. *)
Lemma updateColorCorrection_full_scale :
  written
    (trace (snd (Img.updateColorCorrection 100 100 100 Examples.connectedImg)))
  = [("CLC FFFFFF" ++ Gif.newline)%string].
Proof. vm_compute. reflexivity. Qed.

End ColorCorrectionFacts.

(** ** Worked examples *)

Section Worked.

Lemma sendAnimation_white_frame :
  Gif.sendAnimation Examples.whiteAnimation Examples.connected
  = (Normal tt,
     logged Examples.connected
       (Spec.sentLines (Spec.animationLines Examples.whiteAnimation)))
  /\ List.length (Spec.animationLines Examples.whiteAnimation) = 20%nat.
Proof.
  refine (let H := sendAnimation_writes_the_animation_in_order
                     Examples.whiteAnimation Examples.connected _ _ _ in
          conj (proj1 H) (proj2 (proj2 H))).
  - vm_compute. discriminate.
  - simpl. lia.
  - repeat constructor.
Defined.

Lemma Frame_orange_grid :
  exists rows : list string,
    Gif.Frame_new (map Int Examples.identityBytes) 1000
      (Spec.rgbGrid Examples.orangeGrid)
    = Normal (Gif.mkFrame 1000 rows)
    /\ List.length rows = 16%nat.
Proof.
  destruct (Frame_rows_are_the_padded_hex_of_the_pixels
              Examples.identityBytes) with (ms := 1000)
    (px := Examples.orangeGrid) as (rows & E & L & _).
  - reflexivity.
  - apply Forall_forall. intros z Hz. unfold Examples.identityBytes, upto in Hz.
    apply in_map_iff in Hz as (n & <- & Hn). apply in_seq in Hn.
    unfold Spec.isByte. simpl in Hn. lia.
  - reflexivity.
  - apply Forall_forall. intros row Hrow. apply repeat_spec in Hrow. subst row.
    split; [reflexivity|]. apply Forall_forall. intros p Hp.
    apply repeat_spec in Hp. subst p. unfold Spec.isPixel, Spec.isByte. lia.
  - exists rows. split; assumption.
Defined.

Lemma pipeThrough_reply :
  pipeThrough Gif.newline Examples.replyChunks = Examples.reply.
Proof.
  apply (pipeThrough_returns_the_lines Gif.newline Examples.reply
           Examples.replyChunks).
  - left. reflexivity.
  - discriminate.
  - repeat constructor; intros H; exact (contains_cut _ _ H eq_refl).
  - reflexivity.
Defined.

Lemma gamma_tables_at_index_64 :
  nth_error
    (gammaTable (snd (Gif.updateGamma Examples.pow_sample 0 Examples.loaded))) 64
  = Some (Int 128)
  /\ nth_error
       (gammaTable
          (snd (Img.updateGamma Examples.pow_sample 50 Examples.connectedImg))) 64
     = Some (Int 16).
Proof.
  destruct (gamma_tables_follow_the_exponent_of_their_variant
              Examples.pow_sample 64 0 Examples.loaded 50 Examples.connectedImg)
    as [H1 H2].
  - lia.
  - rewrite H1, H2. split; vm_compute; reflexivity.
Defined.

Lemma sendGifAnimation_wide_gif :
  Gif.sendGifAnimation (Gif.mkImg (Some Examples.wideGif)) Examples.connected
  = (Normal tt, Examples.connected).
Proof.
  apply (sendGifAnimation_rejects_other_sizes
           (Gif.mkImg (Some Examples.wideGif)) Examples.wideGif).
  - reflexivity.
  - left. simpl. lia.
Defined.

Lemma drawGifFrame_red_dot :
  exists next : Gif.grid,
    Gif.drawGifFrame Examples.redDot Gif.newPixels = Normal next
    /\ Spec.cellAt next 0 0
       = Some (Gif.Rgb (Some 255) (Some 0) (Some 0))
    /\ Spec.cellAt next 0 1 = Some Gif.Zero.
Proof.
  destruct (drawGifFrame_clears_then_copies Examples.redDot Gif.newPixels)
    as (next & E & _ & C).
  - split; [reflexivity|]. repeat constructor.
  - unfold Spec.fits. simpl. lia.
  - exists next. split; [exact E|].
    destruct (C 0 0 ltac:(lia) ltac:(lia)) as [Hin _].
    destruct (C 0 1 ltac:(lia) ltac:(lia)) as [_ Hout].
    split.
    + rewrite Hin; [reflexivity|]. unfold Spec.inPatch. simpl. lia.
    + apply Hout. unfold Spec.inPatch. simpl. lia.
Defined.

Lemma clock_1405_white_on_black :
  exists on off : list (list Gif.cell),
    Gif.digitalClockIterator 1 4 0 5 Examples.white Examples.black Examples.blue
    = Normal on
    /\ Gif.digitalClockIterator 1 4 0 5 Examples.white Examples.black
         Examples.black
       = Normal off
    /\ Spec.at_ on 6 7 = Some Examples.blue
    /\ Spec.at_ off 6 7 = Some Examples.black.
Proof.
  destruct (clock_1405_grids_differ_in_the_colon_only Gif.cell Examples.white
              Examples.black Examples.blue)
    as (on & off & E1 & E2 & _ & _ & H).
  - discriminate.
  - exists on, off. split; [exact E1|]. split; [exact E2|].
    destruct (H 6%nat 7%nat ltac:(lia) ltac:(lia)) as (x & y & Hx & Hy & Hc & _).
    destruct Hc as (-> & -> & _); [unfold Spec.colonCell; lia|].
    split; assumption.
Defined.

End Worked.

(** * Further properties of the code *)

(** ** The line splitter on arbitrary text *)

Section MoreLineFacts.

Lemma newline_nonempty : Gif.newline <> "".
Proof. discriminate. Qed.

Lemma carriageReturnNewline_nonempty : Img.carriageReturnNewline <> "".
Proof. discriminate. Qed.

Lemma delimiter_nonempty (sep : string) :
  sep = Gif.newline \/ sep = Img.carriageReturnNewline -> sep <> "".
Proof. intros [-> | ->]; discriminate. Qed.

(** Joining the pieces of a text with the separator gives the text back. *)
Lemma concat_split (sep s : string) :
  sep <> "" -> String.concat sep (split s sep) = s.
Proof.
  intros Hsep.
  remember (String.length s) as n eqn:Hn.
  assert (Hle : (String.length s <= n)%nat) by lia. clear Hn.
  revert s Hle; induction n as [|n IH]; intros s Hle;
    rewrite (split_eq sep Hsep s); destruct (cut sep s) as [[a b]|] eqn:C;
    try reflexivity.
  - pose proof (cut_shorter _ _ _ _ Hsep C). lia.
  - pose proof (cut_shorter _ _ _ _ Hsep C).
    pose proof (split_nonempty sep Hsep b) as Hb.
    specialize (IH b ltac:(lia)).
    destruct (split b sep) as [|x r] eqn:E; [congruence|].
    cbn [String.concat]. cbn [String.concat] in IH.
    rewrite IH. symmetry. apply cut_inv, C.
Qed.

(** The text before the leftmost separator holds no separator. *)
Lemma cut_before (sep s a b : string) :
  sep <> "" -> cut sep s = Some (a, b) -> cut sep a = None.
Proof.
  intros Hsep. revert a b; induction s as [|c s IH]; intros a b H;
    rewrite cut_eq in H.
  - destruct (String.prefix sep ""); [|discriminate].
    injection H as <- <-. apply cut_empty, Hsep.
  - destruct (String.prefix sep (String c s)) eqn:E.
    + injection H as <- <-. apply cut_empty, Hsep.
    + destruct (cut sep s) as [[a' b']|] eqn:C; [|discriminate].
      injection H as <- <-. rewrite cut_eq, (IH a' b' eq_refl).
      destruct (String.prefix sep (String c a')) eqn:E'; [|reflexivity].
      exfalso. rewrite (cut_inv _ _ _ _ C) in E.
      change (String c (a' ++ sep ++ b'))
        with (String c a' ++ (sep ++ b'))%string in E.
      rewrite (prefix_extend _ _ _ E') in E. discriminate.
Qed.

Lemma split_pieces (sep s : string) :
  sep <> "" -> Forall (fun l => cut sep l = None) (split s sep).
Proof.
  intros Hsep.
  remember (String.length s) as n eqn:Hn.
  assert (Hle : (String.length s <= n)%nat) by lia. clear Hn.
  revert s Hle; induction n as [|n IH]; intros s Hle;
    rewrite (split_eq sep Hsep s); destruct (cut sep s) as [[a b]|] eqn:C;
    try (constructor; [exact C | constructor]).
  - pose proof (cut_shorter _ _ _ _ Hsep C). lia.
  - pose proof (cut_shorter _ _ _ _ Hsep C).
    constructor; [exact (cut_before _ _ _ _ Hsep C) | apply IH; lia].
Qed.

(** X1.  Chunk boundaries do not matter for any text, whether or not it
    ends in a complete line: two ways of cutting the same text into chunks
    hand on the same lines, for each of the two delimiters. *)
Theorem pipeThrough_same_text_same_lines (sep : string)
  (chunks1 chunks2 : list string) :
  sep = Gif.newline \/ sep = Img.carriageReturnNewline ->
  join chunks1 = join chunks2 ->
  pipeThrough sep chunks1 = pipeThrough sep chunks2.
Proof.
  intros Hsep Hjoin. apply delimiter_nonempty in Hsep.
  rewrite !(pipeThrough_split sep Hsep). now rewrite Hjoin.
Qed.

Lemma pipeThrough_same_text_witness :
  pipeThrough Gif.newline ["ab"; ("c" ++ Gif.newline ++ "d")%string]
  = pipeThrough Gif.newline [("abc" ++ Gif.newline)%string; ""; "d"].
Proof.
  apply (pipeThrough_same_text_same_lines Gif.newline).
  - left. reflexivity.
  - reflexivity.
Defined.

(** X2.  Nothing is lost and nothing is added: the lines handed on, joined
    again by the delimiter, are the text that was fed in, character for
    character. *)
Theorem pipeThrough_loses_nothing (chunks : list string) :
  String.concat Gif.newline (pipeThrough Gif.newline chunks) = join chunks
  /\ String.concat Img.carriageReturnNewline
       (pipeThrough Img.carriageReturnNewline chunks)
     = join chunks.
Proof.
  split.
  - rewrite (pipeThrough_split _ newline_nonempty).
    apply concat_split, newline_nonempty.
  - rewrite (pipeThrough_split _ carriageReturnNewline_nonempty).
    apply concat_split, carriageReturnNewline_nonempty.
Qed.

(** X3.  No line that is handed on contains the delimiter, whatever the
    text and the chunks. *)
Theorem pipeThrough_lines_hold_no_delimiter (chunks : list string) :
  Forall (fun l => ~ Spec.contains Gif.newline l)
    (pipeThrough Gif.newline chunks)
  /\ Forall (fun l => ~ Spec.contains Img.carriageReturnNewline l)
       (pipeThrough Img.carriageReturnNewline chunks).
Proof.
  split.
  - rewrite (pipeThrough_split _ newline_nonempty).
    eapply Forall_impl; [|apply split_pieces, newline_nonempty].
    intros l Hl Hc. exact (contains_cut _ _ Hc Hl).
  - rewrite (pipeThrough_split _ carriageReturnNewline_nonempty).
    eapply Forall_impl; [|apply split_pieces, carriageReturnNewline_nonempty].
    intros l Hl Hc. exact (contains_cut _ _ Hc Hl).
Qed.

Lemma last_app_nonempty {A : Type} (l r : list A) (d : A) :
  r <> [] -> last (l ++ r) d = last r d.
Proof.
  intros Hr. induction l as [|a l IH]; [reflexivity|].
  cbn [app]. destruct (l ++ r) as [|x t] eqn:E.
  - apply app_eq_nil in E. destruct E. congruence.
  - exact IH.
Qed.

(** Before the flush: the queue holds every piece of the text so far but
    the last, which the transformer keeps. *)
Lemma feed_split (sep : string) (chunks : list string)
  (this : LineBreakTransformer) (controller : list string) :
  sep <> "" -> cut sep (container this) = None ->
  feed sep chunks this controller
  = (mkTransformer (last (split (container this ++ join chunks) sep) ""),
     controller ++ removelast (split (container this ++ join chunks) sep)).
Proof.
  intros Hsep. revert this controller; induction chunks as [|chunk rest IH];
    intros this controller Hc.
  - simpl. rewrite append_nil_r, (split_eq sep Hsep), Hc.
    destruct this. cbn [last removelast container]. now rewrite app_nil_r.
  - cbn [feed join fold_right]. unfold transform_with.
    rewrite (pop_split sep Hsep).
    rewrite IH by (apply (cut_last sep Hsep)). cbn [container].
    rewrite <- (append_assoc (container this) chunk).
    rewrite (split_append sep Hsep (container this ++ chunk)).
    pose proof (split_nonempty sep Hsep
                  (last (split (container this ++ chunk) sep) ""
                   ++ fold_right append "" rest)) as Hne.
    rewrite last_app_nonempty, removelast_app by exact Hne.
    now rewrite app_assoc.
Qed.

(** X4.  A line is handed on as soon as its delimiter has arrived, and not
    before: after any chunks, before the flush, the queue holds exactly the
    pieces of the text so far but the last, and the transformer keeps the
    last piece for the chunks that follow. *)
Theorem feed_hands_on_the_complete_lines (sep : string)
  (chunks : list string) :
  sep = Gif.newline \/ sep = Img.carriageReturnNewline ->
  feed sep chunks LineBreakTransformer_new []
  = (mkTransformer (last (split (join chunks) sep) ""),
     removelast (split (join chunks) sep)).
Proof.
  intros Hsep. apply delimiter_nonempty in Hsep.
  exact (feed_split sep chunks LineBreakTransformer_new [] Hsep
           (cut_empty sep Hsep)).
Qed.

Lemma feed_hands_on_the_complete_lines_witness :
  feed Gif.newline ["O"; ("K" ++ Gif.newline ++ "v1")%string; ".0"]
    LineBreakTransformer_new []
  = (mkTransformer "v1.0", ["OK"]).
Proof.
  rewrite (feed_hands_on_the_complete_lines Gif.newline
             ["O"; ("K" ++ Gif.newline ++ "v1")%string; ".0"]
             (or_introl eq_refl)).
  vm_compute. reflexivity.
Defined.

End MoreLineFacts.

(** ** More on the encoders *)

Section MoreEncoderFacts.

Import Gif.

(** X5.  [paddedHex] never truncates: for every non-negative number and
    every width, the digits read back as the number, and there are at least
    [width] of them. *)
Theorem paddedHex_reads_back (v width : Z) :
  0 <= v ->
  Spec.hexValue 0 (paddedHex v width) = Some v
  /\ (Z.to_nat width <= String.length (paddedHex v width))%nat.
Proof.
  intros Hv.
  unfold paddedHex, padStart_call, ToLength, ToString, padStart, toString16.
  replace (v <? 0) with false by (symmetry; apply Z.ltb_ge; lia).
  set (d := digits16 _ v).
  assert (Hval : Spec.hexValue 0 (toUpperCase d) = Some v).
  { apply digits16_value. split; [lia | apply enough_fuel; lia]. }
  destruct (Z.to_nat width <=? String.length d)%nat eqn:E.
  - apply Nat.leb_le in E. rewrite length_toUpperCase. split; [exact Hval | lia].
  - apply Nat.leb_gt in E.
    rewrite toUpperCase_append, toUpperCase_filler_zeros.
    rewrite length_append, length_filler_zeros, length_toUpperCase, filler_zeros.
    split; [exact Hval | lia].
Qed.

Lemma paddedHex_reads_back_witness :
  Spec.hexValue 0 (paddedHex 16777216 6) = Some 16777216
  /\ (6 <= String.length (paddedHex 16777216 6))%nat.
Proof. apply (paddedHex_reads_back 16777216 6). lia. Defined.

Lemma mapC_forallb {A B : Type} (p : A -> bool) (f : A -> completion B)
  (l : list A) :
  (forall a, p a = true -> exists b, f a = Normal b) ->
  (forall a, p a = false -> f a = Throw TypeError) ->
  if forallb p l
  then exists bs : list B, mapC f l = Normal bs /\ List.length bs = List.length l
  else mapC f l = Throw TypeError.
Proof.
  intros Hok Hbad. induction l as [|a l IH]; cbn [forallb mapC].
  - exists []. split; reflexivity.
  - destruct (p a) eqn:Ea; cbn [andb].
    + destruct (Hok a Ea) as [b Hb]. rewrite Hb. cbn [andThen].
      destruct (forallb p l).
      * destruct IH as (bs & -> & Hlen). exists (b :: bs).
        split; [reflexivity | simpl; now rewrite Hlen].
      * rewrite IH. reflexivity.
    + rewrite (Hbad a Ea). reflexivity.
Qed.

Lemma encodeRow_cases (table : list Num) (row : list cell) :
  if forallb Spec.isTriple row
  then exists line : string, encodeRow table row = Normal line
  else encodeRow table row = Throw TypeError.
Proof.
  unfold encodeRow.
  pose proof (mapC_forallb Spec.isTriple (encodePixel table) row) as H.
  destruct (forallb Spec.isTriple row).
  - destruct H as (groups & -> & _).
    + intros [| |r g b] Ha; try discriminate. eexists. reflexivity.
    + intros [| |r g b] Ha; try discriminate; reflexivity.
    + eexists. reflexivity.
  - rewrite H; [reflexivity| |].
    + intros [| |r g b] Ha; try discriminate. eexists. reflexivity.
    + intros [| |r g b] Ha; try discriminate; reflexivity.
Qed.

(** X6.  Under any gamma table, [new Frame] succeeds exactly when every cell
    of the pixel array is a three-element array; it then has one row string
    per row of the array and the duration it was given.  A single hole or
    number among the cells makes it throw a [TypeError]. *)
Theorem Frame_new_needs_triples (table : list Num) (ms : Z) (pixels : grid) :
  if forallb (forallb Spec.isTriple) pixels
  then exists rows : list string,
         Frame_new table ms pixels = Normal (mkFrame ms rows)
         /\ List.length rows = List.length pixels
  else Frame_new table ms pixels = Throw TypeError.
Proof.
  unfold Frame_new.
  pose proof (mapC_forallb (forallb Spec.isTriple) (encodeRow table) pixels)
    as H.
  assert (Hok : forall row, forallb Spec.isTriple row = true ->
                            exists line, encodeRow table row = Normal line).
  { intros row Hrow. pose proof (encodeRow_cases table row) as C.
    now rewrite Hrow in C. }
  assert (Hbad : forall row, forallb Spec.isTriple row = false ->
                             encodeRow table row = Throw TypeError).
  { intros row Hrow. pose proof (encodeRow_cases table row) as C.
    now rewrite Hrow in C. }
  specialize (H Hok Hbad).
  destruct (forallb (forallb Spec.isTriple) pixels).
  - destruct H as (rows & -> & Hlen). exists rows. split; [reflexivity | exact Hlen].
  - rewrite H. reflexivity.
Qed.

End MoreEncoderFacts.

(** ** The second variant: images and the checkbox grid *)

Section MoreImgFacts.

Implicit Types s : Img.Session.

Lemma toUpperCase_join (l : list string) :
  toUpperCase (join l) = join (map toUpperCase l).
Proof.
  induction l as [|x l IH]; simpl; [reflexivity|].
  now rewrite toUpperCase_append, IH.
Qed.

Lemma forEach_table_lines {A : Type} (F : list Num -> A -> string)
  (l : list A) s :
  outputStream s <> None ->
  forEach l (fun a => table <- get gammaTable ;; writeToStream [F table a]) s
  = (Normal tt, logged s (Spec.sentLines (map (F (gammaTable s)) l))).
Proof.
  revert s; induction l as [|a l IH]; intros s Hs; simpl.
  - now rewrite logged_nil.
  - erewrite bind_normal.
    2:{ unfold bind at 1, get. apply writeToStream_open. exact Hs. }
    rewrite IH by exact Hs. now rewrite logged_logged.
Qed.

(** The rows that [sendImage] writes after [RGB]. *)
Lemma sendImage_open (i : Img.img) s :
  outputStream s <> None ->
  Img.sendImage i s
  = (Normal tt,
     logged s
       (Spec.sentLines
          (["ANM 600000"; "FRM 1000"]
           ++ map (fun r =>
                     ("RGB "
                      ++ toUpperCase
                           (join (map (fun c =>
                                         Img.pixelHex (gammaTable s)
                                           (Img.imageData i)
                                           ((r * Img.COLS + c) * 4))
                                    (upto Img.COLS))))%string)
                (upto Img.ROWS)
           ++ ["DON"; "NXT"]))).
Proof.
  intros Hs. unfold Img.sendImage.
  erewrite bind_normal by (apply writeToStream_open; exact Hs).
  erewrite bind_normal.
  2:{ apply (forEach_table_lines
               (fun table r =>
                  ("RGB "
                   ++ toUpperCase
                        (join (map (fun c =>
                                      Img.pixelHex table (Img.imageData i)
                                        ((r * Img.COLS + c) * 4))
                                 (upto Img.COLS))))%string)).
      exact Hs. }
  rewrite writeToStream_open by exact Hs.
  rewrite !logged_logged, !sentLines_app. reflexivity.
Qed.

Lemma Frame_new_bitmapGrid (table : list Num) (ms : Z) (bitmap : list Z) :
  Gif.Frame_new table ms (Spec.bitmapGrid bitmap)
  = Normal
      (Gif.mkFrame ms
         (map (fun r =>
                 toUpperCase
                   (join (map (fun c =>
                                 Img.pixelHex table bitmap ((r * 16 + c) * 4))
                            (upto 16))))
            (upto 16))).
Proof.
  unfold Gif.Frame_new, Spec.bitmapGrid.
  erewrite mapC_map; [reflexivity|].
  apply Forall_forall. intros r _. unfold Gif.encodeRow.
  erewrite mapC_map.
  2:{ apply Forall_forall. intros c _. cbn [Gif.encodePixel]. reflexivity. }
  cbn [andThen]. rewrite toUpperCase_join, map_map. reflexivity.
Qed.

(** X7.  The two variants agree on the wire: with the output stream open,
    [sendImage] writes exactly the 20 lines that [sendAnimation] of the first
    variant writes for an animation held 600000 ms whose only frame, of
    1000 ms, is the one that [new Frame] builds from the same 16x16 pixels
    under the same gamma table. *)
Theorem sendImage_agrees_with_Frame (i : Img.img) s :
  outputStream s <> None ->
  exists f : Gif.Frame,
    Gif.Frame_new (gammaTable s) 1000 (Spec.bitmapGrid (Img.imageData i))
    = Normal f
    /\ Img.sendImage i s
       = (Normal tt,
          logged s
            (Spec.sentLines
               (Spec.animationLines (Gif.mkAnimation 600000 [f]))))
    /\ List.length (Spec.animationLines (Gif.mkAnimation 600000 [f])) = 20%nat.
Proof.
  intros Hs. eexists. split; [apply Frame_new_bitmapGrid|]. split.
  - rewrite (sendImage_open i s Hs). reflexivity.
  - reflexivity.
Qed.

Lemma sendImage_agrees_with_Frame_witness :
  exists f : Gif.Frame,
    Gif.Frame_new Examples.identityTable 1000
      (Spec.bitmapGrid (Img.imageData Examples.smallImage))
    = Normal f
    /\ Img.sendImage Examples.smallImage Examples.connectedImg
       = (Normal tt,
          logged Examples.connectedImg
            (Spec.sentLines
               (Spec.animationLines (Gif.mkAnimation 600000 [f])))).
Proof.
  destruct (sendImage_agrees_with_Frame Examples.smallImage
              Examples.connectedImg) as (f & E & H & _).
  - discriminate.
  - exists f. split; [exact E | exact H].
Defined.

Lemma forEach_ext {Img A : Type} (l : list A) (f g : A -> M Img unit)
  (s : Session Img) :
  (forall a t, In a l -> f a t = g a t) -> forEach l f s = forEach l g s.
Proof.
  revert s; induction l as [|a l IH]; intros s H; [reflexivity|].
  cbn [forEach]. unfold bind. rewrite (H a s (or_introl eq_refl)).
  destruct (g a s) as [[u|e] s1]; [|reflexivity].
  apply IH. intros b t Hb. apply H. right. exact Hb.
Qed.

Lemma in_upto (n x : Z) : In x (upto n) -> 0 <= x < n.
Proof.
  unfold upto. intros H. apply in_map_iff in H as (k & <- & Hk).
  apply in_seq in Hk. lia.
Qed.

(** X8.  [sendImage] reads nothing but the red, green and blue bytes of the
    256 pixels: two images whose canvas data agree on those 768 bytes are
    sent alike, whatever their alpha bytes and whatever their own width and
    height. *)
Theorem sendImage_reads_only_the_colour_bytes (i1 i2 : Img.img) s :
  (forall k d : Z, 0 <= k < 256 -> 0 <= d < 3 ->
     index (Img.imageData i1) (Some (k * 4 + d))
     = index (Img.imageData i2) (Some (k * 4 + d))) ->
  Img.sendImage i1 s = Img.sendImage i2 s.
Proof.
  intros H. unfold Img.sendImage.
  unfold bind at 1. unfold bind at 3.
  destruct (writeToStream ["ANM 600000"; "FRM 1000"] s) as [[u|e] s1];
    [|reflexivity].
  unfold bind at 1. unfold bind at 3.
  rewrite (forEach_ext (upto Img.ROWS) _
             (fun r =>
                table <- get gammaTable ;;
                writeToStream
                  [("RGB "
                    ++ toUpperCase
                         (join (map (fun c =>
                                       Img.pixelHex table (Img.imageData i2)
                                         ((r * Img.COLS + c) * 4))
                                  (upto Img.COLS))))%string])); [reflexivity|].
  intros r t Hr. apply in_upto in Hr. unfold bind, get.
  f_equal. f_equal. f_equal. f_equal. f_equal.
  apply map_ext_in. intros c Hc. apply in_upto in Hc.
  unfold Img.pixelHex, Img.ROWS, Img.COLS in *.
  pose proof (H (r * 16 + c) 0 ltac:(lia) ltac:(lia)) as H0.
  pose proof (H (r * 16 + c) 1 ltac:(lia) ltac:(lia)) as H1.
  pose proof (H (r * 16 + c) 2 ltac:(lia) ltac:(lia)) as H2.
  rewrite Z.add_0_r in H0. rewrite H0, H1, H2. reflexivity.
Qed.

Lemma upto_in (n x : Z) : 0 <= x < n -> In x (upto n).
Proof.
  intros H. unfold upto. apply in_map_iff. exists (Z.to_nat x).
  split; [lia|]. apply in_seq. lia.
Qed.

Lemma sameColours_spec (b1 b2 : list Z) :
  Spec.sameColours b1 b2 = true ->
  forall k d : Z, 0 <= k < 256 -> 0 <= d < 3 ->
    index b1 (Some (k * 4 + d)) = index b2 (Some (k * 4 + d)).
Proof.
  unfold Spec.sameColours. intros H k d Hk Hd.
  rewrite forallb_forall in H. specialize (H k (upto_in 256 k Hk)).
  rewrite forallb_forall in H. specialize (H d (upto_in 3 d Hd)).
  unfold Spec.sameByte in H.
  destruct (index b1 (Some (k * 4 + d))) as [x|],
           (index b2 (Some (k * 4 + d))) as [y|]; try discriminate;
    [apply Z.eqb_eq in H; now subst | reflexivity].
Qed.

Lemma sendImage_reads_only_the_colour_bytes_witness :
  Img.sendImage Examples.smallImage Examples.connectedImg
  = Img.sendImage Examples.opaqueImage Examples.connectedImg.
Proof.
  apply (sendImage_reads_only_the_colour_bytes Examples.smallImage
           Examples.opaqueImage).
  apply sameColours_spec. vm_compute. reflexivity.
Defined.

Lemma firstn_skipn_exact {A : Type} (l r : list A) (n : nat) :
  List.length l = n -> firstn n (l ++ r) = l /\ skipn n (l ++ r) = r.
Proof.
  revert n; induction l as [|a l IH]; intros n Hn; simpl in Hn; subst n.
  - split; reflexivity.
  - destruct (IH (List.length l) eq_refl) as [F S]. simpl.
    rewrite F, S. split; reflexivity.
Qed.

Lemma rem_16 (q x : Z) :
  0 <= q -> 0 <= x <= 16 -> (Z.rem (16 * q + x) 16 =? 0) = (x =? 0) || (x =? 16).
Proof.
  intros Hq Hx. rewrite Z.rem_mod_nonneg by lia.
  replace (16 * q + x) with (x + q * 16) by lia. rewrite Z.mod_add by lia.
  destruct (Z.eq_dec x 16) as [->|Hne].
  - reflexivity.
  - rewrite Z.mod_small by lia.
    replace (x =? 16) with false by (symmetry; apply Z.eqb_neq; lia).
    now rewrite orb_false_r.
Qed.

Lemma sendGrid_loop_open (rest pending : list bool) (q : Z) (s : Img.Session) :
  outputStream s <> None -> 0 <= q -> (List.length pending < 16)%nat ->
  Img.sendGrid_loop rest (16 * q + Z.of_nat (List.length pending))
    (map (fun checked : bool => if checked then "FFFFFF" else "000000") pending)
    s
  = (Normal tt,
     logged s
       (Spec.sentLines
          (map Spec.checkboxLine
             (Spec.groups16
                ((List.length pending + List.length rest) / 16)%nat
                (pending ++ rest))))).
Proof.
  revert pending q s; induction rest as [|c rest IH]; intros pending q s Hs Hq Hp.
  - cbn [Img.sendGrid_loop List.length]. rewrite Nat.add_0_r, Nat.div_small by lia.
    cbn [Spec.groups16 map Spec.sentLines]. now rewrite logged_nil.
  - cbn [Img.sendGrid_loop]. unfold Img.COLS.
    replace (16 * q + Z.of_nat (List.length pending) + 1)
      with (16 * q + Z.of_nat (List.length (pending ++ [c])))
      by (rewrite length_app; simpl; lia).
    rewrite rem_16 by (try rewrite length_app; simpl; lia).
    replace (Z.of_nat (List.length (pending ++ [c])) =? 0) with false
      by (symmetry; apply Z.eqb_neq; rewrite length_app; simpl; lia).
    cbn [orb].
    replace (map (fun checked : bool => if checked then "FFFFFF" else "000000")
               pending ++ [if c then "FFFFFF" else "000000"])
      with (map (fun checked : bool => if checked then "FFFFFF" else "000000")
              (pending ++ [c])) by (now rewrite map_app).
    replace (pending ++ c :: rest) with ((pending ++ [c]) ++ rest)
      by (now rewrite <- app_assoc).
    replace (List.length pending + List.length (c :: rest))%nat
      with (List.length (pending ++ [c]) + List.length rest)%nat
      by (rewrite length_app; simpl; lia).
    destruct (Z.of_nat (List.length (pending ++ [c])) =? 16) eqn:E.
    + apply Z.eqb_eq in E.
      assert (L : List.length (pending ++ [c]) = 16%nat) by lia.
      erewrite bind_normal by (apply writeToStream_open; exact Hs).
      rewrite E.
      replace (16 * q + 16)
        with (16 * (q + 1) + Z.of_nat (List.length (@nil bool)))
        by (cbn [List.length Z.of_nat]; lia).
      change (@nil string)
        with (map (fun checked : bool => if checked then "FFFFFF" else "000000")
                (@nil bool)).
      rewrite (IH [] (q + 1)) by (simpl; first [exact Hs | lia]).
      rewrite logged_logged. rewrite L.
      replace ((16 + List.length rest) / 16)%nat
        with (S (List.length rest / 16))
        by (change (16 + List.length rest)%nat
              with (1 * 16 + List.length rest)%nat;
            rewrite Nat.div_add_l by lia; reflexivity).
      cbn [Spec.groups16].
      destruct (firstn_skipn_exact (pending ++ [c]) rest 16 L) as [F S].
      rewrite F, S. reflexivity.
    + apply Z.eqb_neq in E.
      apply IH; [exact Hs | exact Hq |].
      rewrite length_app in *. simpl in *. lia.
Qed.

(** X9.  With the output stream open, [sendGrid] writes [ANM 600000],
    [FRM 1000], one [RGB] line for every complete group of 16 checkboxes
    ([FFFFFF] for a checked box, [000000] for an unchecked one), then [DON]
    and [NXT].  Checkboxes after the last complete group are not sent. *)
Theorem sendGrid_sends_the_complete_rows (ledCBs : list bool) (s : Img.Session) :
  outputStream s <> None ->
  Img.sendGrid ledCBs s
  = (Normal tt,
     logged s
       (Spec.sentLines
          (["ANM 600000"; "FRM 1000"]
           ++ map Spec.checkboxLine
                (Spec.groups16 (List.length ledCBs / 16)%nat ledCBs)
           ++ ["DON"; "NXT"]))).
Proof.
  intros Hs. unfold Img.sendGrid.
  erewrite bind_normal by (apply writeToStream_open; exact Hs).
  erewrite bind_normal.
  2:{ apply (sendGrid_loop_open ledCBs [] 0); [exact Hs | lia | simpl; lia]. }
  rewrite writeToStream_open by exact Hs.
  rewrite !logged_logged, !sentLines_app. reflexivity.
Qed.

Lemma sendGrid_sends_the_complete_rows_witness :
  Img.sendGrid (repeat true 17) Examples.connectedImg
  = (Normal tt,
     logged Examples.connectedImg
       (Spec.sentLines
          ["ANM 600000"; "FRM 1000";
           ("RGB " ++ join (repeat "FFFFFF" 16))%string; "DON"; "NXT"])).
Proof.
  apply (sendGrid_sends_the_complete_rows (repeat true 17)
           Examples.connectedImg).
  discriminate.
Defined.

End MoreImgFacts.

(** ** More on playing a GIF *)

Section MoreGifFacts.

Import Gif.

Implicit Types s : Gif.Session.

Lemma drawGifFrame_cells (f : GifFrame) (prev : grid) :
  Spec.is16x16 prev -> Spec.fits (dims f) ->
  exists next : grid,
    drawGifFrame f prev = Normal next
    /\ Spec.is16x16 next
    /\ forall i j : Z, 0 <= i < 16 -> 0 <= j < 16 ->
         (Spec.inPatch (dims f) i j ->
          Spec.cellAt next i j = Some (Spec.patchPixel f i j))
         /\ (~ Spec.inPatch (dims f) i j -> Spec.cellAt next i j = Some Zero).
Proof.
  intros Hprev (Ht & Hh & Hl & Hw).
  destruct (clearPixels_16 prev Hprev) as [Hc Hzero].
  destruct (copy_rows
              (fun r c =>
                 Rgb (index (patch f) (Some ((r * width (dims f) + c) * 4)))
                   (index (patch f) (Some ((r * width (dims f) + c) * 4 + 1)))
                   (index (patch f) (Some ((r * width (dims f) + c) * 4 + 2))))
              (top (dims f)) (left (dims f))
              (upto (height (dims f))) (upto (width (dims f)))
              (clearPixels prev) Hc
              (upto_in_range _ _ Ht Hh) (upto_in_range _ _ Hl Hw))
    as (next & E & Hn & C).
  exists next. split; [exact E|]. split; [exact Hn|].
  intros i j Hi Hj. rewrite C, (Hzero i j Hi Hj). unfold Spec.inPatch.
  destruct (existsb (fun r => r + top (dims f) =? i) (upto (height (dims f))))
    eqn:Er;
    destruct (existsb (fun c => c + left (dims f) =? j) (upto (width (dims f))))
      eqn:Ec; cbn [andb].
  - apply existsb_upto in Er, Ec. split; [reflexivity | intros H; exfalso; lia].
  - split; [|reflexivity]. intros [_ H]. apply existsb_upto in H. congruence.
  - split; [|reflexivity]. intros [H _]. apply existsb_upto in H. congruence.
  - split; [|reflexivity]. intros [H _]. apply existsb_upto in H. congruence.
Qed.

Lemma nth_error_upto (n : Z) (k : nat) :
  Z.of_nat k < n -> nth_error (upto n) k = Some (Z.of_nat k).
Proof.
  intros H. unfold upto. rewrite nth_error_map.
  rewrite (nth_error_nth' _ O) by (rewrite length_seq; lia).
  rewrite seq_nth by lia. reflexivity.
Qed.

Lemma length_upto (n : Z) : List.length (upto n) = Z.to_nat n.
Proof. unfold upto. now rewrite length_map, length_seq. Qed.

Lemma cellAt_nat (g : grid) (i j : nat) :
  Spec.cellAt g (Z.of_nat i) (Z.of_nat j) = Spec.at_ g i j.
Proof.
  unfold Spec.cellAt, Spec.at_. rewrite index_nat.
  destruct (nth_error g i); [apply index_nat | reflexivity].
Qed.

Lemma patchGrid_16 (f : GifFrame) :
  Spec.is16x16 (Spec.patchGrid f)
  /\ forall i j : Z, 0 <= i < 16 -> 0 <= j < 16 ->
       Spec.cellAt (Spec.patchGrid f) i j = Some (Spec.patchPixel f i j).
Proof.
  unfold Spec.patchGrid. split.
  - split; [reflexivity|]. rewrite Forall_map. apply Forall_forall.
    intros i _. reflexivity.
  - intros i j Hi Hj.
    rewrite <- (Z2Nat.id i), <- (Z2Nat.id j) by lia.
    rewrite cellAt_nat. unfold Spec.at_.
    rewrite nth_error_map, nth_error_upto by lia. cbn [option_map].
    rewrite nth_error_map, nth_error_upto by lia. reflexivity.
Qed.

(** Two 16x16 grids with the same cells are the same grid. *)
Lemma grid_ext (g1 g2 : grid) :
  Spec.is16x16 g1 -> Spec.is16x16 g2 ->
  (forall i j : Z, 0 <= i < 16 -> 0 <= j < 16 ->
     Spec.cellAt g1 i j = Spec.cellAt g2 i j) ->
  g1 = g2.
Proof.
  intros [L1 R1] [L2 R2] H. apply nth_error_ext. intros n.
  destruct (Nat.lt_ge_cases n 16) as [Hn|Hn].
  - destruct (nth_error g1 n) as [r1|] eqn:E1;
      [|apply nth_error_None in E1; lia].
    destruct (nth_error g2 n) as [r2|] eqn:E2;
      [|apply nth_error_None in E2; lia].
    f_equal. rewrite Forall_nth_error_iff in R1, R2.
    pose proof (R1 n r1 E1) as Lr1. pose proof (R2 n r2 E2) as Lr2.
    apply nth_error_ext. intros m.
    destruct (Nat.lt_ge_cases m 16) as [Hm|Hm].
    + specialize (H (Z.of_nat n) (Z.of_nat m) ltac:(lia) ltac:(lia)).
      rewrite !cellAt_nat in H. unfold Spec.at_ in H. now rewrite E1, E2 in H.
    + transitivity (@None cell);
        [apply nth_error_None; lia | symmetry; apply nth_error_None; lia].
  - transitivity (@None (list cell));
      [apply nth_error_None; lia | symmetry; apply nth_error_None; lia].
Qed.

(** A patch that covers the screen replaces the grid. *)
Lemma drawGifFrame_covering (f : GifFrame) (prev : grid) :
  Spec.is16x16 prev -> Spec.covers (dims f) ->
  drawGifFrame f prev = Normal (Spec.patchGrid f).
Proof.
  intros Hprev (Ht & Hl & Hw & Hh).
  destruct (drawGifFrame_cells f prev Hprev) as (next & E & Hn & C).
  { unfold Spec.fits. lia. }
  rewrite E. f_equal. destruct (patchGrid_16 f) as [Hp Cp].
  apply grid_ext; [exact Hn | exact Hp |].
  intros i j Hi Hj. rewrite (Cp i j Hi Hj).
  apply (C i j Hi Hj). unfold Spec.inPatch. lia.
Qed.

Lemma mapC_length {A B : Type} (f : A -> completion B) (l : list A)
  (bs : list B) :
  mapC f l = Normal bs -> List.length bs = List.length l.
Proof.
  revert bs; induction l as [|a l IH]; intros bs H; cbn [mapC] in H.
  - injection H as <-. reflexivity.
  - destruct (f a) as [b|e]; [|discriminate]. cbn [andThen] in H.
    destruct (mapC f l) as [bs'|e]; [|discriminate]. cbn [andThen] in H.
    injection H as <-. simpl. now rewrite (IH bs' eq_refl).
Qed.

Lemma Frame_new_normal (table : list Num) (ms : Z) (g : grid) (fr : Frame) :
  Frame_new table ms g = Normal fr ->
  frame_duration fr = ms /\ List.length (frame_rows fr) = List.length g.
Proof.
  unfold Frame_new. intros H.
  destruct (mapC (encodeRow table) g) as [rows|e] eqn:E; [|discriminate].
  cbn [andThen] in H. injection H as <-.
  split; [reflexivity | exact (mapC_length _ _ _ E)].
Qed.

Lemma Frame_new_patchGrid (table : list Num) (ms : Z) (f : GifFrame) :
  exists fr : Frame, Frame_new table ms (Spec.patchGrid f) = Normal fr.
Proof.
  unfold Frame_new, Spec.patchGrid.
  erewrite mapC_map.
  - eexists. reflexivity.
  - apply Forall_forall. intros i _. unfold encodeRow.
    erewrite mapC_map; [reflexivity|].
    apply Forall_forall. intros j _. reflexivity.
Qed.

(** The loop over the frames of a GIF whose patches all cover the screen. *)
Lemma gifFrames_covering (fs : list GifFrame) (px : grid) (a : Animation) s :
  Spec.is16x16 px -> Forall (fun f => Spec.covers (dims f)) fs ->
  exists frs : list Frame,
    gifFrames fs px a s
    = (Normal (mkAnimation (anim_duration a) (anim_frames a ++ frs)), s)
    /\ Forall2 (fun gf fr =>
                  Frame_new (gammaTable s) (Spec.frameDelay gf)
                    (Spec.patchGrid gf) = Normal fr) fs frs.
Proof.
  intros Hpx Hall. revert px a Hpx.
  induction Hall as [|f fs Hf _ IH]; intros px a Hpx.
  - exists []. split; [|constructor]. cbn [gifFrames]. unfold ret.
    rewrite app_nil_r. destruct a; reflexivity.
  - destruct (Frame_new_patchGrid (gammaTable s) (Spec.frameDelay f) f)
      as [fr Hfr].
    destruct (IH (Spec.patchGrid f) (addFrame a fr) (proj1 (patchGrid_16 f)))
      as (frs & E & F2).
    exists (fr :: frs). split; [|constructor; assumption].
    cbn [gifFrames]. rewrite (drawGifFrame_covering f px Hpx Hf).
    unfold bind at 1, lift. unfold bind at 1, newFrame.
    unfold bind at 1, get, lift. fold (Spec.frameDelay f). rewrite Hfr.
    rewrite E. cbn [addFrame anim_duration anim_frames].
    now rewrite <- app_assoc.
Qed.

Lemma Forall2_rows_16 (table : list Num) (fs : list GifFrame) (frs : list Frame) :
  Forall2 (fun gf fr =>
             Frame_new table (Spec.frameDelay gf) (Spec.patchGrid gf)
             = Normal fr) fs frs ->
  List.length frs = List.length fs
  /\ Forall (fun fr => List.length (frame_rows fr) = 16%nat) frs
  /\ map frame_duration frs = map Spec.frameDelay fs.
Proof.
  induction 1 as [|gf fr fs frs H _ IH].
  - split; [reflexivity|]. split; constructor.
  - destruct IH as (L & R & D).
    destruct (Frame_new_normal _ _ _ _ H) as [Hd Hr].
    split; [simpl; now rewrite L|]. split.
    + constructor; [exact Hr | exact R].
    + simpl. now rewrite Hd, D.
Qed.

(** X10.  A 16x16 GIF whose frames all cover the whole screen is sent
    completely when the output stream is open: [ANM 600000], then for each
    GIF frame in order a frame with the delay of the GIF frame (1000 when it
    has none) encoded from the pixels of its own patch, then [DON] and
    [NXT]; 1 + 17 F + 2 lines for F frames. *)
Theorem sendGifAnimation_sends_covering_frames
  (i : img) (gif : ParsedGif) (fs : list GifFrame) s :
  response i = Some gif ->
  lsd_width gif = 16 -> lsd_height gif = 16 ->
  frames gif = Some fs ->
  Forall (fun f => Spec.covers (dims f)) fs ->
  outputStream s <> None ->
  exists frs : list Frame,
    Forall2 (fun gf fr =>
               Frame_new (gammaTable s) (Spec.frameDelay gf)
                 (Spec.patchGrid gf) = Normal fr) fs frs
    /\ sendGifAnimation i s
       = (Normal tt,
          logged s
            (Spec.sentLines (Spec.animationLines (mkAnimation 600000 frs))))
    /\ List.length (Spec.animationLines (mkAnimation 600000 frs))
       = (1 + List.length fs * (1 + 16) + 2)%nat.
Proof.
  intros Hr Hw Hh Hfs Hall Hs.
  destruct (gifFrames_covering fs newPixels (Animation_new 600000) s)
    as (frs & E & F2); [split; [reflexivity | repeat constructor] | exact Hall |].
  destruct (Forall2_rows_16 _ _ _ F2) as (L & R & _).
  exists frs. split; [exact F2|]. split.
  - unfold sendGifAnimation. rewrite Hr, Hw, Hh, Hfs. cbn [negb orb].
    change (16 =? ROWS) with true. change (16 =? COLS) with true. cbn [negb orb].
    erewrite bind_normal by exact E.
    apply sendAnimation_open. exact Hs.
  - unfold Spec.animationLines. cbn [anim_frames].
    rewrite !length_app, (length_frameLines frs R), L. simpl. lia.
Qed.

Lemma sendGifAnimation_sends_covering_frames_witness :
  List.length
    (written
       (trace (snd (sendGifAnimation (mkImg (Some Examples.fullGif))
                      (mkSession (Some tt) None None None None (Some tt)
                         Examples.identityTable None [])))))
  = 37%nat.
Proof.
  assert (Hall : Forall (fun f => Spec.covers (dims f))
                   [mkGifFrame (mkDims 0 0 16 16) (repeat 255 1024) (Some 100);
                    mkGifFrame (mkDims 0 0 16 16) (repeat 0 1024) None])
    by (repeat constructor).
  assert (Hs : outputStream
                 (mkSession (Some tt) None None None None (Some tt)
                    Examples.identityTable (@None img) [])
               <> None) by discriminate.
  destruct (sendGifAnimation_sends_covering_frames
              (mkImg (Some Examples.fullGif)) Examples.fullGif _ _
              eq_refl eq_refl eq_refl eq_refl Hall Hs)
    as (frs & _ & E & L).
  rewrite E. cbn [snd trace logged app].
  rewrite written_sentLines, length_map. exact L.
Defined.

Lemma Frame_new_throws (table : list Num) (ms : Z) (pixels : grid) :
  forallb (forallb Spec.isTriple) pixels = false ->
  Frame_new table ms pixels = Throw TypeError.
Proof.
  intros H. unfold Frame_new.
  pose proof (mapC_forallb (forallb Spec.isTriple) (encodeRow table) pixels)
    as C.
  rewrite H in C. rewrite C; [reflexivity| |].
  - intros row Hrow. pose proof (encodeRow_cases table row) as R.
    now rewrite Hrow in R.
  - intros row Hrow. pose proof (encodeRow_cases table row) as R.
    now rewrite Hrow in R.
Qed.

Lemma zero_cell_no_triples (g : grid) (i j : Z) :
  Spec.cellAt g i j = Some Zero -> forallb (forallb Spec.isTriple) g = false.
Proof.
  intros H. destruct (forallb (forallb Spec.isTriple) g) eqn:E; [|reflexivity].
  exfalso. rewrite forallb_forall in E. unfold Spec.cellAt, index in H.
  destruct (i <? 0); [discriminate|].
  destruct (nth_error g (Z.to_nat i)) as [row|] eqn:Er; [|discriminate].
  specialize (E row (nth_error_In _ _ Er)). rewrite forallb_forall in E.
  destruct (j <? 0); [discriminate|].
  specialize (E Zero (nth_error_In _ _ H)). discriminate.
Qed.

(** Building the animation touches nothing in the session. *)
Lemma gifFrames_session (fs : list GifFrame) (px : grid) (a : Animation) s :
  snd (gifFrames fs px a s) = s.
Proof.
  revert px a; induction fs as [|f fs IH]; intros px a; [reflexivity|].
  cbn [gifFrames]. unfold bind at 1, lift.
  destruct (drawGifFrame f px) as [next|e]; [|reflexivity].
  unfold bind at 1, newFrame. unfold bind at 1, get, lift.
  destruct (Frame_new (gammaTable s) _ next) as [fr|e]; [apply IH | reflexivity].
Qed.

Lemma gifFrames_gap (fs : list GifFrame) (px : grid) (a : Animation) s :
  Spec.is16x16 px ->
  Forall (fun f => Spec.fits (dims f)) fs ->
  Exists (fun f => Spec.leavesGap (dims f)) fs ->
  fst (gifFrames fs px a s) = Throw TypeError.
Proof.
  intros Hpx Hfits. revert px a Hpx.
  induction Hfits as [|f fs Hf _ IH]; intros px a Hpx Hgap.
  - inversion Hgap.
  - cbn [gifFrames]. unfold bind at 1, lift.
    destruct (drawGifFrame_cells f px Hpx Hf) as (next & E & Hn & C).
    rewrite E. unfold bind at 1, newFrame. unfold bind at 1, get, lift.
    destruct (Frame_new (gammaTable s) _ next) as [fr|[]] eqn:EF;
      [|reflexivity].
    inversion Hgap as [? ? Hhead | ? ? Htail]; subst.
    + exfalso. destruct Hhead as (i & j & Hi & Hj & Hout).
      destruct (C i j Hi Hj) as [_ Hz]. specialize (Hz Hout).
      rewrite (Frame_new_throws _ _ _ (zero_cell_no_triples _ _ _ Hz)) in EF.
      discriminate.
    + apply IH; assumption.
Qed.

Lemma newPixels_16 : Spec.is16x16 newPixels.
Proof. split; [reflexivity | repeat constructor]. Qed.

(** X11.  A GIF is not sent at all when one of its frames, all lying within
    the screen, has a patch that leaves a cell of the screen uncovered: the
    encoder throws a [TypeError] on the cleared cell, before the first line
    is written, even with the output stream open. *)
Theorem sendGifAnimation_throws_on_a_gap
  (i : img) (gif : ParsedGif) (fs : list GifFrame) s :
  response i = Some gif ->
  lsd_width gif = 16 -> lsd_height gif = 16 ->
  frames gif = Some fs ->
  Forall (fun f => Spec.fits (dims f)) fs ->
  Exists (fun f => Spec.leavesGap (dims f)) fs ->
  sendGifAnimation i s = (Throw TypeError, s).
Proof.
  intros Hr Hw Hh Hfs Hfits Hgap.
  unfold sendGifAnimation. rewrite Hr, Hw, Hh, Hfs.
  change (16 =? ROWS) with true. change (16 =? COLS) with true. cbn [negb orb].
  pose proof (gifFrames_gap fs newPixels (Animation_new 600000) s
                newPixels_16 Hfits Hgap) as H1.
  pose proof (gifFrames_session fs newPixels (Animation_new 600000) s) as H2.
  unfold bind.
  destruct (gifFrames fs newPixels (Animation_new 600000) s) as [c s1].
  cbn [fst snd] in H1, H2. now subst.
Qed.

Lemma sendGifAnimation_throws_on_a_gap_witness :
  sendGifAnimation Examples.twoFrames Examples.connected
  = (Throw TypeError, Examples.connected).
Proof.
  apply (sendGifAnimation_throws_on_a_gap Examples.twoFrames
           (mkParsedGif 16 16 (Some [Examples.whiteFrame; Examples.redDot]))
           [Examples.whiteFrame; Examples.redDot]);
    try reflexivity.
  - repeat constructor; unfold Spec.fits; simpl; lia.
  - apply Exists_cons_tl, Exists_cons_hd.
    exists 0, 1. unfold Spec.inPatch. simpl. lia.
Defined.

Lemma foldC_throws {A St : Type} (P : St -> Prop)
  (f : St -> A -> completion St) (l : list A) (a : A) (st : St) :
  P st ->
  (forall (u : St) (x : A) (u' : St), P u -> f u x = Normal u' -> P u') ->
  In a l ->
  (forall u : St, P u -> f u a = Throw TypeError) ->
  foldC f l st = Throw TypeError.
Proof.
  intros Hs Hkeep Hin Hbad. revert st Hs.
  induction l as [|x l IH]; intros st Hs; [destruct Hin|].
  cbn [foldC]. destruct (f st x) as [st'|[]] eqn:E; [|reflexivity].
  cbn [andThen]. destruct Hin as [->|Hin].
  - rewrite (Hbad st Hs) in E. discriminate.
  - apply IH; [exact Hin | eapply Hkeep; eassumption].
Qed.

Lemma foldC_keeps {A St : Type} (P : St -> Prop)
  (f : St -> A -> completion St) (l : list A) (st st' : St) :
  (forall (u : St) (x : A) (u' : St), P u -> f u x = Normal u' -> P u') ->
  P st -> foldC f l st = Normal st' -> P st'.
Proof.
  intros Hkeep. revert st; induction l as [|x l IH]; intros st Hs H;
    cbn [foldC] in H.
  - injection H as <-. exact Hs.
  - destruct (f st x) as [s1|e] eqn:E; [|discriminate].
    cbn [andThen] in H. eapply IH; [|exact H]. eapply Hkeep; eassumption.
Qed.

Lemma length_assign_inside {A : Type} (hole : A) (l : list A) (i : Z) (v : A) :
  0 <= i < Z.of_nat (List.length l) ->
  List.length (assign hole l i v) = List.length l.
Proof. intros H. apply (index_assign hole l i v H). Qed.

Lemma setPixel_rows (g g' : grid) (i j : Z) (v : cell) :
  List.length g = 16%nat -> setPixel g i j v = Normal g' ->
  List.length g' = 16%nat.
Proof.
  unfold setPixel. intros L H.
  destruct (index g (Some i)) as [row|] eqn:E; [|discriminate].
  injection H as <-. rewrite length_assign_inside; [exact L|].
  unfold index in E. destruct (i <? 0) eqn:Ei; [discriminate|].
  apply Z.ltb_ge in Ei.
  assert (Z.to_nat i < List.length g)%nat
    by (apply nth_error_Some; congruence). lia.
Qed.

Lemma setPixel_off_screen (g : grid) (i j : Z) (v : cell) :
  List.length g = 16%nat -> ~ 0 <= i < 16 ->
  setPixel g i j v = Throw TypeError.
Proof.
  unfold setPixel, index. intros L H.
  destruct (i <? 0) eqn:Ei; [reflexivity|]. apply Z.ltb_ge in Ei.
  replace (nth_error g (Z.to_nat i)) with (@None (list cell));
    [reflexivity|]. symmetry. apply nth_error_None. lia.
Qed.

Lemma drawGifFrame_rows (f : GifFrame) (prev next : grid) :
  List.length prev = 16%nat -> drawGifFrame f prev = Normal next ->
  List.length next = 16%nat.
Proof.
  unfold drawGifFrame, copyPatch. intros L H.
  eapply (foldC_keeps (fun g : grid => List.length g = 16%nat)); [| |exact H].
  - intros g r g' Hg Hr.
    eapply (foldC_keeps (fun g : grid => List.length g = 16%nat));
      [| exact Hg | exact Hr].
    intros g0 c g1 Hg0 Hc. cbv beta zeta in Hc.
    eapply setPixel_rows; eassumption.
  - unfold clearPixels. now rewrite length_map.
Qed.

Lemma drawGifFrame_off_screen (f : GifFrame) (prev : grid) :
  List.length prev = 16%nat -> Spec.leavesScreen (dims f) ->
  drawGifFrame f prev = Throw TypeError.
Proof.
  intros L (Hw & r & Hr & Hout). unfold drawGifFrame, copyPatch.
  apply (foldC_throws (fun g : grid => List.length g = 16%nat) _ _ r).
  - unfold clearPixels. now rewrite length_map.
  - intros g x g' Hg Hx.
    eapply (foldC_keeps (fun g : grid => List.length g = 16%nat));
      [| exact Hg | exact Hx].
    intros g0 c g1 Hg0 Hc. cbv beta zeta in Hc.
    eapply setPixel_rows; eassumption.
  - apply upto_in. exact Hr.
  - intros g Hg.
    apply (foldC_throws (fun g : grid => List.length g = 16%nat) _ _ 0).
    + exact Hg.
    + intros g0 c g1 Hg0 Hc. cbv beta zeta in Hc.
    eapply setPixel_rows; eassumption.
    + apply upto_in. lia.
    + intros g0 Hg0. cbv beta zeta. apply setPixel_off_screen; assumption.
Qed.

Lemma gifFrames_off_screen (fs : list GifFrame) (px : grid) (a : Animation) s :
  List.length px = 16%nat ->
  Exists (fun f => Spec.leavesScreen (dims f)) fs ->
  fst (gifFrames fs px a s) = Throw TypeError.
Proof.
  intros Hpx Hex. revert px a Hpx.
  induction Hex as [f fs Hf | f fs _ IH]; intros px a Hpx.
  - cbn [gifFrames]. unfold bind at 1, lift.
    now rewrite (drawGifFrame_off_screen f px Hpx Hf).
  - cbn [gifFrames]. unfold bind at 1, lift.
    destruct (drawGifFrame f px) as [next|[]] eqn:E; [|reflexivity].
    unfold bind at 1, newFrame. unfold bind at 1, get, lift.
    destruct (Frame_new (gammaTable s) _ next) as [fr|[]]; [|reflexivity].
    apply IH. eapply drawGifFrame_rows; eassumption.
Qed.

(** X12.  A GIF is not sent at all when one of its frames has a patch with
    a pixel above the first or below the last row of the screen: the
    assignment into the missing row throws a [TypeError] before the first
    line is written.  The size check on the logical screen does not catch
    it. *)
Theorem sendGifAnimation_throws_off_screen
  (i : img) (gif : ParsedGif) (fs : list GifFrame) s :
  response i = Some gif ->
  lsd_width gif = 16 -> lsd_height gif = 16 ->
  frames gif = Some fs ->
  Exists (fun f => Spec.leavesScreen (dims f)) fs ->
  sendGifAnimation i s = (Throw TypeError, s).
Proof.
  intros Hr Hw Hh Hfs Hex.
  unfold sendGifAnimation. rewrite Hr, Hw, Hh, Hfs.
  change (16 =? ROWS) with true. change (16 =? COLS) with true. cbn [negb orb].
  pose proof (gifFrames_off_screen fs newPixels (Animation_new 600000) s
                eq_refl Hex) as H1.
  pose proof (gifFrames_session fs newPixels (Animation_new 600000) s) as H2.
  unfold bind.
  destruct (gifFrames fs newPixels (Animation_new 600000) s) as [c s1].
  cbn [fst snd] in H1, H2. now subst.
Qed.

Lemma sendGifAnimation_throws_off_screen_witness :
  sendGifAnimation (mkImg (Some Examples.tallGif)) Examples.connected
  = (Throw TypeError, Examples.connected).
Proof.
  apply (sendGifAnimation_throws_off_screen (mkImg (Some Examples.tallGif))
           Examples.tallGif
           [mkGifFrame (mkDims 15 0 16 2) (repeat 255 128) (Some 100)]);
    try reflexivity.
  apply Exists_cons_hd. split; [simpl; lia|].
  exists 1. simpl. lia.
Defined.

End MoreGifFacts.

(** ** More on the session *)

Section MoreSessionFacts.

Import Gif.

Lemma sendAnimation_closed (anim : Animation) (s : Gif.Session) :
  outputStream s = None -> sendAnimation anim s = (Throw TypeError, s).
Proof.
  intros H. unfold sendAnimation. apply bind_throw, writeToStream_closed, H.
Qed.

Lemma sendGifAnimation_closed (i : img) (s : Gif.Session) :
  outputStream s = None -> snd (sendGifAnimation i s) = s.
Proof.
  intros H. unfold sendGifAnimation.
  destruct (response i) as [gif|]; [|reflexivity].
  destruct (negb (lsd_width gif =? ROWS) || negb (lsd_height gif =? COLS));
    [reflexivity|].
  destruct (frames gif) as [fs|]; [|reflexivity].
  unfold bind.
  pose proof (gifFrames_session fs newPixels (Animation_new 600000) s) as E.
  destruct (gifFrames fs newPixels (Animation_new 600000) s) as [[a|e] s1];
    cbn [snd] in E; subst s1; [|reflexivity].
  now rewrite (sendAnimation_closed a s H).
Qed.

Lemma newFrame_session (ms : Z) (px : grid) (s : Gif.Session) :
  snd (newFrame ms px s) = s.
Proof. reflexivity. Qed.

Lemma drawClockMinute_closed (hours minutes : Z) (fg bg colon : cell)
  (s : Gif.Session) :
  outputStream s = None ->
  snd (drawClockMinute hours minutes fg bg colon s) = s.
Proof.
  intros H. unfold drawClockMinute.
  unfold bind at 1, lift.
  destruct (digitalClockIterator _ _ _ _ fg bg colon) as [on|e]; [|reflexivity].
  unfold bind at 1, newFrame. unfold bind at 1, get, lift.
  destruct (Frame_new (gammaTable s) 500 on) as [f1|e]; [|reflexivity].
  unfold bind at 1.
  destruct (digitalClockIterator _ _ _ _ fg bg bg) as [off|e]; [|reflexivity].
  unfold bind at 1. unfold bind at 1.
  destruct (Frame_new (gammaTable s) 500 off) as [f2|e]; [|reflexivity].
  now rewrite (sendAnimation_closed _ s H).
Qed.

(** X13.  Without an output stream no sender writes a line or changes the
    session: [sendAnimation], [sendImage], [sendGrid] and
    [updateColorCorrection] throw a [TypeError] at their first write, and
    [sendGifAnimation] and [drawClockMinute] leave the session as it was
    whether they throw or return. *)
Theorem senders_write_nothing_without_a_stream
  (s1 : Gif.Session) (s2 : Img.Session)
  (anim : Animation) (i : img) (hours minutes : Z) (fg bg colon : cell)
  (im : Img.img) (ledCBs : list bool) (red green blue : float) :
  outputStream s1 = None -> outputStream s2 = None ->
  sendAnimation anim s1 = (Throw TypeError, s1)
  /\ snd (sendGifAnimation i s1) = s1
  /\ snd (drawClockMinute hours minutes fg bg colon s1) = s1
  /\ Img.sendImage im s2 = (Throw TypeError, s2)
  /\ Img.sendGrid ledCBs s2 = (Throw TypeError, s2)
  /\ Img.updateColorCorrection red green blue s2 = (Throw TypeError, s2).
Proof.
  intros H1 H2.
  split; [apply sendAnimation_closed, H1|].
  split; [apply sendGifAnimation_closed, H1|].
  split; [apply drawClockMinute_closed, H1|].
  split; [apply bind_throw, writeToStream_closed, H2|].
  split; [apply bind_throw, writeToStream_closed, H2|].
  apply writeToStream_closed, H2.
Qed.

Lemma senders_write_nothing_without_a_stream_witness :
  sendAnimation Examples.whiteAnimation Examples.loaded
  = (Throw TypeError, Examples.loaded)
  /\ snd (sendGifAnimation (mkImg (Some Examples.fullGif)) Examples.loaded)
     = Examples.loaded.
Proof.
  refine (let H := senders_write_nothing_without_a_stream Examples.loaded
                     (mkSession None None None None None None [] None [])
                     Examples.whiteAnimation (mkImg (Some Examples.fullGif))
                     14 5 Examples.white Examples.black Examples.blue
                     Examples.smallImage [] 0%float 0%float 0%float
                     eq_refl eq_refl in
          conj (proj1 H) (proj1 (proj2 H))).
Defined.

Lemma connect_opens (b : Browser) (s : Gif.Session) :
  Spec.handsPort b -> openPort b = true ->
  connect b s = (Normal tt, Spec.opened s).
Proof.
  intros Hb Ho. unfold connect.
  replace (if (grantedPorts b =? 1)%nat then true else requestPort b) with true.
  2:{ destruct Hb as [->| ->]; [reflexivity|].
      destruct (grantedPorts b =? 1)%nat; reflexivity. }
  rewrite Ho. destruct s as [p r i od ins o g c t].
  cbv [Spec.opened writeToStream deref bind get emit logged forEach ret
         set_reader set_inputDone set_inputStream set_outputStream
         set_outputDone set_port port reader inputDone outputDone inputStream
         outputStream gammaTable currentImage trace newline].
  rewrite <- ?app_assoc. reflexivity.
Qed.

Lemma connect_fails_to_open (b : Browser) (s : Gif.Session) :
  Spec.handsPort b -> openPort b = false ->
  connect b s = (Normal tt, Spec.withPort s).
Proof.
  intros Hb Ho. unfold connect.
  replace (if (grantedPorts b =? 1)%nat then true else requestPort b) with true.
  2:{ destruct Hb as [->| ->]; [reflexivity|].
      destruct (grantedPorts b =? 1)%nat; reflexivity. }
  rewrite Ho. reflexivity.
Qed.

(** X14.  The button toggles the connection.  From a session without a
    port and without a current image, a click with a browser that hands
    over a port which opens connects (the port is opened and an empty line,
    [RST], [VER] and [PWR] are written); the next click disconnects without
    an error and clears the port, so that the click after it connects
    again. *)
Theorem clickConnect_toggles (b b' : Browser) (s : Gif.Session) :
  port s = None -> currentImage s = None ->
  Spec.handsPort b -> openPort b = true ->
  clickConnect b s = (Normal tt, Spec.opened s)
  /\ clickConnect b' (Spec.opened s)
     = (Normal tt, Spec.disconnected (Spec.opened s))
  /\ clickConnect b (Spec.disconnected (Spec.opened s))
     = (Normal tt, Spec.opened (Spec.disconnected (Spec.opened s)))
  /\ written (trace (Spec.opened (Spec.disconnected (Spec.opened s))))
     = written (trace s)
       ++ map (fun l => (l ++ newline)%string)
            [""; "RST"; "VER"; "PWR"; "RST"; ""; "RST"; "VER"; "PWR"].
Proof.
  intros Hp Hc Hb Ho.
  assert (click : forall t : Gif.Session,
            port t = None -> currentImage t = None ->
            clickConnect b t = (Normal tt, Spec.opened t)).
  { intros t Ht Hct. unfold clickConnect. unfold bind at 1, get. rewrite Ht.
    erewrite bind_normal by (apply connect_opens; assumption).
    unfold bind, get. cbn [Spec.opened currentImage]. now rewrite Hct. }
  split; [apply click; assumption|].
  split; [apply disconnect_active; discriminate|].
  split; [apply click; [reflexivity | exact Hc]|].
  cbn [Spec.opened Spec.disconnected trace].
  rewrite !written_app. cbn [written]. rewrite <- !app_assoc. reflexivity.
Qed.

Lemma clickConnect_toggles_witness :
  clickConnect Examples.browser Examples.loaded
  = (Normal tt, Spec.opened Examples.loaded)
  /\ clickConnect Examples.browser (Spec.opened Examples.loaded)
     = (Normal tt, Spec.disconnected (Spec.opened Examples.loaded)).
Proof.
  refine (let H := clickConnect_toggles Examples.browser Examples.browser
                     Examples.loaded eq_refl eq_refl (or_introl eq_refl)
                     eq_refl in
          conj (proj1 H) (proj1 (proj2 H))).
Defined.

(** X15.  A port that fails to open is kept.  From a session without a port
    and without an output stream, a click with a browser that hands over a
    port which does not open writes nothing and leaves the port handle set;
    every later click then calls [disconnect], which throws a [TypeError]
    and changes nothing, so the button can no longer connect. *)
Theorem clickConnect_after_a_failed_open (b b' : Browser) (s : Gif.Session) :
  port s = None -> outputStream s = None ->
  Spec.handsPort b -> openPort b = false ->
  snd (clickConnect b s) = Spec.withPort s
  /\ clickConnect b' (Spec.withPort s) = (Throw TypeError, Spec.withPort s).
Proof.
  intros Hp Ho Hb Hopen. split.
  - unfold clickConnect. unfold bind at 1, get. rewrite Hp.
    erewrite bind_normal by (apply connect_fails_to_open; assumption).
    unfold bind, get. cbn [Spec.withPort currentImage].
    destruct (currentImage s) as [i|]; [|reflexivity].
    apply sendGifAnimation_closed. exact Ho.
  - unfold clickConnect. unfold bind at 1, get. cbn [Spec.withPort port].
    apply disconnect_idle. exact Ho.
Qed.

Lemma clickConnect_after_a_failed_open_witness :
  snd (clickConnect (mkBrowser 1 false false) Examples.loaded)
  = Spec.withPort Examples.loaded
  /\ clickConnect Examples.browser (Spec.withPort Examples.loaded)
     = (Throw TypeError, Spec.withPort Examples.loaded).
Proof.
  apply (clickConnect_after_a_failed_open (mkBrowser 1 false false)
           Examples.browser Examples.loaded eq_refl eq_refl
           (or_introl eq_refl) eq_refl).
Defined.

(** X16.  [disconnect] completes without an error exactly when the output
    stream and the port are set and, if the reader is set, the input pipe is
    set too: the guards cover a missing reader, but not a missing output
    stream or port. *)
Theorem disconnect_succeeds_iff (s : Gif.Session) :
  fst (disconnect s) = Normal tt
  <-> outputStream s <> None /\ port s <> None
      /\ (reader s <> None -> inputDone s <> None).
Proof.
  destruct s as [p r i od ins o g c t].
  cbn [port reader inputDone outputStream].
  destruct p as [[]|], r as [[]|], i as [[]|], o as [[]|];
    cbv [disconnect writeToStream deref bind get emit logged forEach ret throw
           set_reader set_inputDone set_outputStream set_outputDone set_port
           port reader inputDone outputDone inputStream outputStream
           gammaTable currentImage trace fst];
    (split;
     [ intros H; try discriminate H;
       repeat split; try discriminate; intros; first [discriminate | assumption]
     | intros (H1 & H2 & H3); try reflexivity; exfalso;
       first [ apply H1; reflexivity | apply H2; reflexivity
             | apply H3; [discriminate | reflexivity] ] ]).
Qed.

End MoreSessionFacts.

(** ** More on the gamma and colour-correction controls *)

Section MoreControlFacts.

(** X17.  Whatever the host's [**], the slider value and the session,
    [updateGamma] leaves a gamma table of exactly 256 entries, in both
    variants. *)
Theorem updateGamma_table_has_256_entries (pow : float -> float -> float)
  (v1 : float) (s1 : Gif.Session) (v2 : float) (s2 : Img.Session) :
  List.length (gammaTable (snd (Gif.updateGamma pow v1 s1))) = 256%nat
  /\ List.length (gammaTable (snd (Img.updateGamma pow v2 s2))) = 256%nat.
Proof.
  rewrite updateGamma_gif_table, updateGamma_img_table.
  split; apply gammaTableFor_length.
Qed.

Lemma gammaTableFor_last (pow : float -> float -> float) (e : float) :
  pow 1%float e = 1%float ->
  nth_error (gammaTableFor pow e) 255 = Some (Int 255).
Proof.
  intros H. rewrite gammaTableFor_entry by lia.
  change (Spec.floatOfNat 255 / 255)%float with 1%float. rewrite H.
  reflexivity.
Qed.

(** X18.  The table keeps black and full scale: when the host's [**]
    returns 0 for the base 0 and 1 for the base 1 at the exponent in use,
    the first entry of the table is 0 and the last is 255, in both
    variants. *)
Theorem updateGamma_table_ends (pow : float -> float -> float)
  (v1 : float) (s1 : Gif.Session) (v2 : float) (s2 : Img.Session) :
  pow 0%float (Gif.gammaValueFromSlider v1) = 0%float ->
  pow 1%float (Gif.gammaValueFromSlider v1) = 1%float ->
  pow 0%float (100 / v2)%float = 0%float ->
  pow 1%float (100 / v2)%float = 1%float ->
  (nth_error (gammaTable (snd (Gif.updateGamma pow v1 s1))) 0 = Some (Int 0)
   /\ nth_error (gammaTable (snd (Gif.updateGamma pow v1 s1))) 255
      = Some (Int 255))
  /\ (nth_error (gammaTable (snd (Img.updateGamma pow v2 s2))) 0 = Some (Int 0)
      /\ nth_error (gammaTable (snd (Img.updateGamma pow v2 s2))) 255
         = Some (Int 255)).
Proof.
  intros A0 A1 B0 B1. rewrite updateGamma_gif_table, updateGamma_img_table.
  repeat split;
    first [apply gammaTableFor_first; assumption
          | apply gammaTableFor_last; assumption].
Qed.

Lemma updateGamma_table_ends_witness :
  nth_error
    (gammaTable (snd (Gif.updateGamma Examples.pow_sample 60 Examples.loaded)))
    255
  = Some (Int 255)
  /\ nth_error
       (gammaTable
          (snd (Img.updateGamma Examples.pow_sample 50 Examples.connectedImg)))
       0
     = Some (Int 0).
Proof.
  refine (let H := updateGamma_table_ends Examples.pow_sample
                     60 Examples.loaded 50 Examples.connectedImg
                     eq_refl eq_refl eq_refl eq_refl in
          conj (proj2 (proj1 H)) (proj1 (proj2 H))).
Defined.

Lemma gammaInRange_holds : Spec.gammaInRange = true.
Proof. vm_compute. reflexivity. Qed.

Lemma gammaGrows_holds : Spec.gammaGrows = true.
Proof. vm_compute. reflexivity. Qed.

(** X19.  At the slider positions 0 to 100 the gamma of the first variant
    stays within the configured range, from exactly [MIN_GAMMA] at 0 to
    exactly [MAX_GAMMA] at 100, and it is strictly larger at a larger
    position. *)
Theorem gammaValueFromSlider_stays_in_range (n m : nat) :
  (n < m)%nat -> (m <= 100)%nat ->
  (Gif.MIN_GAMMA <=? Gif.gammaValueFromSlider (Spec.floatOfNat n))%float = true
  /\ (Gif.gammaValueFromSlider (Spec.floatOfNat m) <=? Gif.MAX_GAMMA)%float
     = true
  /\ (Gif.gammaValueFromSlider (Spec.floatOfNat n)
      <? Gif.gammaValueFromSlider (Spec.floatOfNat m))%float = true
  /\ Gif.gammaValueFromSlider (Spec.floatOfNat 0) = Gif.MIN_GAMMA
  /\ Gif.gammaValueFromSlider (Spec.floatOfNat 100) = Gif.MAX_GAMMA.
Proof.
  intros Hnm Hm.
  pose proof gammaInRange_holds as R. unfold Spec.gammaInRange in R.
  rewrite forallb_forall in R.
  assert (In_pos : forall k, (k <= 100)%nat ->
                             In (Spec.floatOfNat k) Spec.positions).
  { intros k Hk. unfold Spec.positions. apply in_map, in_seq. lia. }
  pose proof (R _ (In_pos n ltac:(lia))) as Rn.
  pose proof (R _ (In_pos m Hm)) as Rm.
  apply andb_true_iff in Rn as [Rn _]. apply andb_true_iff in Rm as [_ Rm].
  pose proof gammaGrows_holds as G. unfold Spec.gammaGrows in G.
  rewrite forallb_forall in G.
  specialize (G n ltac:(apply in_seq; lia)). rewrite forallb_forall in G.
  specialize (G m ltac:(apply in_seq; lia)).
  replace (n <? m)%nat with true in G by (symmetry; apply Nat.ltb_lt; lia).
  cbn [negb orb] in G.
  split; [exact Rn|]. split; [exact Rm|]. split; [exact G|].
  split; vm_compute; reflexivity.
Qed.

Lemma gammaValueFromSlider_stays_in_range_witness :
  (Gif.gammaValueFromSlider (Spec.floatOfNat 20)
   <? Gif.gammaValueFromSlider (Spec.floatOfNat 60))%float = true.
Proof.
  refine (let H := gammaValueFromSlider_stays_in_range 20 60 _ _ in
          proj1 (proj2 (proj2 H))); lia.
Defined.

Lemma channelDigits_holds : Spec.channelDigits = true.
Proof. vm_compute. reflexivity. Qed.

Lemma channelHex_digits (n : nat) :
  (n <= 100)%nat ->
  String.length (Img.channelHex (Spec.floatOfNat n))
  = (if n <? 7 then 1 else 2)%nat
  /\ Spec.allUpperHex (toUpperCase (Img.channelHex (Spec.floatOfNat n))) = true.
Proof.
  intros Hn. pose proof channelDigits_holds as H. unfold Spec.channelDigits in H.
  rewrite forallb_forall in H. specialize (H n ltac:(apply in_seq; lia)).
  apply andb_true_iff in H as [L U]. apply Nat.eqb_eq in L. split; assumption.
Qed.

(** X20.  When the colour-correction command goes out for sliders at the
    positions 0 to 100, its argument consists of uppercase hexadecimal
    digits, between 3 and 6 of them, and there are 6 exactly when all three
    sliders are at 7 or above; below 7 a channel takes a single digit. *)
Theorem updateColorCorrection_argument (r g b : nat) (s : Img.Session) :
  (r <= 100)%nat -> (g <= 100)%nat -> (b <= 100)%nat ->
  outputStream s <> None ->
  exists arg : string,
    Img.updateColorCorrection (Spec.floatOfNat r) (Spec.floatOfNat g)
      (Spec.floatOfNat b) s
    = (Normal tt, logged s (Spec.sentLines [("CLC " ++ arg)%string]))
    /\ Spec.allUpperHex arg = true
    /\ (3 <= String.length arg <= 6)%nat
    /\ (String.length arg = 6%nat <-> (7 <= r /\ 7 <= g /\ 7 <= b)%nat).
Proof.
  intros Hr Hg Hb Hs.
  destruct (channelHex_digits r Hr) as [Lr Ur].
  destruct (channelHex_digits g Hg) as [Lg Ug].
  destruct (channelHex_digits b Hb) as [Lb Ub].
  eexists. split; [unfold Img.updateColorCorrection;
                   apply writeToStream_open; exact Hs|].
  rewrite !toUpperCase_append, !allUpperHex_append, Ur, Ug, Ub.
  rewrite !length_append, !length_toUpperCase, Lr, Lg, Lb.
  split; [reflexivity|].
  destruct (Nat.ltb_spec r 7), (Nat.ltb_spec g 7), (Nat.ltb_spec b 7);
    simpl; lia.
Qed.

Lemma updateColorCorrection_argument_witness :
  exists arg : string,
    Img.updateColorCorrection (Spec.floatOfNat 5) (Spec.floatOfNat 50)
      (Spec.floatOfNat 100) Examples.connectedImg
    = (Normal tt,
       logged Examples.connectedImg (Spec.sentLines [("CLC " ++ arg)%string]))
    /\ (3 <= String.length arg <= 6)%nat.
Proof.
  destruct (updateColorCorrection_argument 5 50 100 Examples.connectedImg)
    as (arg & E & _ & L & _); try lia.
  - discriminate.
  - exists arg. split; [exact E | exact L].
Defined.

End MoreControlFacts.

(** ** The digit clock at any time *)

Section MoreClockFacts.

Import Gif.

Lemma glyphsComplete_holds : Spec.glyphsComplete = true.
Proof. vm_compute. reflexivity. Qed.

Lemma glyphRow_digit (d row : Z) :
  Spec.isDigit d -> 0 <= row <= 4 ->
  exists b0 b1 b2 : Z, glyphRow d row = Normal (Some [b0; b1; b2]).
Proof.
  intros Hd Hrow. pose proof glyphsComplete_holds as H.
  unfold Spec.glyphsComplete in H. rewrite forallb_forall in H.
  specialize (H d (upto_in 10 d ltac:(unfold Spec.isDigit in Hd; lia))).
  rewrite forallb_forall in H. specialize (H row (upto_in 5 row ltac:(lia))).
  destruct (glyphRow d row) as [[[|b0 [|b1 [|b2 [|? ?]]]]|]|e];
    try discriminate.
  now exists b0, b1, b2.
Qed.

Lemma glyphRow_no_digit (d row : Z) :
  ~ Spec.isDigit d -> glyphRow d row = Throw TypeError.
Proof.
  unfold Spec.isDigit, glyphRow, index. intros H.
  destruct (d <? 0) eqn:E; [reflexivity|]. apply Z.ltb_ge in E.
  replace (nth_error Digits (Z.to_nat d)) with (@None (list (list Z)));
    [reflexivity|].
  symmetry. apply nth_error_None. change (List.length Digits) with 10%nat. lia.
Qed.

Section Colours.

Variable A : Type.
Variables fg bg : A.

Lemma paint_side (b : Z) : Spec.paint fg bg b = fg \/ Spec.paint fg bg b = bg.
Proof.
  unfold Spec.paint. destruct (b =? 0); [right | left]; reflexivity.
Qed.

(** A row of digits: seven cells, the two cells of the colon, seven cells. *)
Lemma digitRowIterator_digits (row h10 h1 m10 m1 : Z) :
  Spec.isDigit h10 -> Spec.isDigit h1 -> Spec.isDigit m10 -> Spec.isDigit m1 ->
  0 <= row <= 4 ->
  exists l r : list A,
    Spec.side fg bg l /\ Spec.side fg bg r
    /\ forall colon : A,
         digitRowIterator row h10 h1 m10 m1 fg bg colon
         = Normal (l ++ [if Z.rem row 2 =? 0 then bg else colon;
                         if Z.rem row 2 =? 0 then bg else colon] ++ r).
Proof.
  intros H1 H2 H3 H4 Hrow.
  destruct (glyphRow_digit h10 row H1 Hrow) as (a0 & a1 & a2 & Ea).
  destruct (glyphRow_digit h1 row H2 Hrow) as (b0 & b1 & b2 & Eb).
  destruct (glyphRow_digit m10 row H3 Hrow) as (c0 & c1 & c2 & Ec).
  destruct (glyphRow_digit m1 row H4 Hrow) as (d0 & d1 & d2 & Ed).
  exists (map (Spec.paint fg bg) [a0; a1; a2] ++ [bg]
          ++ map (Spec.paint fg bg) [b0; b1; b2]),
         (map (Spec.paint fg bg) [c0; c1; c2] ++ [bg]
          ++ map (Spec.paint fg bg) [d0; d1; d2]).
  cbn [map app].
  split; [split; [reflexivity|];
          repeat (apply Forall_cons; [first [apply paint_side | now right]|]);
          apply Forall_nil|].
  split; [split; [reflexivity|];
          repeat (apply Forall_cons; [first [apply paint_side | now right]|]);
          apply Forall_nil|].
  intros colon. unfold digitRowIterator. rewrite Ea, Eb, Ec, Ed. reflexivity.
Qed.

(** The grid of the clock: five rows of background, the five rows of
    digits with the colon in the second and the fourth, six rows of
    background. *)
Lemma digitalClockIterator_digits (h10 h1 m10 m1 : Z) :
  Spec.isDigit h10 -> Spec.isDigit h1 -> Spec.isDigit m10 -> Spec.isDigit m1 ->
  exists l0 r0 l1 r1 l2 r2 l3 r3 l4 r4 : list A,
    (Spec.side fg bg l0 /\ Spec.side fg bg r0)
    /\ (Spec.side fg bg l1 /\ Spec.side fg bg r1)
    /\ (Spec.side fg bg l2 /\ Spec.side fg bg r2)
    /\ (Spec.side fg bg l3 /\ Spec.side fg bg r3)
    /\ (Spec.side fg bg l4 /\ Spec.side fg bg r4)
    /\ forall colon : A,
         digitalClockIterator h10 h1 m10 m1 fg bg colon
         = Normal
             (repeat (repeat bg 16) 5
              ++ [l0 ++ [bg; bg] ++ r0;
                  l1 ++ [colon; colon] ++ r1;
                  l2 ++ [bg; bg] ++ r2;
                  l3 ++ [colon; colon] ++ r3;
                  l4 ++ [bg; bg] ++ r4]
              ++ repeat (repeat bg 16) 6).
Proof.
  intros H1 H2 H3 H4.
  destruct (digitRowIterator_digits 0 h10 h1 m10 m1 H1 H2 H3 H4 ltac:(lia))
    as (l0 & r0 & Sl0 & Sr0 & E0).
  destruct (digitRowIterator_digits 1 h10 h1 m10 m1 H1 H2 H3 H4 ltac:(lia))
    as (l1 & r1 & Sl1 & Sr1 & E1).
  destruct (digitRowIterator_digits 2 h10 h1 m10 m1 H1 H2 H3 H4 ltac:(lia))
    as (l2 & r2 & Sl2 & Sr2 & E2).
  destruct (digitRowIterator_digits 3 h10 h1 m10 m1 H1 H2 H3 H4 ltac:(lia))
    as (l3 & r3 & Sl3 & Sr3 & E3).
  destruct (digitRowIterator_digits 4 h10 h1 m10 m1 H1 H2 H3 H4 ltac:(lia))
    as (l4 & r4 & Sl4 & Sr4 & E4).
  exists l0, r0, l1, r1, l2, r2, l3, r3, l4, r4.
  repeat (split; [split; assumption|]).
  intros colon. unfold digitalClockIterator.
  change (upto DIGIT_ROWS) with [0; 1; 2; 3; 4]. cbn [mapC].
  rewrite (E0 colon), (E1 colon), (E2 colon), (E3 colon), (E4 colon).
  reflexivity.
Qed.

End Colours.

Lemma seven {A : Type} (l : list A) :
  List.length l = 7%nat ->
  exists a b c d e f g : A, l = [a; b; c; d; e; f; g].
Proof.
  intros H.
  destruct l as [|a [|b [|c [|d [|e [|f [|g [|h l]]]]]]]]; try discriminate.
  now exists a, b, c, d, e, f, g.
Qed.

Ltac any_clock_cell :=
  eexists; eexists; split; [reflexivity|]; split; [reflexivity|];
  unfold Spec.colonCell; split;
  [ intros [? ?];
    first [ now (split; reflexivity) | exfalso; lia ]
  | let Hn := fresh in
    intros Hn; first [ reflexivity | exfalso; apply Hn; lia ] ].

(** X21.  At every time of four decimal digits, and for any colours, the
    rasterizer yields two 16x16 grids, drawn with the colon and with the
    background colour in its place, that hold the same colour everywhere
    except in rows 6 and 8, columns 7 and 8, where the first holds the colon
    colour and the second the background colour. *)
Theorem clock_grids_differ_in_the_colon_only_at_any_time
  (A : Type) (fg bg colon : A) (h10 h1 m10 m1 : Z) :
  Spec.isDigit h10 -> Spec.isDigit h1 -> Spec.isDigit m10 -> Spec.isDigit m1 ->
  exists on off : list (list A),
    digitalClockIterator h10 h1 m10 m1 fg bg colon = Normal on
    /\ digitalClockIterator h10 h1 m10 m1 fg bg bg = Normal off
    /\ Spec.is16x16 on /\ Spec.is16x16 off
    /\ forall r c : nat, (r < 16)%nat -> (c < 16)%nat ->
         exists x y : A,
           Spec.at_ on r c = Some x /\ Spec.at_ off r c = Some y
           /\ (Spec.colonCell r c -> x = colon /\ y = bg)
           /\ (~ Spec.colonCell r c -> x = y).
Proof.
  intros H1 H2 H3 H4.
  destruct (digitalClockIterator_digits A fg bg h10 h1 m10 m1 H1 H2 H3 H4)
    as (l0 & r0 & l1 & r1 & l2 & r2 & l3 & r3 & l4 & r4
        & [[L0 _] [R0 _]] & [[L1 _] [R1 _]] & [[L2 _] [R2 _]]
        & [[L3 _] [R3 _]] & [[L4 _] [R4 _]] & E).
  destruct (seven l0 L0) as (? & ? & ? & ? & ? & ? & ? & ->).
  destruct (seven r0 R0) as (? & ? & ? & ? & ? & ? & ? & ->).
  destruct (seven l1 L1) as (? & ? & ? & ? & ? & ? & ? & ->).
  destruct (seven r1 R1) as (? & ? & ? & ? & ? & ? & ? & ->).
  destruct (seven l2 L2) as (? & ? & ? & ? & ? & ? & ? & ->).
  destruct (seven r2 R2) as (? & ? & ? & ? & ? & ? & ? & ->).
  destruct (seven l3 L3) as (? & ? & ? & ? & ? & ? & ? & ->).
  destruct (seven r3 R3) as (? & ? & ? & ? & ? & ? & ? & ->).
  destruct (seven l4 L4) as (? & ? & ? & ? & ? & ? & ? & ->).
  destruct (seven r4 R4) as (? & ? & ? & ? & ? & ? & ? & ->).
  eexists. eexists.
  split; [apply E|]. split; [apply E|].
  split; [split; [reflexivity | repeat constructor]|].
  split; [split; [reflexivity | repeat constructor]|].
  clear. intros r c Hr Hc.
  do 16 (destruct r as [|r];
         [do 16 (destruct c as [|c]; [any_clock_cell|]); lia|]).
  lia.
Qed.

Lemma clock_grids_differ_at_23_59 :
  exists on off : list (list Z),
    digitalClockIterator 2 3 5 9 1 0 2 = Normal on
    /\ digitalClockIterator 2 3 5 9 1 0 0 = Normal off
    /\ Spec.at_ on 8 8 = Some 2 /\ Spec.at_ off 8 8 = Some 0.
Proof.
  destruct (clock_grids_differ_in_the_colon_only_at_any_time Z 1 0 2 2 3 5 9)
    as (on & off & E1 & E2 & _ & _ & H);
    try (unfold Spec.isDigit; lia).
  exists on, off. split; [exact E1|]. split; [exact E2|].
  destruct (H 8%nat 8%nat ltac:(lia) ltac:(lia)) as (x & y & Hx & Hy & Hc & _).
  destruct Hc as (-> & ->); [unfold Spec.colonCell; lia|].
  split; assumption.
Defined.

(** X22.  A digit outside 0..9 has no glyph: whichever of the four it is,
    the rasterizer throws a [TypeError], for any colours. *)
Theorem digitalClockIterator_throws_without_a_glyph
  (A : Type) (fg bg colon : A) (h10 h1 m10 m1 : Z) :
  ~ Spec.isDigit h10 \/ ~ Spec.isDigit h1
  \/ ~ Spec.isDigit m10 \/ ~ Spec.isDigit m1 ->
  digitalClockIterator h10 h1 m10 m1 fg bg colon = Throw TypeError.
Proof.
  intros H. unfold digitalClockIterator.
  change (upto DIGIT_ROWS) with [0; 1; 2; 3; 4]. cbn [mapC].
  replace (digitRowIterator 0 h10 h1 m10 m1 fg bg colon)
    with (@Throw (list A) TypeError); [reflexivity|].
  symmetry. unfold digitRowIterator.
  destruct H as [H | [H | [H | H]]]; rewrite (glyphRow_no_digit _ 0 H).
  - reflexivity.
  - destruct (glyphRow h10 0) as [[?|]|[]]; reflexivity.
  - destruct (glyphRow h10 0) as [[?|]|[]]; try reflexivity;
      destruct (glyphRow h1 0) as [[?|]|[]]; reflexivity.
  - destruct (glyphRow h10 0) as [[?|]|[]]; try reflexivity;
      destruct (glyphRow h1 0) as [[?|]|[]]; try reflexivity;
      destruct (glyphRow m10 0) as [[?|]|[]]; reflexivity.
Qed.

Lemma digitalClockIterator_throws_at_hour_100 :
  digitalClockIterator (100 / 10) (Z.rem 100 10) 0 0 1 0 2 = Throw TypeError.
Proof.
  apply (digitalClockIterator_throws_without_a_glyph Z 1 0 2).
  left. unfold Spec.isDigit. change (100 / 10) with 10. lia.
Defined.

Lemma mapC_nth {A B : Type} (f : A -> completion B) (l : list A)
  (bs : list B) :
  mapC f l = Normal bs ->
  forall n : nat,
    nth_error bs n
    = match nth_error l n with
      | Some a => match f a with Normal b => Some b | Throw _ => None end
      | None => None
      end.
Proof.
  revert bs; induction l as [|a l IH]; intros bs H n; cbn [mapC] in H.
  - injection H as <-. now destruct n.
  - destruct (f a) as [b|e] eqn:Ea; [|discriminate]. cbn [andThen] in H.
    destruct (mapC f l) as [bs'|e] eqn:El; [|discriminate].
    cbn [andThen] in H. injection H as <-.
    destruct n as [|n]; cbn [nth_error]; [now rewrite Ea | now apply IH].
Qed.

Lemma Frame_new_row (table : list Num) (ms : Z) (g : grid) (fr : Frame) :
  Frame_new table ms g = Normal fr ->
  forall n : nat,
    nth_error (frame_rows fr) n
    = match nth_error g n with
      | Some row =>
          match encodeRow table row with
          | Normal line => Some line
          | Throw _ => None
          end
      | None => None
      end.
Proof.
  unfold Frame_new. intros H.
  destruct (mapC (encodeRow table) g) as [rows|e] eqn:E; [|discriminate].
  cbn [andThen] in H. injection H as <-. exact (mapC_nth _ _ _ E).
Qed.

Lemma Frame_new_triples (table : list Num) (ms : Z) (g : grid) :
  forallb (forallb Spec.isTriple) g = true ->
  exists fr : Frame, Frame_new table ms g = Normal fr.
Proof.
  intros H. unfold Frame_new.
  pose proof (mapC_forallb (forallb Spec.isTriple) (encodeRow table) g) as M.
  rewrite H in M. destruct M as (rows & -> & _).
  - intros row Hrow. pose proof (encodeRow_cases table row) as C.
    now rewrite Hrow in C.
  - intros row Hrow. pose proof (encodeRow_cases table row) as C.
    now rewrite Hrow in C.
  - eexists. reflexivity.
Qed.

Lemma side_triples (fg bg : cell) (l : list cell) :
  Spec.isTriple fg = true -> Spec.isTriple bg = true ->
  Spec.side fg bg l -> forallb Spec.isTriple l = true.
Proof.
  intros Hfg Hbg [_ H]. apply forallb_forall. intros x Hx.
  rewrite Forall_forall in H. now destruct (H x Hx) as [-> | ->].
Qed.

Lemma digits_of (n : Z) :
  0 <= n < 100 -> Spec.isDigit (n / 10) /\ Spec.isDigit (Z.rem n 10).
Proof.
  intros H. unfold Spec.isDigit.
  pose proof (Z.rem_bound_pos n 10 ltac:(lia) ltac:(lia)).
  pose proof (Z.div_pos n 10 ltac:(lia) ltac:(lia)).
  pose proof (Z.div_lt_upper_bound n 10 10 ltac:(lia) ltac:(lia)).
  lia.
Qed.

(** X23.  With an open output stream, a time of two decimal digits each and
    three colours that are triples, [drawClockMinute] sends one animation of
    60000 ms that holds two frames of 500 ms and 16 rows each, and the two
    frames carry the same line in every row except rows 6 and 8: only the
    rows of the colon blink. *)
Theorem drawClockMinute_blinks_the_colon_rows_only
  (hours minutes : Z) (fg bg colon : cell) (s : Gif.Session) :
  0 <= hours < 100 -> 0 <= minutes < 100 ->
  Spec.isTriple fg = true -> Spec.isTriple bg = true ->
  Spec.isTriple colon = true ->
  outputStream s <> None ->
  exists f1 f2 : Frame,
    drawClockMinute hours minutes fg bg colon s
    = (Normal tt,
       logged s
         (Spec.sentLines (Spec.animationLines (mkAnimation 60000 [f1; f2]))))
    /\ frame_duration f1 = 500 /\ frame_duration f2 = 500
    /\ List.length (frame_rows f1) = 16%nat
    /\ List.length (frame_rows f2) = 16%nat
    /\ forall r : nat, r <> 6%nat -> r <> 8%nat ->
         nth_error (frame_rows f1) r = nth_error (frame_rows f2) r.
Proof.
  intros Hh Hm Hfg Hbg Hcolon Hs.
  destruct (digits_of hours Hh) as [H1 H2].
  destruct (digits_of minutes Hm) as [H3 H4].
  destruct (digitalClockIterator_digits cell fg bg _ _ _ _ H1 H2 H3 H4)
    as (l0 & r0 & l1 & r1 & l2 & r2 & l3 & r3 & l4 & r4
        & [L0 R0] & [L1 R1] & [L2 R2] & [L3 R3] & [L4 R4] & E).
  pose proof (side_triples fg bg _ Hfg Hbg L0) as T0.
  pose proof (side_triples fg bg _ Hfg Hbg R0) as U0.
  pose proof (side_triples fg bg _ Hfg Hbg L1) as T1.
  pose proof (side_triples fg bg _ Hfg Hbg R1) as U1.
  pose proof (side_triples fg bg _ Hfg Hbg L2) as T2.
  pose proof (side_triples fg bg _ Hfg Hbg R2) as U2.
  pose proof (side_triples fg bg _ Hfg Hbg L3) as T3.
  pose proof (side_triples fg bg _ Hfg Hbg R3) as U3.
  pose proof (side_triples fg bg _ Hfg Hbg L4) as T4.
  pose proof (side_triples fg bg _ Hfg Hbg R4) as U4.
  pose proof (E colon) as Eon. pose proof (E bg) as Eoff.
  match type of Eon with _ = Normal ?g => set (on := g) in * end.
  match type of Eoff with _ = Normal ?g => set (off := g) in * end.
  assert (Ton : forallb (forallb Spec.isTriple) on = true).
  { subst on. cbn [repeat app forallb].
    rewrite !forallb_app. cbn [forallb].
    now rewrite T0, U0, T1, U1, T2, U2, T3, U3, T4, U4, Hbg, Hcolon. }
  assert (Toff : forallb (forallb Spec.isTriple) off = true).
  { subst off. cbn [repeat app forallb].
    rewrite !forallb_app. cbn [forallb].
    now rewrite T0, U0, T1, U1, T2, U2, T3, U3, T4, U4, Hbg. }
  destruct (Frame_new_triples (gammaTable s) 500 on Ton) as [f1 F1].
  destruct (Frame_new_triples (gammaTable s) 500 off Toff) as [f2 F2].
  destruct (Frame_new_normal _ _ _ _ F1) as [D1 N1].
  destruct (Frame_new_normal _ _ _ _ F2) as [D2 N2].
  exists f1, f2.
  split.
  { unfold drawClockMinute, bind at 1, lift. rewrite Eon.
    unfold bind at 1, newFrame, bind at 1, get, lift. rewrite F1.
    unfold bind at 1. rewrite Eoff.
    unfold bind at 1, bind at 1. rewrite F2.
    unfold Animation_new, addFrame. cbn [anim_duration anim_frames app].
    apply sendAnimation_open. exact Hs. }
  split; [exact D1|]. split; [exact D2|].
  split; [rewrite N1; reflexivity|]. split; [rewrite N2; reflexivity|].
  intros r Hr6 Hr8.
  rewrite (Frame_new_row _ _ _ _ F1 r), (Frame_new_row _ _ _ _ F2 r).
  replace (nth_error off r) with (nth_error on r); [reflexivity|].
  subst on off. clear - Hr6 Hr8.
  do 17 (destruct r as [|r]; [first [reflexivity | congruence]|]).
  now destruct r.
Qed.

Lemma drawClockMinute_blinks_at_23_59 :
  exists f1 f2 : Frame,
    drawClockMinute 23 59 Examples.white Examples.black Examples.blue
      Examples.connected
    = (Normal tt,
       logged Examples.connected
         (Spec.sentLines (Spec.animationLines (mkAnimation 60000 [f1; f2]))))
    /\ nth_error (frame_rows f1) 7 = nth_error (frame_rows f2) 7.
Proof.
  destruct (drawClockMinute_blinks_the_colon_rows_only 23 59
              Examples.white Examples.black Examples.blue Examples.connected
              ltac:(lia) ltac:(lia) eq_refl eq_refl eq_refl
              ltac:(discriminate))
    as (f1 & f2 & E & _ & _ & _ & _ & H).
  exists f1, f2. split; [exact E|].
  apply H; discriminate.
Defined.

End MoreClockFacts.
